(** * webtoon-dl: episode discovery, batching and the fetch/assemble executor

    A shallow embedding of the Go program.  The repository carries two
    revisions of the one source file: the later one (with [EpisodeInfo],
    [FileVerify], the goroutine pools and [recover]) is embedded at top
    level; the places where the earlier [main.go] differs are embedded in
    [Module Legacy].

    Conventions.
    - Go [string]s are byte strings: Stdlib [string].
    - Go [int] is a 64-bit two's-complement integer: [Z] with [wrap].
    - A Go [map] used as a set is a [gset]; a [map] with values a [gmap].
      The order in which [range] visits a map is not specified by Go, so
      it is a parameter of every function that ranges over a map.
    - The site and the image host are oracles, the fields of [Env]; the
      local disk and the progress store are explicit state, [world].
    - A Go function that may [return err], [panic] or call [os.Exit] returns
      an [outcome]. *)

From stdpp Require Import gmap strings list sorting pretty.
From Stdlib Require Import ZArith Ascii Lia.
From Stdlib Require String Strings.Byte.

Local Open Scope Z_scope.

(** ** Outcomes of Go calls *)

Inductive outcome (A : Type) : Type :=
  | Ok (a : A)            (* normal return *)
  | Err (msg : string)    (* a returned, non-nil [error] *)
  | Panic (msg : string)  (* [panic], unwinds to the nearest [recover] *)
  | Exit (code : Z).      (* [os.Exit]: the whole process ends, no defers run *)
Arguments Ok {A} a.
Arguments Err {A} msg.
Arguments Panic {A} msg.
Arguments Exit {A} code.

(** [outcome] is a monad: [let* x := m in k] runs [m] and goes on with [k]
    only when [m] returns normally. *)
Definition obind {A B} (m : outcome A) (k : A → outcome B) : outcome B :=
  match m with
  | Ok a => k a
  | Err e => Err e
  | Panic e => Panic e
  | Exit c => Exit c
  end.

Notation "'let*' x ':=' m 'in' k" := (obind m (λ x, k))
  (at level 10, x name, m at level 100, k at level 200).

(** ** Go [int] *)

Definition intSize : Z := 64.
Definition maxInt : Z := 2 ^ (intSize - 1) - 1.
Definition minInt : Z := - 2 ^ (intSize - 1).

Definition wrap (z : Z) : Z :=
  (z + 2 ^ (intSize - 1)) mod 2 ^ intSize - 2 ^ (intSize - 1).

(** ** Byte strings *)

Definition is_digit (c : ascii) : bool :=
  ((48 <=? N_of_ascii c) && (N_of_ascii c <=? 57))%N.

Definition digit_val (c : ascii) : Z := Z.of_N (N_of_ascii c) - 48.

Fixpoint all_digits (s : string) : bool :=
  match s with
  | EmptyString => true
  | String c s' => is_digit c && all_digits s'
  end.

Definition starts_with_digit (s : string) : bool :=
  match s with
  | EmptyString => false
  | String c _ => is_digit c
  end.

(** [strings.HasPrefix], returning the rest. *)
Fixpoint stripPrefix (p s : string) : option string :=
  match p with
  | EmptyString => Some s
  | String a p' =>
      match s with
      | EmptyString => None
      | String b s' => if Ascii.eqb a b then stripPrefix p' s' else None
      end
  end.

(** [s[:n]] for [n <= len(s)]. *)
Fixpoint takeS (n : nat) (s : string) : string :=
  match n with
  | O => EmptyString
  | S n' => match s with EmptyString => EmptyString | String c s' => String c (takeS n' s') end
  end.

(** [strings.Contains]. *)
Fixpoint Contains (s sub : string) : bool :=
  match stripPrefix sub s with
  | Some _ => true
  | None => match s with EmptyString => false | String _ s' => Contains s' sub end
  end.

(** [strings.ReplaceAll old new] for a non-empty [old]: left to right,
    non-overlapping.  [skip] counts the bytes of a matched [old] still to
    be dropped. *)
Fixpoint replaceFrom (skip : nat) (old new s : string) : string :=
  match s with
  | EmptyString => EmptyString
  | String c s' =>
      match skip with
      | S k => replaceFrom k old new s'
      | O =>
          match stripPrefix old s with
          | Some _ => new +:+ replaceFrom (String.length old - 1) old new s'
          | None => String c (replaceFrom O old new s')
          end
      end
  end.

Definition ReplaceAll (s old new : string) : string := replaceFrom O old new s.

(** ** Episode-number extractor *)

(** The longest run of digits at the head of [s]: the greedy [[0-9]+]. *)
Fixpoint takeDigits (s : string) : string :=
  match s with
  | EmptyString => EmptyString
  | String c s' => if is_digit c then String c (takeDigits s') else EmptyString
  end.

(** The regular expression [episode_no=([0-9]+)] anchored at the head of
    [s]; the result is capture group 1. *)
Definition matchEpisodeNoAt (s : string) : option string :=
  match stripPrefix "episode_no=" s with
  | Some r =>
      match takeDigits r with
      | EmptyString => None
      | ds => Some ds
      end
  | None => None
  end.

(** [re.FindStringSubmatch]: the leftmost match.  [None] is the nil slice
    ([len(matches) = 0]); [Some ds] is [[whole; ds]] ([len(matches) = 2]). *)
Fixpoint FindStringSubmatch (s : string) : option string :=
  match matchEpisodeNoAt s with
  | Some ds => Some ds
  | None =>
      match s with
      | EmptyString => None
      | String _ s' => FindStringSubmatch s'
      end
  end.

Fixpoint decimal (acc : Z) (s : string) : Z :=
  match s with
  | EmptyString => acc
  | String c s' => decimal (10 * acc + digit_val c) s'
  end.

(** [strconv.Atoi]: an optional sign, then one or more digits; [None] is a
    syntax or range error. *)
Definition Atoi (s : string) : option Z :=
  let '(neg, body) :=
    match s with
    | String c r =>
        if Ascii.eqb c "-" then (true, r)
        else if Ascii.eqb c "+" then (false, r)
        else (false, s)
    | EmptyString => (false, s)
    end in
  if negb (all_digits body) then None
  else match body with
       | EmptyString => None
       | _ =>
           let v := if neg then - decimal 0 body else decimal 0 body in
           if (minInt <=? v) && (v <=? maxInt) then Some v else None
       end.

Definition episodeNo (episodeLink : string) : Z :=
  match FindStringSubmatch episodeLink with
  | None => 0
  | Some m1 =>
      match Atoi m1 with
      | None => 0
      | Some n => n
      end
  end.

(** ** Slices *)

Definition len {A} (l : list A) : Z := Z.of_nat (List.length l).

(** [l[i]]: a run-time panic when [i] is out of range. *)
Definition index {A} (l : list A) (i : Z) : outcome A :=
  if (0 <=? i) && (i <? len l) then
    match l !! Z.to_nat i with
    | Some x => Ok x
    | None => Panic "index out of range"
    end
  else Panic "index out of range".

(** [l[lo:hi]]: a run-time panic unless [0 <= lo <= hi <= len(l)]. *)
Definition slice {A} (l : list A) (lo hi : Z) : outcome (list A) :=
  if (0 <=? lo) && (lo <=? hi) && (hi <=? len l) then
    Ok (take (Z.to_nat (hi - lo)) (drop (Z.to_nat lo) l))
  else Panic "slice bounds out of range".

(** ** Data model *)

Module EpisodeInfo.
Record t : Type := mk { title : string; url : string }.
End EpisodeInfo.

Module EpisodeBatch.
Record t : Type := mk {
  imgLinks : list string;
  title : string;
  minEp : Z;
  maxEp : Z
}.
End EpisodeBatch.

Module Opts.
Record t : Type := mk {
  url : string;
  minEp : Z;
  maxEp : Z;
  epsPerFile : Z;
  format : string
}.
End Opts.

#[export] Instance EpisodeInfo_eq_dec : EqDecision EpisodeInfo.t.
Proof. solve_decision. Defined.

#[export] Instance EpisodeInfo_countable : Countable EpisodeInfo.t :=
  inj_countable'
    (λ e, (EpisodeInfo.title e, EpisodeInfo.url e))
    (λ p, EpisodeInfo.mk p.1 p.2)
    (λ e, match e with EpisodeInfo.mk _ _ => eq_refl end).

(** [MotiontoonJson.Assets.Image]. *)
Abbreviation imageMap := (gmap string string).

Abbreviation bytes := (list Byte.byte).

#[export] Instance byte_eq_dec : EqDecision Byte.byte := Stdlib.Strings.Byte.byte_eq_dec.

(** ** The outside world: the site, the image host and the local disk *)

Record Env : Type := {
  (* [soup.Get]: the body, or [None] for an error *)
  soupGet : string → option string;
  (* the anchors under [div.detail_lst] of a listing page, each with its
     [href] attribute and the text of its caption span ([span.subj span])
     when it has one; [None] when the page has no such [div] *)
  detailAnchors : string → option (list (string * option string));
  (* the [img] elements under [div.viewer_lst] of a viewer page, each with
     its [data-url] attribute when it has one; [None] when the page has no
     such [div] *)
  viewerImgs : string → option (list (option string));
  (* capture group 1 of the [documentURL] and of the [stillcut] regular
     expression on [doc.HTML()], when the expression matches *)
  findDocumentURL : string → option string;
  findPathRule : string → option string;
  (* [json.Unmarshal] into [MotiontoonJson], projected on [Assets.Image] *)
  jsonUnmarshal : string → option imageMap;
  (* the order in which [range] visits a map *)
  rangeEpisodeSet : gset EpisodeInfo.t → list EpisodeInfo.t;
  rangeImage : imageMap → list string;
  rangeLinkSet : gset string → list string;
  (* [http.DefaultClient.Do] and reading the body: [None] for any error *)
  httpGet : string → option bytes;
  (* whether gopdf can decode an image *)
  imageDecodable : bytes → bool;
  (* whether a file can be created at a path *)
  creatable : string → bool;
  (* [url.ParseRequestURI] accepts the string *)
  ParseRequestURI : string → bool;
  (* the command-line flags held in package-level variables *)
  FileVerify : bool;
  confOverride : bool
}.

(** What Go guarantees about [range] over a map: every key once. *)
Definition range_ok (E : Env) : Prop :=
  (∀ s, rangeEpisodeSet E s ≡ₚ elements s) ∧
  (∀ m : imageMap, rangeImage E m ≡ₚ (map_to_list m).*1).

(** ** Catalog crawler *)

(** [re.ReplaceAllString(url, "")] for [&page=[0-9]+]: every match, left to
    right, is deleted.  [skip] counts the bytes of a match still to drop. *)
Fixpoint stripPageFrom (skip : nat) (s : string) : string :=
  match s with
  | EmptyString => EmptyString
  | String c s' =>
      match skip with
      | S k => stripPageFrom k s'
      | O =>
          match stripPrefix "&page=" s with
          | Some r =>
              match takeDigits r with
              | EmptyString => String c (stripPageFrom O s')
              | ds => stripPageFrom (5 + String.length ds) s'
              end
          | None => String c (stripPageFrom O s')
          end
      end
  end.

(** The URL requested at one iteration, from the URL of the one before. *)
Definition pageURL (url : string) (page : Z) : string :=
  stripPageFrom O url +:+ "&page=" +:+ pretty page.

(** [soup]'s [Find] answers a missing element with a root that holds no
    node; [FindAll], [Find] and [Text] on such a root dereference the nil
    pointer, a run-time panic. *)
Definition nilDeref : string := "invalid memory address or nil pointer dereference".

(** The loop of [getEpisodeLinksForPage] over the anchors of the listing:
    an anchor to a viewer page gives an entry, with the text of its caption
    span as title. *)
Fixpoint viewerAnchors (episodeURLs : list (string * option string))
  : outcome (list EpisodeInfo.t) :=
  match episodeURLs with
  | [] => Ok []
  | (href, span) :: rest =>
      if Contains href "/viewer" then
        match span with
        | None => Panic nilDeref
        | Some text =>
            let* episode := viewerAnchors rest in
            Ok (EpisodeInfo.mk text href :: episode)
        end
      else viewerAnchors rest
  end.

Definition getEpisodeLinksForPage (E : Env) (url : string) : outcome (list EpisodeInfo.t) :=
  match soupGet E url with
  | None => Err "error fetching page"
  | Some resp =>
      match detailAnchors E resp with
      | None => Panic nilDeref
      | Some episodeURLs => viewerAnchors episodeURLs
      end
  end.

(** The inner loop over one page: [(foundLastPage, episodeSet)]. *)
Fixpoint scanPage (episodes : list EpisodeInfo.t) (episodeSet : gset EpisodeInfo.t)
  : bool * gset EpisodeInfo.t :=
  match episodes with
  | [] => (false, episodeSet)
  | episode :: rest =>
      if decide (episode ∈ episodeSet) then (true, episodeSet)
      else scanPage rest ({[ episode ]} ∪ episodeSet)
  end.

(** The outer loop.  It has no bound in the source, so it runs on fuel:
    [None] means the fuel ran out before the loop ended.  A returned error
    ends the loop; a panic of the page function goes through it. *)
Fixpoint crawlPages (E : Env) (fuel : nat) (url : string) (page : Z)
    (episodeSet : gset EpisodeInfo.t) : option (outcome (gset EpisodeInfo.t)) :=
  match fuel with
  | O => None
  | S fuel' =>
      let url := pageURL url page in
      match getEpisodeLinksForPage E url with
      | Ok episodes =>
          let '(foundLastPage, episodeSet) := scanPage episodes episodeSet in
          if foundLastPage then Some (Ok episodeSet)
          else crawlPages E fuel' url (wrap (page + 1)) episodeSet
      | Err _ => Some (Ok episodeSet)
      | Panic e => Some (Panic e)
      | Exit c => Some (Exit c)
      end
  end.

Definition episodeLe (a b : EpisodeInfo.t) : Prop :=
  episodeNo (EpisodeInfo.url a) ≤ episodeNo (EpisodeInfo.url b).

#[export] Instance episodeLe_dec : RelDecision episodeLe.
Proof. intros a b. unfold episodeLe. apply _. Defined.

(** [sort.Slice] with [less i j := episodeNo(url i) < episodeNo(url j)]: the
    result has no pair out of order for [less].  Which of two entries with
    equal numbers comes first depends on the order of the input, and that
    is the arbitrary [range] order. *)
Definition sortByEpisodeNo (l : list EpisodeInfo.t) : list EpisodeInfo.t :=
  merge_sort episodeLe l.

Definition getAllEpisodeLinks (E : Env) (fuel : nat) (url : string)
  : option (outcome (list EpisodeInfo.t)) :=
  match crawlPages E fuel url 1 ∅ with
  | None => None
  | Some r =>
      Some (let* episodeSet := r in
            Ok (sortByEpisodeNo (rangeEpisodeSet E episodeSet)))
  end.

(** ** Image-link resolver *)

(** [sort.Strings]: ascending in the byte-wise lexicographic order. *)
Definition sortStrings (l : list string) : list string := merge_sort String.le l.

(** Indexing a map with a key it does not hold yields the zero value. *)
Definition imageAt (m : imageMap) (k : string) : string := default "" (m !! k).

Definition getOzPageImgLinks (E : Env) (doc : string) : outcome (list string) :=
  match findDocumentURL E doc with
  | None => Exit 1
  | Some documentURL =>
      match soupGet E documentURL with
      | None => Exit 1
      | Some resp =>
          match jsonUnmarshal E resp with
          | None => Exit 1
          | Some image =>
              let sortedKeys := sortStrings (rangeImage E image) in
              match findPathRule E doc with
              | None => Exit 1
              | Some pathRule =>
                  Ok ((λ k, ReplaceAll pathRule "{=filename}" (imageAt image k)) <$> sortedKeys)
              end
          end
      end
  end.

Definition getImgLinksForEpisode (E : Env) (url : string) : outcome (list string) :=
  match soupGet E url with
  | None => Exit 1
  | Some resp =>
      match viewerImgs E resp with
      | None => Panic nilDeref
      | Some imgs =>
          if decide (List.length imgs = 0%nat) then getOzPageImgLinks E resp
          else Ok (omap id imgs)
      end
  end.

Fixpoint getImgLinksForEpisodes (E : Env) (episodeLinks : list string) (actualMaxEp : Z)
  : outcome (list string) :=
  match episodeLinks with
  | [] => Ok []
  | episodeLink :: rest =>
      let* links := getImgLinksForEpisode E episodeLink in
      let* more := getImgLinksForEpisodes E rest actualMaxEp in
      Ok (links ++ more)
  end.

(** ** Batch planner *)

Definition createTitle (episodetitles : list string) : outcome string :=
  let title := foldl (λ title episodeTitle, title +:+ episodeTitle +:+ "_") "" episodetitles in
  let last := Z.of_nat (String.length title) - 1 in
  if last <? 0 then Panic "slice bounds out of range"
  else Ok (takeS (Z.to_nat last) title).

Definition inRange (minEp maxEp epNo : Z) : bool :=
  (minEp <=? epNo) && (epNo <=? maxEp).

(** The episodes of the catalog that the first loop of the listing branch
    keeps, in catalog order. *)
Definition desiredEpisodes (allEpisodeLinks : list EpisodeInfo.t) (minEp maxEp : Z)
  : list EpisodeInfo.t :=
  List.filter (λ episodeLink, inRange minEp maxEp (episodeNo (EpisodeInfo.url episodeLink)))
              allEpisodeLinks.

(** One iteration of the batching loop, for the chunk [start:end]. *)
Definition makeBatch (E : Env) (desiredEpisodeLinks desiredEpisodeTitles : list string)
    (actualMaxEp start end_ : Z) : outcome EpisodeBatch.t :=
  let* chunk := slice desiredEpisodeLinks start end_ in
  let* imgLinks := getImgLinksForEpisodes E chunk actualMaxEp in
  let* titles := slice desiredEpisodeTitles start end_ in
  let* title := createTitle titles in
  let* first := index desiredEpisodeLinks start in
  let* last := index desiredEpisodeLinks (end_ - 1) in
  Ok (EpisodeBatch.mk imgLinks title (episodeNo first) (episodeNo last)).

(** [for start := 0; start < len(desiredEpisodeLinks); start += epsPerBatch].
    [None] means the fuel ran out. *)
Fixpoint batchLoop (E : Env) (fuel : nat) (desiredEpisodeLinks desiredEpisodeTitles : list string)
    (actualMaxEp epsPerBatch start : Z) (episodeBatches : list EpisodeBatch.t)
  : option (outcome (list EpisodeBatch.t)) :=
  if negb (start <? len desiredEpisodeLinks) then Some (Ok episodeBatches)
  else
    match fuel with
    | O => None
    | S fuel' =>
        let end_ := wrap (start + epsPerBatch) in
        let end_ := if end_ >? len desiredEpisodeLinks then len desiredEpisodeLinks else end_ in
        match makeBatch E desiredEpisodeLinks desiredEpisodeTitles actualMaxEp start end_ with
        | Ok batch =>
            batchLoop E fuel' desiredEpisodeLinks desiredEpisodeTitles actualMaxEp epsPerBatch
                      (wrap (start + epsPerBatch)) (episodeBatches ++ [batch])
        | Err e => Some (Err e)
        | Panic e => Some (Panic e)
        | Exit c => Some (Exit c)
        end
    end.

(** The listing branch of [getEpisodeBatches] once the catalog is known. *)
Definition planBatches (E : Env) (fuel : nat) (allEpisodeLinks : list EpisodeInfo.t)
    (minEp maxEp epsPerBatch : Z) : option (outcome (list EpisodeBatch.t)) :=
  let desired := desiredEpisodes allEpisodeLinks minEp maxEp in
  let desiredEpisodeLinks := EpisodeInfo.url <$> desired in
  let desiredEpisodeTitles := EpisodeInfo.title <$> desired in
  if decide (List.length desiredEpisodeLinks = 0%nat) then Some (Err "No episode found")
  else
    match index desiredEpisodeLinks 0,
          index desiredEpisodeLinks (len desiredEpisodeLinks - 1) with
    | Ok first, Ok last =>
        let actualMinEp := if minEp >? episodeNo first then minEp else episodeNo first in
        let actualMaxEp := if maxEp <? episodeNo last then maxEp else episodeNo last in
        batchLoop E fuel desiredEpisodeLinks desiredEpisodeTitles actualMaxEp epsPerBatch 0 []
    | Ok _, Panic e | Panic e, _ => Some (Panic e)
    | Ok _, Err e | Err e, _ => Some (Err e)
    | Ok _, Exit c | Exit c, _ => Some (Exit c)
    end.

Definition getEpisodeBatches (E : Env) (fuel : nat) (url : string) (minEp maxEp epsPerBatch : Z)
  : option (outcome (list EpisodeBatch.t)) :=
  if Contains url "/viewer" then
    Some (let* imgLinks := getImgLinksForEpisode E url in
          Ok [EpisodeBatch.mk imgLinks "" (episodeNo url) (episodeNo url)])
  else
    match getAllEpisodeLinks E fuel url with
    | None => None
    | Some (Ok allEpisodeLinks) => planBatches E fuel allEpisodeLinks minEp maxEp epsPerBatch
    | Some (Err e) => Some (Err e)
    | Some (Panic e) => Some (Panic e)
    | Some (Exit c) => Some (Exit c)
    end.

(** ** Fetch/assemble executor *)

(** What a saved output file holds. *)
Inductive fileData : Type :=
  | PdfDoc (pages : list bytes)
  | CbzArchive (entries : list (string * bytes)).

(** One row of the [webtoon] table; its primary key [(titre, lang)] is the
    key of the map that holds it. *)
Record Row : Type := {
  row_url : string;
  last_chapter : Z;
  row_epsPerFile : Z;
  row_format : string
}.

(** The calls that leave the process or build an output file. *)
Inductive event : Type :=
  | EvFetchImage (imgLink : string)
  | EvGetComicFile (format : string)
  | EvAddImage (img : bytes)
  | EvSave (outFile : string).

Record world : Type := {
  fs : gmap string fileData;
  db : gmap (string * string) Row;
  trace : list event
}.

Definition log (e : event) (w : world) : world :=
  {| fs := fs w; db := db w; trace := (trace w ++ [e]) |}.

Definition writeFile (path : string) (d : fileData) (w : world) : world :=
  {| fs := <[path := d]> (fs w); db := db w; trace := trace w |}.

(** [insert or replace into webtoon ...]; [db.Exec] is taken to succeed. *)
Definition upsert (key : string * string) (r : Row) (w : world) : world :=
  {| fs := fs w; db := <[key := r]> (db w); trace := trace w |}.

(** The [ComicFile] interface. *)
Class ComicFile (C : Type) : Type := {
  addImage : Env → C → bytes → outcome C;
  save : Env → C → string → world → outcome unit * world
}.

Record PDFComicFile : Type := { pdf : list bytes }.

Record CBZComicFile : Type := {
  zipWriter : list (string * bytes);
  numFiles : Z
}.

(** [fmt.Sprintf("%010d", n)] for [n >= 0]. *)
Definition pad10 (n : Z) : string :=
  let d := pretty n in
  String.concat "" (replicate (10 - String.length d) "0") +:+ d.

#[export] Instance PDFComicFile_ComicFile : ComicFile PDFComicFile := {
  addImage E c img :=
    if imageDecodable E img then Ok {| pdf := (pdf c ++ [img]) |}
    else Err "image: unknown format";
  save E c outputPath w :=
    if creatable E outputPath then (Ok (), writeFile outputPath (PdfDoc (pdf c)) w)
    else (Err "open: no such file or directory", w)
}.

#[export] Instance CBZComicFile_ComicFile : ComicFile CBZComicFile := {
  addImage E c img :=
    Ok {| zipWriter := (zipWriter c ++ [(pad10 (numFiles c) +:+ ".jpg", img)]);
          numFiles := wrap (numFiles c + 1) |};
  save E c outputPath w :=
    if creatable E outputPath then (Ok (), writeFile outputPath (CbzArchive (zipWriter c)) w)
    else (Err "open: no such file or directory", w)
}.

(** A value of interface type: one of the two implementations. *)
Inductive comicFile : Type :=
  | AsPDF (c : PDFComicFile)
  | AsCBZ (c : CBZComicFile).

#[export] Instance comicFile_ComicFile : ComicFile comicFile := {
  addImage E c img :=
    match c with
    | AsPDF c => let* c' := addImage E c img in Ok (AsPDF c')
    | AsCBZ c => let* c' := addImage E c img in Ok (AsCBZ c')
    end;
  save E c outputPath w :=
    match c with
    | AsPDF c => save E c outputPath w
    | AsCBZ c => save E c outputPath w
    end
}.

Definition newPDFComicFile : PDFComicFile := {| pdf := [] |}.
Definition newCBZComicFile : CBZComicFile := {| zipWriter := []; numFiles := 0 |}.

Definition getComicFile (format : string) : comicFile :=
  if decide (format = "cbz") then AsCBZ newCBZComicFile else AsPDF newPDFComicFile.

Definition fetchImage (E : Env) (imgLink : string) (w : world) : outcome bytes * world :=
  let w := log (EvFetchImage imgLink) w in
  match httpGet E imgLink with
  | None => (Exit 1, w)
  | Some body => (Ok body, w)
  end.

(** The loop of [saveBatch] over the image links of one batch. *)
Fixpoint addImages (E : Env) (imgLinks : list string) (c : comicFile) (w : world)
  : outcome comicFile * world :=
  match imgLinks with
  | [] => (Ok c, w)
  | imgLink :: rest =>
      if Contains imgLink ".gif" then addImages E rest c w
      else
        match fetchImage E imgLink w with
        | (Ok img, w) =>
            let w := log (EvAddImage img) w in
            match addImage E c img with
            | Ok c' => addImages E rest c' w
            | Err e | Panic e => (Panic e, w)
            | Exit n => (Exit n, w)
            end
        | (Err e, w) => (Err e, w)
        | (Panic e, w) => (Panic e, w)
        | (Exit n, w) => (Exit n, w)
        end
  end.

Definition outFileOf (title lang : string) (opts : Opts.t) (episodeBatch : EpisodeBatch.t)
  : string :=
  "webtoon/" +:+ title +:+ "/" +:+ lang +:+ "/" +:+ EpisodeBatch.title episodeBatch
    +:+ "." +:+ Opts.format opts.

(** The deferred [recover()]: a panic ends the call, which then returns
    normally. *)
Definition recover (r : outcome unit * world) : outcome unit * world :=
  match r with
  | (Panic _, w) => (Ok (), w)
  | r => r
  end.

Definition saveBatch (E : Env) (title lang : string) (opts : Opts.t)
    (episodeBatch : EpisodeBatch.t) (totalEpisodes : Z) (w : world) : outcome unit * world :=
  let outFile := outFileOf title lang opts episodeBatch in
  let fileExist := fs w !! outFile in    (* [os.Stat]: [None] is a non-nil error *)
  recover
    (if negb (FileVerify E) || bool_decide (fileExist = None) then
       let w := log (EvGetComicFile (Opts.format opts)) w in
       match addImages E (EpisodeBatch.imgLinks episodeBatch) (getComicFile (Opts.format opts)) w with
       | (Ok c, w) =>
           let w := log (EvSave outFile) w in
           match save E c outFile w with
           | (Ok _, w) => (Ok (), w)
           | (Err e, w) | (Panic e, w) => (Panic e, w)
           | (Exit n, w) => (Exit n, w)
           end
       | (Err e, w) => (Err e, w)
       | (Panic e, w) => (Panic e, w)
       | (Exit n, w) => (Exit n, w)
       end
     else (Ok (), w)).

(** The dispatch loop of [GetWebtoon] and [pool.Wait()], for a pool of size
    one ([-E 1]): [pool.Add] blocks until the batch before has called
    [pool.Done], so the batches run one after the other in dispatch order.
    [os.Exit] in one of them ends the process. *)
Fixpoint runBatches (E : Env) (title lang : string) (opts : Opts.t)
    (episodeBatches : list EpisodeBatch.t) (totalEpisodes : Z) (w : world)
  : outcome unit * world :=
  match episodeBatches with
  | [] => (Ok (), w)
  | episodeBatch :: rest =>
      match saveBatch E title lang opts episodeBatch totalEpisodes w with
      | (Ok _, w) => runBatches E title lang opts rest totalEpisodes w
      | r => r
      end
  end.

(** [strings.Split] with a non-empty separator. *)
Fixpoint splitFrom (skip : nat) (sep cur s : string) : list string :=
  match s with
  | EmptyString => [cur]
  | String c s' =>
      match skip with
      | S k => splitFrom k sep cur s'
      | O =>
          match stripPrefix sep s with
          | Some _ => cur :: splitFrom (String.length sep - 1) sep "" s'
          | None => splitFrom O sep (cur +:+ String c "") s'
          end
      end
  end.

Definition Split (s sep : string) : list string := splitFrom O sep "" s.

Definition getWebtoonTitle (E : Env) (opts : Opts.t) : outcome (string * string) :=
  if negb (ParseRequestURI E (Opts.url opts)) then Err "invalid URI for request"
  else
    let outURL := ReplaceAll (Opts.url opts) "http://" "" in
    let outURL := ReplaceAll outURL "https://" "" in
    let outURL := ReplaceAll outURL "www." "" in
    let outURL := ReplaceAll outURL "webtoons.com/" "" in
    let* lang := index (Split outURL "/") 0 in
    let* title := index (Split outURL "/") 2 in
    Ok (title, lang).

(** [panic(err)] on a returned error. *)
Definition orPanic {A} (r : outcome A) : outcome A :=
  match r with
  | Err e => Panic e
  | r => r
  end.

Definition GetWebtoon (E : Env) (fuel : nat) (opts : Opts.t) (w : world)
  : option (outcome unit * world) :=
  match orPanic (getWebtoonTitle E opts) with
  | Ok (titre, lang) =>
      match getEpisodeBatches E fuel (Opts.url opts) (Opts.minEp opts) (Opts.maxEp opts)
                              (Opts.epsPerFile opts) with
      | None => None
      | Some r =>
          match orPanic r with
          | Ok episodeBatches =>
              match index episodeBatches (len episodeBatches - 1), index episodeBatches 0 with
              | Ok lastBatch, Ok firstBatch =>
                  let totalEpisodes :=
                    wrap (wrap (EpisodeBatch.maxEp lastBatch - EpisodeBatch.minEp firstBatch) + 1) in
                  match runBatches E titre lang opts episodeBatches totalEpisodes w with
                  | (Ok _, w) =>
                      let last_episode := EpisodeBatch.maxEp lastBatch in
                      Some (Ok (),
                            upsert (titre, lang)
                                   {| row_url := Opts.url opts;
                                      last_chapter := last_episode;
                                      row_epsPerFile := Opts.epsPerFile opts;
                                      row_format := Opts.format opts |} w)
                  | r => Some r
                  end
              | _, _ => Some (Panic "index out of range", w)
              end
          | Err e | Panic e => Some (Panic e, w)
          | Exit n => Some (Exit n, w)
          end
      end
  | Err e | Panic e => Some (Panic e, w)
  | Exit n => Some (Exit n, w)
  end.

(** The options of a resumed run, from the options of the command line and
    a row of the table: the body of the [rows.Next()] loop of
    [GetWebtoons]. *)
Definition resumeOpts (E : Env) (opts : Opts.t) (r : Row) : Opts.t :=
  if confOverride E then
    Opts.mk (row_url r) (Opts.minEp opts) (Opts.maxEp opts) (Opts.epsPerFile opts)
            (Opts.format opts)
  else
    Opts.mk (row_url r) (last_chapter r) (Opts.maxEp opts) (row_epsPerFile r) (row_format r).

(** [GetWebtoonBatch]: one series job, with its own [recover()]. *)
Definition GetWebtoonBatch (E : Env) (fuel : nat) (opts : Opts.t) (w : world)
  : option (outcome unit * world) :=
  recover <$> GetWebtoon E fuel opts w.

(** ** Command line and database mode *)

(** The values of the flags once [flag.Parse] has run. *)
Record Flags : Type := {
  flag_u : string;
  flag_minEp : Z;
  flag_maxEp : Z;
  flag_epsPerFile : Z;
  flag_format : string
}.

(** [parseOpts], from the length of [os.Args] and the parsed flags; the
    flags that go to package-level variables are fields of [Env]. *)
Definition parseOpts (nargs : nat) (f : Flags) : outcome Opts.t :=
  if (nargs <? 2)%nat then Exit 1
  else if flag_minEp f >? flag_maxEp f then Exit 1
  else if flag_epsPerFile f <? 1 then Exit 1
  else if flag_minEp f <? 0 then Exit 1
  else Ok (Opts.mk (flag_u f) (flag_minEp f) (flag_maxEp f) (flag_epsPerFile f)
                   (flag_format f)).

(** The [where] clause of the query of [GetWebtoons]: every row when no
    URL was given, else the rows of that URL. *)
Definition selected (opts : Opts.t) (r : Row) : bool :=
  bool_decide (String.length (Opts.url opts) = 0%nat)
  || bool_decide (row_url r = Opts.url opts).

(** The series jobs of [GetWebtoons] for an outer pool of size one
    ([-W 1]): one after the other, each behind its own [recover()]. *)
Fixpoint runWebtoons (E : Env) (fuel : nat) (webtoons : list Opts.t) (w : world)
  : option (outcome unit * world) :=
  match webtoons with
  | [] => Some (Ok (), w)
  | opts :: rest =>
      match GetWebtoonBatch E fuel opts w with
      | None => None
      | Some (Ok _, w) => runWebtoons E fuel rest w
      | Some r => Some r
      end
  end.

(** [GetWebtoons] on the rows that [db.Query] returned (taken to succeed):
    the rows are all read before the first job starts, and the function
    ends the process with [os.Exit(0)]. *)
Definition GetWebtoons (E : Env) (fuel : nat) (opts : Opts.t) (rows : list Row) (w : world)
  : option (outcome unit * world) :=
  match runWebtoons E fuel (resumeOpts E opts <$> rows) w with
  | Some (Ok _, w) => Some (Exit 0, w)
  | r => r
  end.

(** ** The earlier revision, [main.go]

    Only what differs from the later revision: the catalog is a set of URL
    strings, the episode title is cut out of the URL, the listing branch
    does not check for an empty selection, and [saveBatch] neither recovers
    nor looks for an existing file. *)

Module Legacy.

Definition range_ok (E : Env) : Prop := ∀ s, rangeLinkSet E s ≡ₚ elements s.

Fixpoint viewerAnchors (episodeURLs : list (string * option string))
  : outcome (list string * list string) :=
  match episodeURLs with
  | [] => Ok ([], [])
  | (href, span) :: rest =>
      if Contains href "/viewer" then
        match span with
        | None => Panic nilDeref
        | Some text =>
            let* more := viewerAnchors rest in
            Ok (href :: more.1, text :: more.2)
        end
      else viewerAnchors rest
  end.

Definition getEpisodeLinksForPage (E : Env) (url : string) : outcome (list string * list string) :=
  match soupGet E url with
  | None => Err "error fetching page"
  | Some resp =>
      match detailAnchors E resp with
      | None => Panic nilDeref
      | Some episodeURLs => viewerAnchors episodeURLs
      end
  end.

Fixpoint scanPage (episodeLinks : list string) (episodeLinkSet : gset string)
  : bool * gset string :=
  match episodeLinks with
  | [] => (false, episodeLinkSet)
  | episodeLink :: rest =>
      if decide (episodeLink ∈ episodeLinkSet) then (true, episodeLinkSet)
      else scanPage rest ({[ episodeLink ]} ∪ episodeLinkSet)
  end.

Fixpoint crawlPages (E : Env) (fuel : nat) (url : string) (page : Z)
    (episodeLinkSet : gset string) : option (outcome (gset string)) :=
  match fuel with
  | O => None
  | S fuel' =>
      let url := pageURL url page in
      match getEpisodeLinksForPage E url with
      | Ok (episodeLinks, _) =>
          let '(foundLastPage, episodeLinkSet) := scanPage episodeLinks episodeLinkSet in
          if foundLastPage then Some (Ok episodeLinkSet)
          else crawlPages E fuel' url (wrap (page + 1)) episodeLinkSet
      | Err _ => Some (Ok episodeLinkSet)
      | Panic e => Some (Panic e)
      | Exit c => Some (Exit c)
      end
  end.

Definition linkLe (a b : string) : Prop := episodeNo a ≤ episodeNo b.

#[export] Instance linkLe_dec : RelDecision linkLe.
Proof. intros a b. unfold linkLe. apply _. Defined.

Definition getAllEpisodeLinks (E : Env) (fuel : nat) (url : string)
  : option (outcome (list string)) :=
  match crawlPages E fuel url 1 ∅ with
  | None => None
  | Some r =>
      Some (let* episodeLinkSet := r in
            Ok (merge_sort linkLe (rangeLinkSet E episodeLinkSet)))
  end.

Definition getepisodeTitle (url : string) : outcome string :=
  let outURL := ReplaceAll url "http://" "" in
  let outURL := ReplaceAll outURL "https://" "" in
  let outURL := ReplaceAll outURL "www." "" in
  let outURL := ReplaceAll outURL "webtoons.com/" "" in
  index (Split outURL "/") 3.

Fixpoint getepisodeTitles (links : list string) : outcome (list string) :=
  match links with
  | [] => Ok []
  | l :: rest =>
      let* t := getepisodeTitle l in
      let* ts := getepisodeTitles rest in
      Ok (t :: ts)
  end.

Definition planBatches (E : Env) (fuel : nat) (allEpisodeLinks : list string)
    (minEp maxEp epsPerBatch : Z) : option (outcome (list EpisodeBatch.t)) :=
  let desiredEpisodeLinks :=
    List.filter (λ episodeLink, inRange minEp maxEp (episodeNo episodeLink)) allEpisodeLinks in
  match getepisodeTitles desiredEpisodeLinks with
  | Ok desiredEpisodeTitles =>
      match index desiredEpisodeLinks 0,
            index desiredEpisodeLinks (len desiredEpisodeLinks - 1) with
      | Ok first, Ok last =>
          let actualMaxEp := if maxEp <? episodeNo last then maxEp else episodeNo last in
          batchLoop E fuel desiredEpisodeLinks desiredEpisodeTitles actualMaxEp epsPerBatch 0 []
      | Ok _, Panic e | Panic e, _ => Some (Panic e)
      | Ok _, Err e | Err e, _ => Some (Err e)
      | Ok _, Exit c | Exit c, _ => Some (Exit c)
      end
  | Err e => Some (Err e)
  | Panic e => Some (Panic e)
  | Exit c => Some (Exit c)
  end.

Fixpoint addImages (E : Env) (imgLinks : list string) (c : comicFile) (w : world)
  : outcome comicFile * world :=
  match imgLinks with
  | [] => (Ok c, w)
  | imgLink :: rest =>
      if Contains imgLink ".gif" then addImages E rest c w
      else
        match fetchImage E imgLink w with
        | (Ok img, w) =>
            let w := log (EvAddImage img) w in
            match addImage E c img with
            | Ok c' => addImages E rest c' w
            | Err _ => (Exit 1, w)
            | Panic e => (Panic e, w)
            | Exit n => (Exit n, w)
            end
        | (Err e, w) => (Err e, w)
        | (Panic e, w) => (Panic e, w)
        | (Exit n, w) => (Exit n, w)
        end
  end.

Definition saveBatch (E : Env) (titre lang : string) (opts : Opts.t)
    (episodeBatch : EpisodeBatch.t) (totalEpisodes : Z) (w : world) : outcome unit * world :=
  let outFile := titre +:+ "/" +:+ lang +:+ "/" +:+ EpisodeBatch.title episodeBatch
                   +:+ "." +:+ Opts.format opts in
  let w := log (EvGetComicFile (Opts.format opts)) w in
  match addImages E (EpisodeBatch.imgLinks episodeBatch) (getComicFile (Opts.format opts)) w with
  | (Ok c, w) =>
      let w := log (EvSave outFile) w in
      match save E c outFile w with
      | (Ok _, w) => (Ok (), w)
      | (Err _, w) => (Exit 1, w)
      | r => r
      end
  | (Err e, w) => (Err e, w)
  | (Panic e, w) => (Panic e, w)
  | (Exit n, w) => (Exit n, w)
  end.

End Legacy.

(** ** Vocabulary of the statements *)

(** [s] has an occurrence of [episode_no=] followed by at least one digit. *)
Definition has_match (s : string) : Prop :=
  ∃ pre ds post,
    s = pre +:+ "episode_no=" +:+ ds +:+ post ∧ ds ≠ "" ∧ all_digits ds = true.

(** [cs] cuts [l] into consecutive pieces of [n] elements, the last one
    holding what is left (between 1 and [n] elements). *)
Inductive chunked {A} (n : nat) : list A → list (list A) → Prop :=
  | chunked_nil : chunked n [] []
  | chunked_last c : c ≠ [] → (length c ≤ n)%nat → chunked n c [c]
  | chunked_cons c rest cs :
      length c = n → rest ≠ [] → chunked n rest cs → chunked n (c ++ rest) (c :: cs).

(** [b] is the batch of the episodes [chunk]. *)
Definition batchFor (E : Env) (actualMaxEp : Z) (chunk : list EpisodeInfo.t)
    (b : EpisodeBatch.t) : Prop :=
  (∃ first, head chunk = Some first
            ∧ EpisodeBatch.minEp b = episodeNo (EpisodeInfo.url first))
  ∧ (∃ lst, last chunk = Some lst
            ∧ EpisodeBatch.maxEp b = episodeNo (EpisodeInfo.url lst))
  ∧ EpisodeBatch.title b = String.concat "_" (EpisodeInfo.title <$> chunk)
  ∧ getImgLinksForEpisodes E (EpisodeInfo.url <$> chunk) actualMaxEp
    = Ok (EpisodeBatch.imgLinks b).


(** Every link of the batch is a skipped gif or an image that can be
    fetched and decoded. *)
Definition goodBatch (E : Env) (b : EpisodeBatch.t) : Prop :=
  ∀ l, l ∈ EpisodeBatch.imgLinks b →
       Contains l ".gif" = true
       ∨ ∃ img, httpGet E l = Some img ∧ imageDecodable E img = true.

(** The byte [c] does not occur in [s]. *)
Fixpoint lacks (c : ascii) (s : string) : bool :=
  match s with
  | EmptyString => true
  | String x s' => negb (Ascii.eqb x c) && lacks c s'
  end.

(** What [db.Query] may return for the query of [GetWebtoons]: the selected
    rows of the table, in an order SQL does not fix. *)
Definition queryRows (opts : Opts.t) (w : world) (rows : list Row) : Prop :=
  rows ≡ₚ List.filter (selected opts) (map_to_list (db w)).*2.

(** [w] with more calls on its trace. *)
Definition logs (evs : list event) (w : world) : world :=
  {| fs := fs w; db := db w; trace := trace w ++ evs |}.

(** The links of a batch that are not skipped as gifs, and the bytes
    fetched for them. *)
Definition stillLinks (imgLinks : list string) : list string :=
  List.filter (λ l, negb (Contains l ".gif")) imgLinks.

Definition fetched (E : Env) (imgLinks : list string) : list bytes :=
  omap (httpGet E) (stillLinks imgLinks).

(** The calls made for a run of links that all load. *)
Definition loadEvents (E : Env) (imgLinks : list string) : list event :=
  mjoin ((λ l, match httpGet E l with
               | Some img => [EvFetchImage l; EvAddImage img]
               | None => [EvFetchImage l]
               end) <$> stillLinks imgLinks).

(** The entries of an archive for [imgs], numbered from [n]. *)
Fixpoint cbzEntries (n : Z) (imgs : list bytes) : list (string * bytes) :=
  match imgs with
  | [] => []
  | img :: rest => (pad10 n +:+ ".jpg", img) :: cbzEntries (n + 1) rest
  end.

(** The comic file [c] after [imgs] have been added to it. *)
Definition withImages (c : comicFile) (imgs : list bytes) : comicFile :=
  match c with
  | AsPDF c => AsPDF {| pdf := pdf c ++ imgs |}
  | AsCBZ c => AsCBZ {| zipWriter := zipWriter c ++ cbzEntries (numFiles c) imgs;
                        numFiles := numFiles c + len imgs |}
  end.

(** What [save] writes for a comic file. *)
Definition fileOf (c : comicFile) : fileData :=
  match c with
  | AsPDF c => PdfDoc (pdf c)
  | AsCBZ c => CbzArchive (zipWriter c)
  end.

(** Every link of the list is a skipped gif or an image that can be
    fetched and decoded. *)
Definition goodLinks (E : Env) (imgLinks : list string) : Prop :=
  ∀ l, l ∈ imgLinks →
       Contains l ".gif" = true
       ∨ ∃ img, httpGet E l = Some img ∧ imageDecodable E img = true.

(** The number of entries an archive holds so far (0 for a PDF). *)
Definition numOf (c : comicFile) : Z :=
  match c with
  | AsPDF _ => 0
  | AsCBZ c => numFiles c
  end.

(** What a batch of format [format] with the images [imgs] is saved as. *)
Definition batchFile (format : string) (imgs : list bytes) : fileData :=
  if decide (format = "cbz") then CbzArchive (cbzEntries 0 imgs) else PdfDoc imgs.

(** The [k]-th request of the crawl (from 0) that starts at [url] with the
    page counter at [page]: the URL asked for and the page number in it. *)
Fixpoint requestAt (url : string) (page : Z) (k : nat) : string * Z :=
  match k with
  | O => (pageURL url page, page)
  | S k' => requestAt (pageURL url page) (wrap (page + 1)) k'
  end.

(** What the site answers to the [k]-th request of a crawl of [url]. *)
Definition pageAt (E : Env) (url : string) (k : nat) : outcome (list EpisodeInfo.t) :=
  getEpisodeLinksForPage E (requestAt url 1 k).1.

(** A path free of the four fragments that [getWebtoonTitle] strips. *)
Definition plainPath (path : string) : Prop :=
  Contains path "http://" = false ∧ Contains path "https://" = false ∧
  Contains path "www." = false ∧ Contains path "webtoons.com/" = false.


(** Every link of the list is a skipped gif or an image that can be
    fetched. *)
Definition fetchableLinks (E : Env) (imgLinks : list string) : Prop :=
  ∀ l, l ∈ imgLinks → Contains l ".gif" = true ∨ is_Some (httpGet E l).




(** ** A small site to run the program on *)

Module Demo.

Fixpoint lookupS {A} (tbl : list (string * A)) (k : string) : option A :=
  match tbl with
  | [] => None
  | (k', v) :: rest => if decide (k = k') then Some v else lookupS rest k
  end.

Definition tower : string := "https://www.webtoons.com/en/fantasy/tower/list?title_no=95".
Definition solo : string := "https://www.webtoons.com/en/drama/solo/list?title_no=7".
Definition twin : string := "https://www.webtoons.com/en/comedy/twin/list?title_no=3".

Definition towerEp (n : string) : string :=
  "https://www.webtoons.com/en/fantasy/tower/ep-" +:+ n +:+ "/viewer?title_no=95&episode_no=" +:+ n.
Definition soloEp5 : string :=
  "https://www.webtoons.com/en/drama/solo/ep-5/viewer?title_no=7&episode_no=5".
Definition twinEp1 : string :=
  "https://www.webtoons.com/en/comedy/twin/ep-1/viewer?title_no=3&episode_no=1".

(** Bodies are named, not spelled out: parsing is the environment's. *)
Definition bodies : list (string * string) :=
  [ (tower +:+ "&page=1", "tower-1"); (tower +:+ "&page=2", "tower-2");
    (tower +:+ "&page=3", "tower-2");
    (solo +:+ "&page=1", "solo-1");
    (twin +:+ "&page=1", "twin-1"); (twin +:+ "&page=2", "twin-2");
    (towerEp "1", "view-1"); (towerEp "2", "view-2"); (towerEp "3", "view-3");
    (soloEp5, "view-5"); (twinEp1, "view-oz");
    ("https://apis.example/motiontoon.json", "manifest") ].

Definition anchors : list (string * list (string * option string)) :=
  [ ("tower-1", [ (towerEp "3", Some "Ep. 3"); ("/en/fantasy/tower/rss", None);
                  (towerEp "2", Some "Ep. 2") ]);
    ("tower-2", [ (towerEp "1", Some "Ep. 1") ]);
    ("solo-1", [ (soloEp5, Some "Ep. 5") ]);
    ("twin-1", [ (twinEp1, Some "Ep. 1") ]);
    ("twin-2", [ (twinEp1, Some "Episode 1") ]);
    ("blank", []) ].

Definition imgs : list (string * list (option string)) :=
  [ ("view-1", [ Some "https://img.example/1a.jpg"; None; Some "https://img.example/1b.jpg" ]);
    ("view-2", [ Some "https://img.example/2a.jpg" ]);
    ("view-3", [ Some "https://img.example/3a.jpg"; Some "https://img.example/3b.gif" ]);
    ("view-5", [ Some "https://img.example/5a.jpg" ]);
    ("view-oz", []) ].

Definition manifest : imageMap :=
  <["b2" := "p2.jpg"]> (<["a1" := "p1.jpg"]> (<["c3" := "p3.jpg"]> ∅)).

Definition jpeg : bytes := [Byte.xff; Byte.xd8; Byte.xff].
Definition junk : bytes := [Byte.x00].

(** Every image of the site can be fetched, except the one of episode 2
    when [down] is set; the image of episode 5 is not an image. *)
Definition env (down : bool) : Env := {|
  soupGet := lookupS bodies;
  detailAnchors := lookupS anchors;
  viewerImgs := lookupS imgs;
  findDocumentURL doc :=
    if decide (doc = "view-oz") then Some "https://apis.example/motiontoon.json" else None;
  findPathRule doc :=
    if decide (doc = "view-oz") then Some "https://cdn.example/m/{=filename}?type=q70" else None;
  jsonUnmarshal body := if decide (body = "manifest") then Some manifest else None;
  rangeEpisodeSet s := reverse (elements s);
  rangeImage m := reverse (map_to_list m).*1;
  rangeLinkSet s := reverse (elements s);
  httpGet imgLink :=
    if decide (imgLink = "https://img.example/2a.jpg") then
      if down then None else Some jpeg
    else if decide (imgLink = "https://img.example/5a.jpg") then Some junk
    else Some jpeg;
  imageDecodable img := bool_decide (img = jpeg);
  creatable _ := true;
  ParseRequestURI _ := true;
  FileVerify := true;
  confOverride := false
|}.

Definition opts (url : string) (minEp maxEp epsPerFile : Z) : Opts.t :=
  Opts.mk url minEp maxEp epsPerFile "pdf".

Definition w0 : world := {| fs := ∅; db := ∅; trace := [] |}.

End Demo.

(** ** Variants of an environment *)

Definition withSoupGet (get : string → option string) (E : Env) : Env := {|
  soupGet := get; detailAnchors := detailAnchors E; viewerImgs := viewerImgs E;
  findDocumentURL := findDocumentURL E; findPathRule := findPathRule E;
  jsonUnmarshal := jsonUnmarshal E; rangeEpisodeSet := rangeEpisodeSet E;
  rangeImage := rangeImage E; rangeLinkSet := rangeLinkSet E; httpGet := httpGet E;
  imageDecodable := imageDecodable E; creatable := creatable E;
  ParseRequestURI := ParseRequestURI E; FileVerify := FileVerify E;
  confOverride := confOverride E
|}.


(** The small site with the viewer page of episode 2 of [tower] down. *)
Definition brokenPageEnv : Env :=
  withSoupGet (λ u, if decide (u = Demo.towerEp "2") then None
                    else soupGet (Demo.env false) u)
              (Demo.env false).

(** * Properties *)

(** ** Byte strings *)

Lemma app_cons_s (x : ascii) (a b : string) : String x a +:+ b = String x (a +:+ b).
Proof. reflexivity. Qed.

Lemma app_nil_l_s (b : string) : "" +:+ b = b.
Proof. reflexivity. Qed.

Lemma app_assoc_s (a b c : string) : (a +:+ b) +:+ c = a +:+ (b +:+ c).
Proof.
  induction a as [|x a IH]; [done |].
  by rewrite !app_cons_s, IH.
Qed.

Lemma app_nil_r_s (a : string) : a +:+ "" = a.
Proof. induction a as [|x a IH]; [done |]. by rewrite app_cons_s, IH. Qed.

Lemma length_app_s (a b : string) :
  String.length (a +:+ b) = (String.length a + String.length b)%nat.
Proof.
  induction a as [|x a IH]; [done |].
  rewrite app_cons_s. simpl. by rewrite IH.
Qed.

Lemma takeS_app (a b : string) : takeS (String.length a) (a +:+ b) = a.
Proof.
  induction a as [|x a IH]; [done |].
  rewrite app_cons_s. simpl. by rewrite IH.
Qed.

Lemma stripPrefix_app (p s : string) : stripPrefix p (p +:+ s) = Some s.
Proof.
  induction p as [|x p IH]; [done |].
  rewrite app_cons_s. simpl. by rewrite Ascii.eqb_refl.
Qed.

Lemma stripPrefix_Some (p s r : string) : stripPrefix p s = Some r → s = p +:+ r.
Proof.
  revert s. induction p as [|x p IH]; intros s; simpl.
  - rewrite app_nil_l_s. congruence.
  - destruct s as [|y s]; [done |].
    destruct (Ascii.eqb_spec x y) as [->|]; [|done].
    intros H. by rewrite app_cons_s, (IH _ H).
Qed.

(** ** C9: the batch title *)

Lemma createTitle_loop (acc t : string) (ts : list string) :
  foldl (λ title episodeTitle, title +:+ episodeTitle +:+ "_") acc (t :: ts)
  = acc +:+ String.concat "_" (t :: ts) +:+ "_".
Proof.
  revert acc t. induction ts as [|u ts IH]; intros acc t.
  - simpl. done.
  - change (foldl _ acc (t :: u :: ts))
      with (foldl (λ title episodeTitle, title +:+ episodeTitle +:+ "_")
                  (acc +:+ t +:+ "_") (u :: ts)).
    rewrite IH. cbn [String.concat].
    by rewrite !app_assoc_s.
Qed.

Lemma createTitle_concat (episodetitles : list string) :
  episodetitles ≠ [] →
  createTitle episodetitles = Ok (String.concat "_" episodetitles).
Proof.
  destruct episodetitles as [|t ts]; [done | intros _].
  unfold createTitle. rewrite createTitle_loop, app_nil_l_s.
  set (j := String.concat "_" (t :: ts)).
  rewrite length_app_s. change (String.length "_") with 1%nat.
  destruct (Z.ltb_spec (Z.of_nat (String.length j + 1) - 1) 0) as [?|_]; [lia |].
  replace (Z.to_nat (Z.of_nat (String.length j + 1) - 1)) with (String.length j) by lia.
  by rewrite takeS_app.
Qed.

(** C9.  For every non-empty list of episode titles, [createTitle] returns
    the titles joined in their order with the separator ["_"], with no
    separator after the last one: for a list of one title that title, for
    [t :: ts] with [ts] non-empty [t], then ["_"], then the join of [ts]. *)
Theorem createTitle_joins (episodetitles : list string) :
  episodetitles ≠ [] →
  createTitle episodetitles = Ok (String.concat "_" episodetitles)
  ∧ (∀ t, episodetitles = [t] → createTitle episodetitles = Ok t)
  ∧ (∀ t u ts, episodetitles = t :: u :: ts →
               createTitle episodetitles = Ok (t +:+ "_" +:+ String.concat "_" (u :: ts))).
Proof.
  intros Hne. rewrite createTitle_concat by done.
  split; [done |]. split.
  - by intros t ->.
  - by intros t u ts ->.
Qed.

Lemma createTitle_joins_witness :
  ["A"; "B"; "C"] ≠ [] ∧ createTitle ["A"; "B"; "C"] = Ok "A_B_C".
Proof.
  split; [done |].
  exact (proj1 (createTitle_joins ["A"; "B"; "C"] ltac:(done))).
Defined.

Lemma createTitle_empty : createTitle [] = Panic "slice bounds out of range".
Proof. reflexivity. Qed.

(** ** C4: the episode-number extractor *)

Lemma takeDigits_all (s : string) : all_digits (takeDigits s) = true.
Proof.
  induction s as [|c s IH]; [done |].
  simpl. destruct (is_digit c) eqn:Hc; [|done].
  simpl. by rewrite Hc, IH.
Qed.

Lemma takeDigits_prefix (s : string) : ∃ rest, s = takeDigits s +:+ rest.
Proof.
  induction s as [|c s [rest IH]]; [by exists "" |].
  simpl. destruct (is_digit c).
  - exists rest. by rewrite app_cons_s, <- IH.
  - by exists (String c s).
Qed.

Lemma takeDigits_app (ds post : string) :
  all_digits ds = true → starts_with_digit post = false →
  takeDigits (ds +:+ post) = ds.
Proof.
  intros Hds Hpost. induction ds as [|c ds IH].
  - rewrite app_nil_l_s. destruct post as [|c post]; [done |].
    simpl in *. by rewrite Hpost.
  - simpl in Hds. apply andb_true_iff in Hds as [Hc Hds].
    rewrite app_cons_s. simpl. by rewrite Hc, IH.
Qed.

Lemma matchEpisodeNoAt_here (ds post : string) :
  ds ≠ "" → all_digits ds = true → starts_with_digit post = false →
  matchEpisodeNoAt ("episode_no=" +:+ ds +:+ post) = Some ds.
Proof.
  intros Hne Hds Hpost. unfold matchEpisodeNoAt.
  rewrite stripPrefix_app, takeDigits_app by done.
  by destruct ds.
Qed.

Lemma matchEpisodeNoAt_has_match (s ds : string) :
  matchEpisodeNoAt s = Some ds → has_match s.
Proof.
  unfold matchEpisodeNoAt.
  destruct (stripPrefix "episode_no=" s) as [r|] eqn:Hp; [|done].
  apply stripPrefix_Some in Hp as ->.
  destruct (takeDigits_prefix r) as [rest Hr].
  pose proof (takeDigits_all r) as Hall.
  destruct (takeDigits r) as [|c d] eqn:Hd; [done |]. intros _.
  exists "", (String c d), rest. rewrite app_nil_l_s, <- Hr. done.
Qed.

Lemma has_match_cons (c : ascii) (s : string) : has_match s → has_match (String c s).
Proof.
  intros (pre & ds & post & -> & Hne & Hds).
  exists (String c pre), ds, post. by rewrite app_cons_s.
Qed.

Lemma FindStringSubmatch_has_match (s ds : string) :
  FindStringSubmatch s = Some ds → has_match s.
Proof.
  induction s as [|c s IH]; simpl.
  - destruct (matchEpisodeNoAt "") eqn:Hm; [|done].
    intros _. by eapply matchEpisodeNoAt_has_match.
  - destruct (matchEpisodeNoAt (String c s)) eqn:Hm.
    + intros _. by eapply matchEpisodeNoAt_has_match.
    + intros H. by apply has_match_cons, IH.
Qed.

Lemma FindStringSubmatch_no_match (s : string) :
  ¬ has_match s → FindStringSubmatch s = None.
Proof.
  intros Hno. destruct (FindStringSubmatch s) eqn:H; [|done].
  destruct Hno. by eapply FindStringSubmatch_has_match.
Qed.
Ltac split_ascii :=
  repeat (cbn -[String.append Ascii.eqb is_digit];
  match goal with
  | |- context [Ascii.eqb ?a ?c] =>
      first [ is_var c; destruct (Ascii.eqb_spec a c) as [<-|]
            | let v := eval vm_compute in (Ascii.eqb a c) in
              change (Ascii.eqb a c) with v ]
  | |- context [is_digit ?c] =>
      first [ is_var c; fail 1
            | let v := eval vm_compute in (is_digit c) in
              change (is_digit c) with v ]
  end).

Lemma matchEpisodeNoAt_overlap (p t : string) :
  p ≠ "" →
  matchEpisodeNoAt (p +:+ "episode_no=" +:+ t) ≠ None →
  matchEpisodeNoAt p ≠ None.
Proof.
  intros Hp. unfold matchEpisodeNoAt.
  do 12 (destruct p as [|? p]; [try done; rewrite ?app_cons_s, ?app_nil_l_s; split_ascii; try done |]).
  rewrite ?app_cons_s; split_ascii; try done.
  cbn [takeDigits]. destruct (is_digit a10); done.
Qed.

Lemma FindStringSubmatch_here (s d : string) :
  matchEpisodeNoAt s = Some d → FindStringSubmatch s = Some d.
Proof. intros H. destruct s; cbn [FindStringSubmatch]; by rewrite H. Qed.

Lemma FindStringSubmatch_skip (c : ascii) (s : string) :
  matchEpisodeNoAt (String c s) = None →
  FindStringSubmatch (String c s) = FindStringSubmatch s.
Proof. intros H. cbn [FindStringSubmatch]. by rewrite H. Qed.

Lemma FindStringSubmatch_leftmost (pre ds post : string) :
  ¬ has_match pre → ds ≠ "" → all_digits ds = true → starts_with_digit post = false →
  FindStringSubmatch (pre +:+ "episode_no=" +:+ ds +:+ post) = Some ds.
Proof.
  intros Hpre Hne Hds Hpost. induction pre as [|c pre IH].
  - rewrite app_nil_l_s.
    by apply FindStringSubmatch_here, matchEpisodeNoAt_here.
  - destruct (matchEpisodeNoAt (String c pre +:+ "episode_no=" +:+ ds +:+ post)) eqn:Hm.
    + exfalso. 
      destruct (matchEpisodeNoAt (String c pre)) eqn:Hm'.
      * apply Hpre. by eapply matchEpisodeNoAt_has_match.
      * revert Hm'. apply (matchEpisodeNoAt_overlap (String c pre) (ds +:+ post)); [done|].
        by rewrite Hm.
    + rewrite app_cons_s in Hm |- *. rewrite FindStringSubmatch_skip by done.
      apply IH. intros H. by apply Hpre, has_match_cons.
Qed.

Lemma decimal_nonneg (s : string) (acc : Z) :
  0 ≤ acc → all_digits s = true → 0 ≤ decimal acc s.
Proof.
  revert acc. induction s as [|c s IH]; intros acc Hacc Hs; [done |].
  simpl in *. apply andb_true_iff in Hs as [Hc Hs].
  apply IH; [|done]. unfold is_digit, digit_val in *.
  apply andb_true_iff in Hc as [H1%N.leb_le H2]. lia.
Qed.

Lemma Atoi_digits (ds : string) :
  ds ≠ "" → all_digits ds = true →
  Atoi ds = if decide (decimal 0 ds ≤ maxInt) then Some (decimal 0 ds) else None.
Proof.
  intros Hne Hds. pose proof (decimal_nonneg ds 0 ltac:(done) Hds) as Hnn.
  unfold Atoi. destruct ds as [|c r]; [done |].
  assert (Hc : is_digit c = true) by (simpl in Hds; by apply andb_true_iff in Hds as [? _]).
  destruct (Ascii.eqb_spec c "-") as [->|_]; [done |].
  destruct (Ascii.eqb_spec c "+") as [->|_]; [done |].
  rewrite Hds. cbn [negb].
  assert ((minInt <=? decimal 0 (String c r)) = true) as -> by (apply Z.leb_le; unfold minInt, intSize; lia).
  cbn [andb]. destruct (Z.leb_spec (decimal 0 (String c r)) maxInt); case_decide; done || lia.
Qed.

Lemma has_match_found (s : string) : has_match s → FindStringSubmatch s ≠ None.
Proof.
  intros (pre & ds & post & -> & Hne & Hds). induction pre as [|c pre IH].
  - rewrite app_nil_l_s.
    assert (matchEpisodeNoAt ("episode_no=" +:+ ds +:+ post) ≠ None) as Hm.
    { unfold matchEpisodeNoAt. rewrite stripPrefix_app.
      destruct ds as [|d ds]; [done |].
      simpl in Hds. apply andb_true_iff in Hds as [Hd _].
      rewrite app_cons_s. cbn [takeDigits]. by rewrite Hd. }
    destruct (matchEpisodeNoAt ("episode_no=" +:+ ds +:+ post)) eqn:E; [|done].
    by rewrite (FindStringSubmatch_here _ _ E).
  - rewrite app_cons_s.
    destruct (matchEpisodeNoAt (String c (pre +:+ "episode_no=" +:+ ds +:+ post))) eqn:E.
    + by rewrite (FindStringSubmatch_here _ _ E).
    + by rewrite FindStringSubmatch_skip.
Qed.

(** C4, as the claim states it, fails when the digits do not fit an [int]:
    [strconv.Atoi] reports a range error and [episodeNo] returns 0. *)
Lemma episodeNo_overflow_counterexample :
  let url := "https://www.webtoons.com/en/a/b/ep/viewer?title_no=1&episode_no=9223372036854775808" in
  url = "https://www.webtoons.com/en/a/b/ep/viewer?title_no=1&" +:+ "episode_no="
          +:+ "9223372036854775808" +:+ ""
  ∧ ¬ has_match "https://www.webtoons.com/en/a/b/ep/viewer?title_no=1&"
  ∧ all_digits "9223372036854775808" = true
  ∧ decimal 0 "9223372036854775808" = 9223372036854775808
  ∧ episodeNo url = 0
  ∧ episodeNo url ≠ decimal 0 "9223372036854775808".
Proof.
  cbv zeta. repeat split; try by vm_compute.
  intros Hm%has_match_found. by vm_compute in Hm.
Qed.

(** C4 (amended).  Let [url] carry, as its leftmost occurrence of the
    pattern, [episode_no=] followed by the maximal digit run [ds] of value
    N.  Then [episodeNo url] is N when N fits a 64-bit [int] and 0 when it
    does not; for a [url] that lacks the pattern it is 0.  [episodeNo] is a
    total function: it has no error result. *)
Theorem episodeNo_spec :
  (∀ pre ds post,
     ¬ has_match pre → ds ≠ "" → all_digits ds = true → starts_with_digit post = false →
     episodeNo (pre +:+ "episode_no=" +:+ ds +:+ post)
     = if decide (decimal 0 ds ≤ maxInt) then decimal 0 ds else 0)
  ∧ (∀ url, ¬ has_match url → episodeNo url = 0).
Proof.
  split.
  - intros pre ds post Hpre Hne Hds Hpost. unfold episodeNo.
    rewrite FindStringSubmatch_leftmost, Atoi_digits by done.
    by case_decide.
  - intros url Hno. unfold episodeNo. by rewrite FindStringSubmatch_no_match.
Qed.
(** ** C3 and C8: the catalog crawler *)

Lemma scanPage_fresh (episodes : list EpisodeInfo.t) (episodeSet : gset EpisodeInfo.t) :
  NoDup episodes → (∀ x, x ∈ episodes → x ∉ episodeSet) →
  scanPage episodes episodeSet = (false, list_to_set episodes ∪ episodeSet).
Proof.
  revert episodeSet. induction episodes as [|e es IH]; intros S Hnd Hfresh; simpl.
  - f_equal. set_solver.
  - apply NoDup_cons in Hnd as [He Hnd].
    rewrite decide_False by (apply Hfresh; set_solver).
    rewrite IH; [f_equal; set_solver | done |].
    intros x Hx. specialize (Hfresh x). set_solver.
Qed.

Lemma scanPage_dup (pre post : list EpisodeInfo.t) (e : EpisodeInfo.t)
    (episodeSet : gset EpisodeInfo.t) :
  NoDup pre → (∀ x, x ∈ pre → x ∉ episodeSet) →
  e ∈ episodeSet ∨ e ∈ pre →
  scanPage (pre ++ e :: post) episodeSet = (true, list_to_set pre ∪ episodeSet).
Proof.
  revert episodeSet. induction pre as [|p pre IH]; intros S Hnd Hfresh He; simpl.
  - rewrite decide_True by set_solver. f_equal. set_solver.
  - apply NoDup_cons in Hnd as [Hp Hnd].
    rewrite decide_False by (apply Hfresh; set_solver).
    rewrite IH; [f_equal; set_solver | done | |].
    + intros x Hx. specialize (Hfresh x). set_solver.
    + set_solver.
Qed.

Lemma crawlPages_stops (E : Env) (pgs : list (list EpisodeInfo.t)) :
  ∀ (url : string) (page : Z) (seen tail : list EpisodeInfo.t) (fuel : nat),
    (∀ k pg, pgs !! k = Some pg →
             getEpisodeLinksForPage E (requestAt url page k).1 = Ok pg) →
    ((∃ msg, getEpisodeLinksForPage E (requestAt url page (List.length pgs)).1 = Err msg
             ∧ tail = []) ∨
     (∃ e post, getEpisodeLinksForPage E (requestAt url page (List.length pgs)).1
                = Ok (tail ++ e :: post)
                ∧ e ∈ seen ++ concat pgs ++ tail)) →
    NoDup (seen ++ concat pgs ++ tail) →
    (List.length pgs < fuel)%nat →
    crawlPages E fuel url page (list_to_set seen)
    = Some (Ok (list_to_set (seen ++ concat pgs ++ tail))).
Proof.
  induction pgs as [|pg pgs IH]; intros url page seen tail fuel Hok Hstop Hnd Hfuel.
  - destruct fuel as [|fuel]; [simpl in Hfuel; lia |].
    cbn [List.length requestAt fst concat app] in *. cbn [crawlPages].
    destruct Hstop as [(msg & -> & ->) | (e & post & -> & He)].
    + by rewrite app_nil_r.
    + apply NoDup_app in Hnd as (Hseen & Hdisj & Htail).
      rewrite scanPage_dup; [do 2 f_equal; set_solver | done | | set_solver].
      intros x Hx Hin. apply (Hdisj x); set_solver.
  - destruct fuel as [|fuel]; [simpl in Hfuel; lia |].
    pose proof (Hok 0%nat pg eq_refl) as H0. cbn [requestAt fst] in H0.
    cbn [crawlPages]. rewrite H0.
    simpl concat in *.
    rewrite scanPage_fresh.
    + replace (list_to_set pg ∪ list_to_set seen) with (list_to_set (C:=gset _) (seen ++ pg))
        by set_solver.
      rewrite (IH _ _ (seen ++ pg)%list tail).
      * rewrite <- ?app_assoc. reflexivity.
      * intros k pg' Hk. apply (Hok (S k) pg' Hk).
      * cbn [List.length requestAt] in Hstop. by rewrite <- ?app_assoc in Hstop |- *.
      * by rewrite <- ?app_assoc in Hnd |- *.
      * simpl in Hfuel. lia.
    + apply NoDup_app in Hnd as (_ & _ & Hnd). apply NoDup_app in Hnd as (Hnd & _).
      by apply NoDup_app in Hnd as (? & _).
    + apply NoDup_app in Hnd as (_ & Hdisj & _).
      intros x Hx Hin. apply (Hdisj x); set_solver.
Qed.

#[export] Instance episodeLe_total : Total episodeLe.
Proof. intros a b. unfold episodeLe. lia. Qed.

#[export] Instance episodeLe_trans : Transitive episodeLe.
Proof. intros a b c. unfold episodeLe. lia. Qed.

Lemma sortByEpisodeNo_spec (l : list EpisodeInfo.t) :
  sortByEpisodeNo l ≡ₚ l ∧ Sorted episodeLe (sortByEpisodeNo l).
Proof.
  split; [apply merge_sort_Permutation | apply (Sorted_merge_sort _)].
Qed.

Lemma wrap_small (z : Z) : minInt ≤ z ≤ maxInt → wrap z = z.
Proof.
  unfold wrap, minInt, maxInt, intSize. intros H.
  rewrite Z.mod_small; lia.
Qed.

(** The crawl asks for page 1, then 2, then 3, and so on. *)
Lemma requestAt_page (url : string) (k : nat) :
  Z.of_nat k < maxInt → (requestAt url 1 k).2 = Z.of_nat k + 1.
Proof.
  assert (G : ∀ k u p, 0 ≤ p → p + Z.of_nat k ≤ maxInt →
                       (requestAt u p k).2 = p + Z.of_nat k).
  { clear. induction k as [|k IH]; intros u p Hp Hk; simpl.
    - lia.
    - rewrite wrap_small by (unfold minInt, intSize; lia).
      rewrite IH; lia. }
  intros Hk. rewrite G; lia.
Qed.

Lemma requestAt_url (url : string) (page : Z) (k : nat) :
  ∃ base, (requestAt url page k).1 = base +:+ "&page=" +:+ pretty (requestAt url page k).2.
Proof.
  revert url page. induction k as [|k IH]; intros url page; simpl.
  - by eexists.
  - apply IH.
Qed.

(** C3.  Let the first [K] pages of the crawl (page numbers 1 to [K]) be
    fetched without error and hold no entry twice, and let the crawl meet
    its first stop signal on page [K+1]: that page fails to load, or after
    the fresh entries [tail] it shows an entry [e] that was collected
    before.  Then, with fuel for [K+1] requests, [getAllEpisodeLinks]
    returns, and what it returns is the entries collected before the stop,
    each once, in ascending order of [episodeNo]. *)
Theorem getAllEpisodeLinks_spec (E : Env) (url : string)
    (pgs : list (list EpisodeInfo.t)) (tail : list EpisodeInfo.t) (fuel : nat) :
  range_ok E →
  (∀ k pg, pgs !! k = Some pg → pageAt E url k = Ok pg) →
  ((∃ msg, pageAt E url (List.length pgs) = Err msg ∧ tail = []) ∨
   (∃ e post, pageAt E url (List.length pgs) = Ok (tail ++ e :: post)
              ∧ e ∈ concat pgs ++ tail)) →
  NoDup (concat pgs ++ tail) →
  (List.length pgs < fuel)%nat →
  ∃ l, getAllEpisodeLinks E fuel url = Some (Ok l)
       ∧ l ≡ₚ concat pgs ++ tail
       ∧ NoDup l
       ∧ Sorted episodeLe l.
Proof.
  intros [Hrange _] Hok Hstop Hnd Hfuel. unfold getAllEpisodeLinks.
  change (∅ : gset EpisodeInfo.t) with (list_to_set (C:=gset EpisodeInfo.t) []).
  rewrite (crawlPages_stops E pgs url 1 [] tail fuel); [| done | done | done | done].
  simpl app. eexists; split; [done |].
  destruct (sortByEpisodeNo_spec (rangeEpisodeSet E (list_to_set (concat pgs ++ tail))))
    as [Hperm Hsorted].
  assert (Hp : sortByEpisodeNo (rangeEpisodeSet E (list_to_set (concat pgs ++ tail)))
               ≡ₚ concat pgs ++ tail).
  { rewrite Hperm, Hrange. by apply elements_list_to_set. }
  split; [done |]. split; [by rewrite Hp | done].
Qed.

Lemma Demo_range_ok (down : bool) : range_ok (Demo.env down).
Proof.
  split; intros x; simpl; apply reverse_Permutation.
Qed.

Lemma getAllEpisodeLinks_spec_witness :
  ∃ l, getAllEpisodeLinks (Demo.env false) 3 Demo.tower = Some (Ok l)
       ∧ l ≡ₚ [ EpisodeInfo.mk "Ep. 3" (Demo.towerEp "3");
                EpisodeInfo.mk "Ep. 2" (Demo.towerEp "2");
                EpisodeInfo.mk "Ep. 1" (Demo.towerEp "1") ]
       ∧ NoDup l
       ∧ Sorted episodeLe l.
Proof.
  apply (getAllEpisodeLinks_spec (Demo.env false) Demo.tower
           [ [ EpisodeInfo.mk "Ep. 3" (Demo.towerEp "3");
               EpisodeInfo.mk "Ep. 2" (Demo.towerEp "2") ];
             [ EpisodeInfo.mk "Ep. 1" (Demo.towerEp "1") ] ] [] 3).
  - apply Demo_range_ok.
  - intros [|[|k]] pg; simpl; intros [= <-]; by vm_compute.
  - right. exists (EpisodeInfo.mk "Ep. 1" (Demo.towerEp "1")), [].
    split; [by vm_compute | simpl; set_solver].
  - apply (bool_decide_unpack _). by vm_compute.
  - simpl. lia.
Defined.

(** C8, as the claim states it, fails: the set is keyed by the whole
    [EpisodeInfo], so one URL listed under two captions is collected twice. *)
Lemma catalog_url_identity_counterexample :
  getAllEpisodeLinks (Demo.env false) 3 Demo.twin
  = Some (Ok [ EpisodeInfo.mk "Ep. 1" Demo.twinEp1; EpisodeInfo.mk "Episode 1" Demo.twinEp1 ])
  ∧ ¬ NoDup (EpisodeInfo.url <$>
               [ EpisodeInfo.mk "Ep. 1" Demo.twinEp1; EpisodeInfo.mk "Episode 1" Demo.twinEp1 ]).
Proof.
  split; [by vm_compute |].
  simpl. intros [Hin _]%NoDup_cons. apply Hin. set_solver.
Qed.

Lemma scanPage_between (episodes : list EpisodeInfo.t) (episodeSet : gset EpisodeInfo.t) :
  episodeSet ⊆ (scanPage episodes episodeSet).2
  ∧ (scanPage episodes episodeSet).2 ⊆ list_to_set episodes ∪ episodeSet.
Proof.
  revert episodeSet. induction episodes as [|e es IH]; intros S; simpl.
  - set_solver.
  - destruct (decide (e ∈ S)); simpl; [set_solver |].
    destruct (IH ({[e]} ∪ S)) as [H1 H2]. set_solver.
Qed.

Lemma scanPage_app_fresh (pre rest : list EpisodeInfo.t) (episodeSet : gset EpisodeInfo.t) :
  NoDup pre → (∀ x, x ∈ pre → x ∉ episodeSet) →
  scanPage (pre ++ rest) episodeSet = scanPage rest (list_to_set pre ∪ episodeSet).
Proof.
  revert episodeSet. induction pre as [|p pre IH]; intros S Hnd Hfresh; simpl.
  - f_equal. set_solver.
  - apply NoDup_cons in Hnd as [Hp Hnd].
    rewrite decide_False by (apply Hfresh; set_solver).
    rewrite IH; [f_equal; set_solver | done |].
    intros x Hx Hin. apply elem_of_union in Hin as [Hin | Hin].
    + apply elem_of_singleton in Hin as ->. done.
    + apply (Hfresh x); set_solver.
Qed.

(** The crawl only adds to the set it was started with. *)
Lemma crawlPages_mono (E : Env) (fuel : nat) :
  ∀ (url : string) (page : Z) (episodeSet out : gset EpisodeInfo.t),
    crawlPages E fuel url page episodeSet = Some (Ok out) → episodeSet ⊆ out.
Proof.
  induction fuel as [|fuel IH]; intros url page S out Hc; [done |].
  cbn [crawlPages] in Hc.
  destruct (getEpisodeLinksForPage E (pageURL url page)) as [eps|?|?|?];
    [| by injection Hc as <- | done | done].
  pose proof (scanPage_between eps S) as [Hsub _].
  destruct (scanPage eps S) as [found S']. simpl in Hsub.
  destruct found.
  - by injection Hc as <-.
  - apply IH in Hc. set_solver.
Qed.

(** An entry that was not collected before is collected when the crawl
    meets it. *)
Lemma crawlPages_collects (E : Env) (pgs : list (list EpisodeInfo.t)) :
  ∀ (url : string) (page : Z) (seen tail post : list EpisodeInfo.t) (e : EpisodeInfo.t)
    (fuel : nat) (out : gset EpisodeInfo.t),
    (∀ k pg, pgs !! k = Some pg →
             getEpisodeLinksForPage E (requestAt url page k).1 = Ok pg) →
    getEpisodeLinksForPage E (requestAt url page (List.length pgs)).1
    = Ok (tail ++ e :: post) →
    NoDup (seen ++ concat pgs ++ tail) →
    e ∉ seen ++ concat pgs ++ tail →
    crawlPages E fuel url page (list_to_set seen) = Some (Ok out) →
    e ∈ out ∧ ∀ c, c ∈ seen ++ concat pgs ++ tail → c ∈ out.
Proof.
  induction pgs as [|pg pgs IH]; intros url page seen tail post e fuel out Hok Hpage Hnd He Hc.
  - destruct fuel as [|fuel]; [done |].
    cbn [List.length requestAt fst concat app] in *. cbn [crawlPages] in Hc.
    rewrite Hpage in Hc.
    apply NoDup_app in Hnd as (Hseen & Hdisj & Htail).
    replace (tail ++ e :: post) with ((tail ++ [e]) ++ post) in Hc
      by (by rewrite <- app_assoc).
    rewrite scanPage_app_fresh in Hc.
    + pose proof (scanPage_between post (list_to_set (tail ++ [e]) ∪ list_to_set seen))
        as [Hsub _].
      destruct (scanPage post (list_to_set (tail ++ [e]) ∪ list_to_set seen))
        as [found S']. simpl in Hsub.
      assert (S' ⊆ out) as Hout.
      { destruct found; [by injection Hc as <- | by apply crawlPages_mono in Hc]. }
      split; [set_solver |]. intros c Hin. apply Hout, Hsub. set_solver.
    + apply NoDup_app. split; [done |]. split; [| apply NoDup_singleton].
      intros x Hx ->%list_elem_of_singleton. apply He. set_solver.
    + intros x Hx Hin. apply elem_of_list_to_set in Hin.
      apply elem_of_app in Hx as [Hx | ->%list_elem_of_singleton].
      * by apply (Hdisj x).
      * apply He. set_solver.
  - destruct fuel as [|fuel]; [done |].
    pose proof (Hok 0%nat pg eq_refl) as H0. cbn [requestAt fst] in H0.
    cbn [crawlPages] in Hc. rewrite H0 in Hc.
    simpl concat in *.
    rewrite scanPage_fresh in Hc.
    + replace (list_to_set pg ∪ list_to_set seen)
        with (list_to_set (C:=gset _) (seen ++ pg)) in Hc by set_solver.
      apply (IH _ _ (seen ++ pg)%list tail post e) in Hc.
      * destruct Hc as [Hin Hall]. split; [done |].
        intros c Hcin. apply Hall. set_solver.
      * intros k pg' Hk. apply (Hok (S k) pg' Hk).
      * done.
      * by rewrite <- ?app_assoc in Hnd |- *.
      * by rewrite <- ?app_assoc in He |- *.
    + apply NoDup_app in Hnd as (_ & _ & Hnd). apply NoDup_app in Hnd as (Hnd & _).
      by apply NoDup_app in Hnd as (? & _).
    + apply NoDup_app in Hnd as (_ & Hdisj & _).
      intros x Hx Hin. apply (Hdisj x); set_solver.
Qed.

Lemma getAllEpisodeLinks_elements (E : Env) (fuel : nat) (url : string)
    (l : list EpisodeInfo.t) :
  range_ok E →
  getAllEpisodeLinks E fuel url = Some (Ok l) →
  ∃ out, crawlPages E fuel url 1 ∅ = Some (Ok out) ∧ l ≡ₚ elements out.
Proof.
  intros [Hrange _] Hl. unfold getAllEpisodeLinks in Hl.
  destruct (crawlPages E fuel url 1 ∅) as [[out|?|?|?]|]; try done.
  injection Hl as <-. exists out. split; [done |].
  destruct (sortByEpisodeNo_spec (rangeEpisodeSet E out)) as [Hperm _].
  by rewrite Hperm, Hrange.
Qed.

(** C8 (amended).  Identity for the pagination-termination test is the
    whole entry, title and URL.  Take a crawl at the moment it meets the
    entry [e]: the pages before were collected in full, and so was [tail],
    the part of the current page before [e].  If an entry with the title
    and the URL of [e] was collected, [e] counts as already collected: the
    crawl stops there, and the catalog is what was collected before [e].
    If no such entry was collected (an entry with the same URL and another
    title may have been), [e] is collected too: every catalog the crawl
    returns holds it.  And the finalized catalog holds each (title, URL)
    entry at most once. *)
Theorem catalog_entry_identity (E : Env) (url : string)
    (pgs : list (list EpisodeInfo.t)) (tail post : list EpisodeInfo.t) (e : EpisodeInfo.t) :
  range_ok E →
  (∀ k pg, pgs !! k = Some pg → pageAt E url k = Ok pg) →
  pageAt E url (List.length pgs) = Ok (tail ++ e :: post) →
  NoDup (concat pgs ++ tail) →
  let collected := concat pgs ++ tail in
  let known := ∃ c, c ∈ collected
                    ∧ EpisodeInfo.title c = EpisodeInfo.title e
                    ∧ EpisodeInfo.url c = EpisodeInfo.url e in
  (known →
   ∀ fuel, (List.length pgs < fuel)%nat →
           ∃ l, getAllEpisodeLinks E fuel url = Some (Ok l) ∧ l ≡ₚ collected)
  ∧ (¬ known →
     ∀ fuel l, getAllEpisodeLinks E fuel url = Some (Ok l) →
               e ∈ l ∧ ∀ c, c ∈ collected → c ∈ l)
  ∧ (∀ fuel l, getAllEpisodeLinks E fuel url = Some (Ok l) →
               ∀ i j a b, l !! i = Some a → l !! j = Some b →
                          EpisodeInfo.title a = EpisodeInfo.title b →
                          EpisodeInfo.url a = EpisodeInfo.url b → i = j).
Proof.
  intros Hrange Hok Hpage Hnd collected known.
  assert (Hsame : known ↔ e ∈ collected).
  { split.
    - intros (c & Hc & Ht & Hu).
      assert (c = e) as <- by (destruct c, e; simpl in *; congruence). done.
    - intros He. by exists e. }
  split; [| split].
  - intros He%Hsame fuel Hfuel.
    destruct (getAllEpisodeLinks_spec E url pgs tail fuel Hrange Hok) as (l & Hl & Hp & _);
      [right; by exists e, post | done | done |].
    by exists l.
  - intros He fuel l Hl. rewrite Hsame in He.
    destruct (getAllEpisodeLinks_elements E fuel url l Hrange Hl) as (out & Hc & Hp).
    change (∅ : gset EpisodeInfo.t) with (list_to_set (C:=gset EpisodeInfo.t) []) in Hc.
    destruct (crawlPages_collects E pgs url 1 [] tail post e fuel out Hok Hpage Hnd He Hc)
      as [Hin Hall].
    split; [rewrite Hp; by apply elem_of_elements |].
    intros c Hcin. rewrite Hp. apply elem_of_elements. by apply Hall.
  - intros fuel l Hl i j a b Hi Hj Ht Hu.
    destruct (getAllEpisodeLinks_elements E fuel url l Hrange Hl) as (out & _ & Hp).
    assert (NoDup l) as Hndl by (rewrite Hp; apply NoDup_elements).
    assert (a = b) as <- by (destruct a, b; simpl in *; congruence).
    by eapply NoDup_lookup.
Qed.

Lemma catalog_entry_identity_witness :
  let e := EpisodeInfo.mk "Episode 1" Demo.twinEp1 in
  let collected := [EpisodeInfo.mk "Ep. 1" Demo.twinEp1] in
  let known := ∃ c, c ∈ collected
                    ∧ EpisodeInfo.title c = EpisodeInfo.title e
                    ∧ EpisodeInfo.url c = EpisodeInfo.url e in
  (known →
   ∀ fuel, (1 < fuel)%nat →
           ∃ l, getAllEpisodeLinks (Demo.env false) fuel Demo.twin = Some (Ok l)
                ∧ l ≡ₚ collected)
  ∧ (¬ known →
     ∀ fuel l, getAllEpisodeLinks (Demo.env false) fuel Demo.twin = Some (Ok l) →
               e ∈ l ∧ ∀ c, c ∈ collected → c ∈ l)
  ∧ (∀ fuel l, getAllEpisodeLinks (Demo.env false) fuel Demo.twin = Some (Ok l) →
               ∀ i j a b, l !! i = Some a → l !! j = Some b →
                          EpisodeInfo.title a = EpisodeInfo.title b →
                          EpisodeInfo.url a = EpisodeInfo.url b → i = j).
Proof.
  apply (catalog_entry_identity (Demo.env false) Demo.twin
           [[EpisodeInfo.mk "Ep. 1" Demo.twinEp1]] [] []
           (EpisodeInfo.mk "Episode 1" Demo.twinEp1)).
  - apply Demo_range_ok.
  - intros [|k] pg; simpl; intros [= <-]; by vm_compute.
  - by vm_compute.
  - apply (bool_decide_unpack _). by vm_compute.
Defined.

(** ** C2 and C5: the batch planner *)

Lemma chunked_concat {A} (n : nat) (l : list A) (cs : list (list A)) :
  chunked n l cs → concat cs = l.
Proof.
  induction 1 as [|c Hne Hlen|c rest cs Hlen Hne Hch IH]; simpl.
  - done.
  - by rewrite app_nil_r.
  - by rewrite IH.
Qed.

Lemma chunked_nonempty {A} (n : nat) (l : list A) (cs : list (list A)) :
  chunked n l cs → l ≠ [] → cs ≠ [].
Proof. by destruct 1. Qed.

Lemma chunked_sizes {A} (n : nat) (l : list A) (cs : list (list A)) :
  chunked n l cs → (0 < n)%nat →
  ∀ i c, cs !! i = Some c →
    length c = if decide (S i < length cs)%nat then n
               else (length l - n * (length cs - 1))%nat.
Proof.
  induction 1 as [|c Hne Hlen|c rest cs Hlen Hne Hch IH]; intros Hn i c' Hi.
  - done.
  - destruct i as [|i]; [|done]. simpl in Hi. injection Hi as <-.
    simpl. lia.
  - pose proof (chunked_nonempty _ _ _ Hch Hne) as Hcs.
    destruct cs as [|c0 cs]; [done |].
    destruct i as [|i]; simpl in Hi.
    + injection Hi as <-. rewrite decide_True by (simpl; lia). done.
    + rewrite (IH Hn i c' Hi). rewrite length_app. simpl length.
      repeat case_decide; try lia. nia.
Qed.

Lemma chunked_full {A} (n : nat) (l : list A) (cs : list (list A)) :
  chunked n l cs → (n * (length cs - 1) ≤ length l)%nat.
Proof.
  induction 1 as [|c Hne Hlen|c rest cs Hlen Hne Hch IH]; simpl; [lia | lia |].
  rewrite length_app, Hlen.
  pose proof (chunked_nonempty _ _ _ Hch Hne) as Hcs.
  destruct cs; [done |]. simpl in *. nia.
Qed.

Lemma chunked_count {A} (n : nat) (l : list A) (cs : list (list A)) :
  chunked n l cs → (0 < n)%nat →
  Z.of_nat (length cs) = (Z.of_nat (length l) + Z.of_nat n - 1) / Z.of_nat n.
Proof.
  induction 1 as [|c Hne Hlen|c rest cs Hlen Hne Hch IH]; intros Hn.
  - simpl. symmetry. apply Z.div_small. lia.
  - simpl. destruct c as [|x c]; [done |]. simpl in *.
    apply Z.div_unique with (r := Z.of_nat (length c)); lia.
  - simpl length. rewrite length_app, Nat2Z.inj_succ, (IH Hn), Hlen.
    replace (Z.of_nat (n + length rest) + Z.of_nat n - 1)
      with ((Z.of_nat (length rest) + Z.of_nat n - 1) + 1 * Z.of_nat n) by lia.
    rewrite Z.div_add by lia. lia.
Qed.

Lemma getImgLinksForEpisodes_ok (E : Env) (links : list string) (amx : Z) :
  (∀ l, l ∈ links → ∃ imgs, getImgLinksForEpisode E l = Ok imgs) →
  ∃ imgs, getImgLinksForEpisodes E links amx = Ok imgs.
Proof.
  induction links as [|l links IH]; intros H; simpl; [by eexists |].
  destruct (H l) as [i Hi]; [set_solver |]. rewrite Hi. simpl.
  destruct IH as [m Hm]; [intros; apply H; set_solver |].
  rewrite Hm. simpl. by eexists.
Qed.

Lemma index_lookup {A} (l : list A) (i : nat) (x : A) :
  l !! i = Some x → index l (Z.of_nat i) = Ok x.
Proof.
  intros Hx. pose proof (lookup_lt_Some _ _ _ Hx) as Hlt.
  unfold index, len.
  destruct (Z.leb_spec 0 (Z.of_nat i)); [|lia].
  destruct (Z.ltb_spec (Z.of_nat i) (Z.of_nat (length l))); [|lia].
  simpl. by rewrite Nat2Z.id, Hx.
Qed.

Lemma slice_take_drop {A} (l : list A) (s n : nat) :
  (s + n ≤ length l)%nat →
  slice l (Z.of_nat s) (Z.of_nat (s + n)) = Ok (take n (drop s l)).
Proof.
  intros H. unfold slice, len.
  destruct (Z.leb_spec 0 (Z.of_nat s)); [|lia].
  destruct (Z.leb_spec (Z.of_nat s) (Z.of_nat (s + n))); [|lia].
  destruct (Z.leb_spec (Z.of_nat (s + n)) (Z.of_nat (length l))); [|lia].
  simpl. do 3 f_equal; lia.
Qed.

Lemma makeBatch_chunk (E : Env) (desired : list EpisodeInfo.t) (amx : Z) (s n : nat) :
  (∀ ep, ep ∈ desired → ∃ imgs, getImgLinksForEpisode E (EpisodeInfo.url ep) = Ok imgs) →
  (1 ≤ n)%nat → (s + n ≤ length desired)%nat →
  ∃ b, makeBatch E (EpisodeInfo.url <$> desired) (EpisodeInfo.title <$> desired) amx
                 (Z.of_nat s) (Z.of_nat (s + n)) = Ok b
       ∧ batchFor E amx (take n (drop s desired)) b.
Proof.
  intros Hres Hn Hlen. set (chunk := take n (drop s desired)).
  assert (Hclen : length chunk = n) by (unfold chunk; rewrite length_take, length_drop; lia).
  destruct (getImgLinksForEpisodes_ok E (EpisodeInfo.url <$> chunk) amx) as [imgs Himgs].
  { intros l (ep & -> & Hep)%list_elem_of_fmap. apply Hres.
    unfold chunk in Hep. by apply subseteq_take, subseteq_drop in Hep. }
  destruct (lookup_lt_is_Some_2 desired s) as [first Hfirst]; [lia |].
  destruct (lookup_lt_is_Some_2 desired (s + n - 1)) as [lst Hlst]; [lia |].
  unfold makeBatch.
  rewrite !slice_take_drop by (rewrite length_fmap; lia).
  rewrite <- !fmap_drop, <- !fmap_take. fold chunk. simpl. rewrite Himgs. simpl.
  rewrite createTitle_concat by (intros Hnil%fmap_nil_inv; rewrite Hnil in Hclen; simpl in Hclen; lia).
  simpl.
  rewrite (index_lookup _ s (EpisodeInfo.url first)) by (by rewrite list_lookup_fmap, Hfirst).
  simpl.
  replace (Z.of_nat (s + n) - 1) with (Z.of_nat (s + n - 1)) by lia.
  rewrite (index_lookup _ (s + n - 1) (EpisodeInfo.url lst))
    by (by rewrite list_lookup_fmap, Hlst).
  simpl. eexists; split; [done |].
  repeat split; simpl; try done.
  - exists first. split; [|done].
    unfold chunk. rewrite head_lookup, lookup_take_lt, lookup_drop by lia.
    by rewrite Nat.add_0_r.
  - exists lst. split; [|done].
    rewrite last_lookup, Hclen. unfold chunk.
    rewrite lookup_take_lt, lookup_drop by lia.
    rewrite <- Hlst. f_equal. lia.
Qed.

Lemma batchLoop_exit (E : Env) (fuel : nat) (links titles : list string)
    (amx e start : Z) (acc : list EpisodeBatch.t) :
  len links ≤ start → batchLoop E fuel links titles amx e start acc = Some (Ok acc).
Proof.
  intros H. destruct fuel; simpl;
    by destruct (Z.ltb_spec start (len links)); [lia |].
Qed.

Lemma batchLoop_chunked (E : Env) (desired : list EpisodeInfo.t) (amx e : Z) :
  1 ≤ e ≤ maxInt → 2 * len desired ≤ maxInt →
  (∀ ep, ep ∈ desired → ∃ imgs, getImgLinksForEpisode E (EpisodeInfo.url ep) = Ok imgs) →
  ∀ (fuel s : nat) (acc : list EpisodeBatch.t),
    (s = 0 ∨ Z.to_nat e ≤ s)%nat →
    (length desired - s ≤ fuel)%nat →
    ∃ bs cs,
      batchLoop E fuel (EpisodeInfo.url <$> desired) (EpisodeInfo.title <$> desired)
                amx e (Z.of_nat s) acc = Some (Ok (acc ++ bs))
      ∧ chunked (Z.to_nat e) (drop s desired) cs
      ∧ Forall2 (batchFor E amx) cs bs.
Proof.
  intros He HL Hres. unfold len in HL.
  assert (Hlinks : len (EpisodeInfo.url <$> desired) = Z.of_nat (length desired))
    by (unfold len; by rewrite length_fmap).
  induction fuel as [|fuel IH]; intros s acc Hs Hfuel.
  - exists [], []. rewrite batchLoop_exit by lia.
    rewrite drop_ge by lia. rewrite app_nil_r. repeat split; constructor.
  - destruct (decide (length desired ≤ s)%nat) as [Hge|Hlt].
    { exists [], []. rewrite batchLoop_exit by lia.
      rewrite drop_ge by lia. rewrite app_nil_r. repeat split; constructor. }
    assert (Hwrap : wrap (Z.of_nat s + e) = Z.of_nat s + e).
    { apply wrap_small. unfold minInt, intSize. lia. }
    cbn [batchLoop]. rewrite Hlinks, Hwrap.
    destruct (Z.ltb_spec (Z.of_nat s) (Z.of_nat (length desired))) as [_|?]; [|lia].
    cbn [negb].
    destruct (decide (Z.of_nat (length desired) ≤ Z.of_nat s + e)) as [Hlast|Hmore].
    + (* the last chunk: what is left *)
      set (n := (length desired - s)%nat).
      assert (Hend : (if Z.of_nat s + e >? Z.of_nat (length desired)
                      then Z.of_nat (length desired) else Z.of_nat s + e)
                     = Z.of_nat (s + n)).
      { destruct (Z.gtb_spec (Z.of_nat s + e) (Z.of_nat (length desired))); lia. }
      rewrite Hend.
      destruct (makeBatch_chunk E desired amx s n Hres) as (b & -> & Hb); [lia | lia |].
      rewrite batchLoop_exit by lia.
      exists [b], [drop s desired]. split; [done |].
      rewrite take_ge in Hb by (rewrite length_drop; lia).
      split; [|constructor; [done | constructor]].
      apply chunked_last.
      * intros Hnil. apply (f_equal length) in Hnil. rewrite length_drop in Hnil.
        simpl in Hnil. lia.
      * rewrite length_drop. lia.
    + (* a full chunk, and more to come *)
      set (n := Z.to_nat e).
      assert (Hend : (if Z.of_nat s + e >? Z.of_nat (length desired)
                      then Z.of_nat (length desired) else Z.of_nat s + e)
                     = Z.of_nat (s + n)).
      { destruct (Z.gtb_spec (Z.of_nat s + e) (Z.of_nat (length desired))); lia. }
      rewrite Hend.
      destruct (makeBatch_chunk E desired amx s n Hres) as (b & -> & Hb); [lia | lia |].
      replace (Z.of_nat s + e) with (Z.of_nat (s + n)) by lia.
      destruct (IH (s + n)%nat (acc ++ [b])) as (bs & cs & -> & Hcs & Hbs); [lia | lia |].
      exists (b :: bs), (take n (drop s desired) :: cs).
      split; [by rewrite <- app_assoc |].
      split; [|by constructor].
      rewrite <- (take_drop n (drop s desired)) at 1.
      rewrite drop_drop.
      apply chunked_cons; [rewrite length_take, length_drop; lia | | done].
      intros Hnil. apply (f_equal length) in Hnil. rewrite length_drop in Hnil.
      simpl in Hnil. lia.
Qed.

(** The listing branch, from the catalog on. *)
Lemma planBatches_chunks (E : Env) (allEpisodeLinks : list EpisodeInfo.t)
    (minEp maxEp epsPerBatch : Z) (fuel : nat) :
  let desired := desiredEpisodes allEpisodeLinks minEp maxEp in
  desired ≠ [] →
  1 ≤ epsPerBatch ≤ maxInt →
  2 * len desired ≤ maxInt →
  (∀ ep, ep ∈ desired → ∃ imgs, getImgLinksForEpisode E (EpisodeInfo.url ep) = Ok imgs) →
  (length desired ≤ fuel)%nat →
  ∃ (batches : list EpisodeBatch.t) (chunks : list (list EpisodeInfo.t)) (actualMaxEp : Z),
    planBatches E fuel allEpisodeLinks minEp maxEp epsPerBatch = Some (Ok batches)
    ∧ len batches = (len desired + epsPerBatch - 1) / epsPerBatch
    ∧ concat chunks = desired
    ∧ Forall2 (batchFor E actualMaxEp) chunks batches
    ∧ ∀ i c, chunks !! i = Some c →
        len c = if decide (S i < length chunks)%nat then epsPerBatch
                else len desired - epsPerBatch * (len chunks - 1).
Proof.
  intros desired Hne He HL Hres Hfuel.
  unfold planBatches. fold desired.
  assert (Hlen : (0 < length desired)%nat) by (destruct desired; [done | simpl; lia]).
  rewrite decide_False by (rewrite length_fmap; lia).
  destruct (lookup_lt_is_Some_2 desired 0) as [first Hfirst]; [lia |].
  destruct (lookup_lt_is_Some_2 desired (length desired - 1)) as [lst Hlst]; [lia |].
  rewrite (index_lookup _ 0 (EpisodeInfo.url first)) by (by rewrite list_lookup_fmap, Hfirst).
  replace (len (EpisodeInfo.url <$> desired) - 1) with (Z.of_nat (length desired - 1))
    by (unfold len; rewrite length_fmap; lia).
  rewrite (index_lookup _ _ (EpisodeInfo.url lst)) by (by rewrite list_lookup_fmap, Hlst).
  set (amx := if maxEp <? _ then _ else _).
  destruct (batchLoop_chunked E desired amx epsPerBatch He HL Hres fuel 0 [])
    as (bs & cs & Hloop & Hcs & Hbs); [by left | lia |].
  change (Z.of_nat 0) with 0 in Hloop. rewrite Hloop. rewrite drop_0 in Hcs.
  exists bs, cs, amx. split; [done |].
  pose proof (Forall2_length _ _ _ Hbs) as Hn.
  assert (Hpos : (0 < Z.to_nat epsPerBatch)%nat) by lia.
  pose proof (chunked_count _ _ _ Hcs Hpos) as Hcount.
  rewrite Z2Nat.id in Hcount by lia.
  split; [unfold len; rewrite <- Hn; done |].
  split; [by eapply chunked_concat |].
  split; [done |].
  intros i c Hc. unfold len. rewrite (chunked_sizes _ _ _ Hcs Hpos i c Hc).
  case_decide; [lia |].
  pose proof (chunked_full _ _ _ Hcs) as Hfull.
  pose proof (lookup_lt_Some _ _ _ Hc) as Hi.
  unfold len. destruct (length cs) as [|k]; [lia |].
  replace (S k - 1)%nat with k in * by lia.
  rewrite Nat2Z.inj_sub, Nat2Z.inj_mul, Z2Nat.id by lia. lia.
Qed.


(** C2.  On a listing URL, let the filtered episode list be non-empty, of
    length [L], and [1 <= epsPerBatch]; let the image links of every
    filtered episode resolve.  Then [getEpisodeBatches] returns
    [ceil(L / epsPerBatch)] batches, one per chunk of a cut of the filtered
    list into consecutive chunks that keeps its order and covers it
    ([concat chunks] is the list): every chunk but the last has
    [epsPerBatch] episodes, the last has what is left, and the [minEp] and
    [maxEp] of a batch are the episode numbers of the first and last
    episode of its chunk. *)
Theorem getEpisodeBatches_partition (E : Env) (fuel : nat) (url : string)
    (allEpisodeLinks : list EpisodeInfo.t) (minEp maxEp epsPerBatch : Z) :
  Contains url "/viewer" = false →
  getAllEpisodeLinks E fuel url = Some (Ok allEpisodeLinks) →
  let desired := desiredEpisodes allEpisodeLinks minEp maxEp in
  desired ≠ [] →
  1 ≤ epsPerBatch ≤ maxInt →
  2 * len desired ≤ maxInt →
  (∀ ep, ep ∈ desired → ∃ imgs, getImgLinksForEpisode E (EpisodeInfo.url ep) = Ok imgs) →
  (length desired ≤ fuel)%nat →
  ∃ (batches : list EpisodeBatch.t) (chunks : list (list EpisodeInfo.t)) (actualMaxEp : Z),
    getEpisodeBatches E fuel url minEp maxEp epsPerBatch = Some (Ok batches)
    ∧ len batches = (len desired + epsPerBatch - 1) / epsPerBatch
    ∧ concat chunks = desired
    ∧ Forall2 (batchFor E actualMaxEp) chunks batches
    ∧ ∀ i c, chunks !! i = Some c →
        len c = if decide (S i < length chunks)%nat then epsPerBatch
                else len desired - epsPerBatch * (len chunks - 1).
Proof.
  intros Hlisting Hcatalog desired Hne He HL Hres Hfuel.
  unfold getEpisodeBatches. rewrite Hlisting, Hcatalog.
  by apply planBatches_chunks.
Qed.

Lemma getEpisodeBatches_partition_witness :
  ∃ (batches : list EpisodeBatch.t) (chunks : list (list EpisodeInfo.t)) (actualMaxEp : Z),
    getEpisodeBatches (Demo.env false) 3 Demo.tower 1 3 2 = Some (Ok batches)
    ∧ len batches = 2
    ∧ concat chunks = [ EpisodeInfo.mk "Ep. 1" (Demo.towerEp "1");
                        EpisodeInfo.mk "Ep. 2" (Demo.towerEp "2");
                        EpisodeInfo.mk "Ep. 3" (Demo.towerEp "3") ]
    ∧ Forall2 (batchFor (Demo.env false) actualMaxEp) chunks batches
    ∧ ∀ i c, chunks !! i = Some c →
        len c = if decide (S i < length chunks)%nat then 2
                else 3 - 2 * (len chunks - 1).
Proof.
  apply (getEpisodeBatches_partition (Demo.env false) 3 Demo.tower
           [ EpisodeInfo.mk "Ep. 1" (Demo.towerEp "1");
             EpisodeInfo.mk "Ep. 2" (Demo.towerEp "2");
             EpisodeInfo.mk "Ep. 3" (Demo.towerEp "3") ] 1 3 2).
  - by vm_compute.
  - by vm_compute.
  - by vm_compute.
  - by vm_compute.
  - by vm_compute.
  - intros ep Hep. vm_compute in Hep.
    repeat (apply elem_of_cons in Hep as [-> | Hep]);
      [eexists; vm_compute; reflexivity .. | by apply elem_of_nil in Hep].
  - vm_compute. lia.
Defined.

(** C5.  When no episode of the crawled catalog has its number in
    [[minEp, maxEp]], the planner returns the error ["No episode found"] and
    no batch; [GetWebtoon] panics with that error before any batch is
    dispatched: nothing is fetched, written or recorded. *)
Theorem empty_range_fails (E : Env) (fuel : nat) (opts : Opts.t) (w : world)
    (allEpisodeLinks : list EpisodeInfo.t) (titre lang : string) :
  Contains (Opts.url opts) "/viewer" = false →
  getAllEpisodeLinks E fuel (Opts.url opts) = Some (Ok allEpisodeLinks) →
  (∀ ep, ep ∈ allEpisodeLinks →
         inRange (Opts.minEp opts) (Opts.maxEp opts) (episodeNo (EpisodeInfo.url ep)) = false) →
  getWebtoonTitle E opts = Ok (titre, lang) →
  getEpisodeBatches E fuel (Opts.url opts) (Opts.minEp opts) (Opts.maxEp opts)
                    (Opts.epsPerFile opts) = Some (Err "No episode found")
  ∧ GetWebtoon E fuel opts w = Some (Panic "No episode found", w).
Proof.
  intros Hlist Hall Hnone Htitle.
  assert (Hplan : getEpisodeBatches E fuel (Opts.url opts) (Opts.minEp opts) (Opts.maxEp opts)
                    (Opts.epsPerFile opts) = Some (Err "No episode found")).
  { unfold getEpisodeBatches. rewrite Hlist, Hall. unfold planBatches.
    assert (desiredEpisodes allEpisodeLinks (Opts.minEp opts) (Opts.maxEp opts) = []) as ->.
    { unfold desiredEpisodes. clear Hall.
      induction allEpisodeLinks as [|ep l IH]; [done |].
      simpl. rewrite (Hnone ep) by set_solver. apply IH.
      intros ep' Hep'. apply Hnone. set_solver. }
    done. }
  split; [done |].
  unfold GetWebtoon. rewrite Htitle. simpl. by rewrite Hplan.
Qed.

Lemma empty_range_fails_witness :
  getEpisodeBatches (Demo.env false) 3 Demo.tower 4 9 1 = Some (Err "No episode found")
  ∧ GetWebtoon (Demo.env false) 3 (Demo.opts Demo.tower 4 9 1) Demo.w0
    = Some (Panic "No episode found", Demo.w0).
Proof.
  apply (empty_range_fails (Demo.env false) 3 (Demo.opts Demo.tower 4 9 1) Demo.w0
           [ EpisodeInfo.mk "Ep. 1" (Demo.towerEp "1");
             EpisodeInfo.mk "Ep. 2" (Demo.towerEp "2");
             EpisodeInfo.mk "Ep. 3" (Demo.towerEp "3") ] "tower" "en").
  - by vm_compute.
  - by vm_compute.
  - intros ep Hep.
    repeat (apply elem_of_cons in Hep as [-> | Hep]);
      [by vm_compute .. | by apply elem_of_nil in Hep].
  - by vm_compute.
Defined.

(** X24.  The earlier revision has no check for an empty selection: indexing
    the empty slice is a run-time panic. *)
Lemma Legacy_empty_range_panics (E : Env) (fuel : nat) (allEpisodeLinks : list string)
    (minEp maxEp epsPerBatch : Z) :
  (∀ l, l ∈ allEpisodeLinks → inRange minEp maxEp (episodeNo l) = false) →
  Legacy.planBatches E fuel allEpisodeLinks minEp maxEp epsPerBatch
  = Some (Panic "index out of range").
Proof.
  intros Hnone. unfold Legacy.planBatches.
  assert (List.filter (λ episodeLink, inRange minEp maxEp (episodeNo episodeLink))
                      allEpisodeLinks = []) as ->; [|done].
  induction allEpisodeLinks as [|l ls IH]; [done |].
  simpl. rewrite (Hnone l) by set_solver. apply IH.
  intros l' Hl'. apply Hnone. set_solver.
Qed.

(** ** C7: the manifest fallback of the image-link resolver *)

Lemma StronglySorted_lookup_lt {A} (R : relation A) (l : list A) (i j : nat) (a b : A) :
  StronglySorted R l → (i < j)%nat → l !! i = Some a → l !! j = Some b → R a b.
Proof.
  intros Hs. revert i j. induction Hs as [|x l Hs IH Hall]; intros i j Hij Hi Hj; [done |].
  destruct j as [|j]; [lia |]. simpl in Hj.
  destruct i as [|i]; simpl in Hi.
  - injection Hi as <-. rewrite Forall_forall in Hall. apply Hall.
    by eapply list_elem_of_lookup_2.
  - apply (IH i j); [lia | done | done].
Qed.

Lemma sortStrings_canonical (l1 l2 : list string) :
  l1 ≡ₚ l2 → sortStrings l1 = sortStrings l2.
Proof.
  intros Hp. unfold sortStrings.
  apply (Sorted_unique String.le); try apply (Sorted_merge_sort _).
  by rewrite !merge_sort_Permutation.
Qed.

(** C7.  In the manifest path, whatever the order in which the map is
    ranged over, the resolver returns one URL per manifest key: the [i]-th
    URL is the path rule with [{=filename}] replaced by the filename mapped
    to the [i]-th key of the keys in strictly ascending lexicographic
    order. *)
Theorem getOzPageImgLinks_sorted_keys (E : Env) (doc documentURL resp pathRule : string)
    (image : imageMap) :
  range_ok E →
  findDocumentURL E doc = Some documentURL →
  soupGet E documentURL = Some resp →
  jsonUnmarshal E resp = Some image →
  findPathRule E doc = Some pathRule →
  let keys := sortStrings (map_to_list image).*1 in
  ∃ links,
    getOzPageImgLinks E doc = Ok links
    ∧ length links = size image
    ∧ keys ≡ₚ (map_to_list image).*1
    ∧ (∀ i j a b, (i < j)%nat → keys !! i = Some a → keys !! j = Some b →
                  String.le a b ∧ a ≠ b)
    ∧ (∀ i k, keys !! i = Some k →
              ∃ filename, image !! k = Some filename
                          ∧ links !! i = Some (ReplaceAll pathRule "{=filename}" filename)).
Proof.
  intros [_ Hrange] Hdoc Hget Hjson Hrule keys.
  assert (Hperm : keys ≡ₚ (map_to_list image).*1) by apply merge_sort_Permutation.
  unfold getOzPageImgLinks. rewrite Hdoc, Hget, Hjson, Hrule.
  rewrite (sortStrings_canonical _ _ (Hrange image)). fold keys.
  eexists. split; [done |].
  split; [by rewrite length_fmap, Hperm, length_fmap, length_map_to_list |].
  split; [done |].
  split.
  - intros i j a b Hij Hi Hj.
    assert (Hss : StronglySorted String.le keys)
      by apply (StronglySorted_merge_sort _).
    split; [by eapply (StronglySorted_lookup_lt _ keys i j) |].
    intros ->.
    assert (Hnd : NoDup keys) by (rewrite Hperm; apply NoDup_fst_map_to_list).
    pose proof (NoDup_lookup _ _ _ _ Hnd Hi Hj). lia.
  - intros i k Hi.
    assert (Hk : k ∈ (map_to_list image).*1)
      by (rewrite <- Hperm; by eapply list_elem_of_lookup_2).
    apply list_elem_of_fmap in Hk as ([k' filename] & -> & Hin).
    apply elem_of_map_to_list in Hin. simpl in *.
    exists filename. split; [done |].
    rewrite list_lookup_fmap, Hi. simpl. unfold imageAt. by rewrite Hin.
Qed.

Lemma getOzPageImgLinks_sorted_keys_witness :
  ∃ links,
    getOzPageImgLinks (Demo.env false) "view-oz" = Ok links
    ∧ length links = size Demo.manifest
    ∧ sortStrings (map_to_list Demo.manifest).*1 ≡ₚ (map_to_list Demo.manifest).*1
    ∧ (∀ i j a b, (i < j)%nat →
                  sortStrings (map_to_list Demo.manifest).*1 !! i = Some a →
                  sortStrings (map_to_list Demo.manifest).*1 !! j = Some b →
                  String.le a b ∧ a ≠ b)
    ∧ (∀ i k, sortStrings (map_to_list Demo.manifest).*1 !! i = Some k →
              ∃ filename,
                Demo.manifest !! k = Some filename
                ∧ links !! i
                  = Some (ReplaceAll "https://cdn.example/m/{=filename}?type=q70"
                                     "{=filename}" filename)).
Proof.
  apply (getOzPageImgLinks_sorted_keys (Demo.env false) "view-oz"
           "https://apis.example/motiontoon.json" "manifest"
           "https://cdn.example/m/{=filename}?type=q70" Demo.manifest).
  - apply Demo_range_ok.
  - by vm_compute.
  - by vm_compute.
  - by vm_compute.
  - by vm_compute.
Defined.

Example getOzPageImgLinks_demo :
  getOzPageImgLinks (Demo.env false) "view-oz"
  = Ok [ "https://cdn.example/m/p1.jpg?type=q70";
         "https://cdn.example/m/p2.jpg?type=q70";
         "https://cdn.example/m/p3.jpg?type=q70" ].
Proof. by vm_compute. Qed.

(** ** C6, C1 and C10: the fetch/assemble executor *)

(** C6.  With the skip-existing flag set, a batch whose output file exists
    returns at once and leaves the world as it was: no image is fetched, no
    comic file is created, added to or saved (the trace does not grow), and
    the file system, so the existing file, is unchanged. *)
Theorem saveBatch_skips_existing (E : Env) (title lang : string) (opts : Opts.t)
    (episodeBatch : EpisodeBatch.t) (totalEpisodes : Z) (w : world) (d : fileData) :
  FileVerify E = true →
  fs w !! outFileOf title lang opts episodeBatch = Some d →
  ∃ w', saveBatch E title lang opts episodeBatch totalEpisodes w = (Ok (), w')
        ∧ trace w' = trace w
        ∧ fs w' = fs w
        ∧ fs w' !! outFileOf title lang opts episodeBatch = Some d.
Proof.
  intros Hflag Hfile. exists w.
  split; [|done].
  unfold saveBatch. rewrite Hflag, Hfile. cbn [negb orb].
  by rewrite bool_decide_eq_false_2.
Qed.

Lemma saveBatch_skips_existing_witness :
  let w := writeFile "webtoon/tower/en/Ep. 1.pdf" (PdfDoc [Demo.jpeg]) Demo.w0 in
  let b := EpisodeBatch.mk ["https://img.example/1a.jpg"] "Ep. 1" 1 1 in
  ∃ w', saveBatch (Demo.env false) "tower" "en" (Demo.opts Demo.tower 1 1 1) b 1 w = (Ok (), w')
        ∧ trace w' = trace w
        ∧ fs w' = fs w
        ∧ fs w' !! "webtoon/tower/en/Ep. 1.pdf" = Some (PdfDoc [Demo.jpeg]).
Proof.
  intros w b.
  apply (saveBatch_skips_existing (Demo.env false) "tower" "en"
           (Demo.opts Demo.tower 1 1 1) b 1 w (PdfDoc [Demo.jpeg])).
  - reflexivity.
  - by vm_compute.
Defined.

(** Without the flag the same batch is fetched and the file rewritten. *)
Example saveBatch_without_flag_rebuilds :
  let E := Demo.env false in
  let w := writeFile "webtoon/tower/en/Ep. 1.pdf" (PdfDoc []) Demo.w0 in
  let b := EpisodeBatch.mk ["https://img.example/1a.jpg"] "Ep. 1" 1 1 in
  let E' := {| soupGet := soupGet E; detailAnchors := detailAnchors E;
               viewerImgs := viewerImgs E; findDocumentURL := findDocumentURL E;
               findPathRule := findPathRule E; jsonUnmarshal := jsonUnmarshal E;
               rangeEpisodeSet := rangeEpisodeSet E; rangeImage := rangeImage E;
               rangeLinkSet := rangeLinkSet E; httpGet := httpGet E;
               imageDecodable := imageDecodable E; creatable := creatable E;
               ParseRequestURI := ParseRequestURI E;
               FileVerify := false; confOverride := confOverride E |} in
  trace (saveBatch E' "tower" "en" (Demo.opts Demo.tower 1 1 1) b 1 w).2
  = [ EvGetComicFile "pdf"; EvFetchImage "https://img.example/1a.jpg";
      EvAddImage Demo.jpeg; EvSave "webtoon/tower/en/Ep. 1.pdf" ].
Proof. by vm_compute. Qed.





Lemma save_result (E : Env) (c : comicFile) (outFile : string) (w : world) :
  (creatable E outFile = true ∧
   ∃ d, save E c outFile w = (Ok (), writeFile outFile d w))
  ∨ (creatable E outFile = false ∧ ∃ e, save E c outFile w = (Err e, w)).
Proof.
  destruct c as [c|c]; simpl; destruct (creatable E outFile); eauto.
Qed.








(** C1 fails on the code.  Three batches of one episode each, run one at a
    time; the image of the second cannot be fetched.  [fetchImage] calls
    [os.Exit(1)], which no [recover] stops: the process ends, the third
    batch never runs and leaves no file, and no progress is recorded. *)
Theorem fetch_failure_ends_sibling_batches :
  ∃ w', GetWebtoon (Demo.env true) 3 (Demo.opts Demo.tower 1 3 1) Demo.w0 = Some (Exit 1, w')
        ∧ is_Some (fs w' !! "webtoon/tower/en/Ep. 1.pdf")
        ∧ fs w' !! "webtoon/tower/en/Ep. 2.pdf" = None
        ∧ fs w' !! "webtoon/tower/en/Ep. 3.pdf" = None
        ∧ ¬ (EvFetchImage "https://img.example/3a.jpg" ∈ trace w')
        ∧ db w' = ∅.
Proof.
  eexists. split; [by vm_compute |].
  split; [apply (bool_decide_unpack _); by vm_compute |].
  split; [by vm_compute |].
  split; [by vm_compute |].
  split; [|by vm_compute].
  intros Hin. vm_compute in Hin.
  repeat (apply elem_of_cons in Hin as [Hin | Hin]; [discriminate |]).
  by apply elem_of_nil in Hin.
Qed.

(** With the image host up, the same run leaves the three files. *)
Example all_batches_saved :
  ∃ w', GetWebtoon (Demo.env false) 3 (Demo.opts Demo.tower 1 3 1) Demo.w0 = Some (Ok (), w')
        ∧ is_Some (fs w' !! "webtoon/tower/en/Ep. 1.pdf")
        ∧ is_Some (fs w' !! "webtoon/tower/en/Ep. 2.pdf")
        ∧ is_Some (fs w' !! "webtoon/tower/en/Ep. 3.pdf").
Proof.
  eexists. split; [by vm_compute |].
  repeat split; apply (bool_decide_unpack _); by vm_compute.
Qed.

(** In the earlier revision a comic-file error ends the process as well. *)
Example Legacy_builder_failure_exits :
  (Legacy.saveBatch (Demo.env false) "solo" "en" (Demo.opts Demo.solo 5 5 1)
     (EpisodeBatch.mk ["https://img.example/5a.jpg"] "Ep. 5" 5 5) 1 Demo.w0).1 = Exit 1.
Proof. by vm_compute. Qed.

(** What a batch and the dispatch loop can do to the world. *)

Lemma world_eq (w1 w2 : world) :
  fs w1 = fs w2 → db w1 = db w2 → trace w1 = trace w2 → w1 = w2.
Proof. destruct w1, w2; simpl; by intros -> -> ->. Qed.

Lemma logs_nil (w : world) : logs [] w = w.
Proof. apply world_eq; simpl; [done | done | by rewrite app_nil_r]. Qed.

Lemma logs_logs (a b : list event) (w : world) : logs b (logs a w) = logs (a ++ b) w.
Proof. apply world_eq; simpl; [done | done | by rewrite app_assoc]. Qed.

Lemma log_logs (e : event) (w : world) : log e w = logs [e] w.
Proof. done. Qed.

Lemma addImages_any (E : Env) (imgLinks : list string) :
  ∀ (c : comicFile) (w : world),
    ∃ evs r, addImages E imgLinks c w = (r, logs evs w)
             ∧ ((∃ c', r = Ok c') ∨ (∃ e, r = Panic e) ∨ r = Exit 1).
Proof.
  induction imgLinks as [|l links IH]; intros c w; cbn [addImages].
  - exists [], (Ok c). rewrite logs_nil. split; [done | left; by eexists].
  - destruct (Contains l ".gif"); [apply IH |].
    unfold fetchImage. destruct (httpGet E l) as [img|].
    + destruct (addImage E c img) as [c'|e|e|n] eqn:Hadd.
      * destruct (IH c' (log (EvAddImage img) (log (EvFetchImage l) w)))
          as (evs & r & -> & Hr).
        exists ([EvFetchImage l; EvAddImage img] ++ evs), r.
        rewrite !log_logs, !logs_logs. done.
      * exists [EvFetchImage l; EvAddImage img], (Panic e).
        rewrite !log_logs, !logs_logs. split; [done | right; left; by eexists].
      * exists [EvFetchImage l; EvAddImage img], (Panic e).
        rewrite !log_logs, !logs_logs. split; [done | right; left; by eexists].
      * exfalso. destruct c as [c|c]; simpl in Hadd.
        -- destruct (imageDecodable E img); discriminate.
        -- discriminate.
    + exists [EvFetchImage l], (Exit 1). rewrite log_logs. split; [done | by right; right].
Qed.

Lemma saveBatch_effect (E : Env) (title lang : string) (opts : Opts.t)
    (b : EpisodeBatch.t) (total : Z) (w : world) :
  ∃ r w',
    saveBatch E title lang opts b total w = (r, w')
    ∧ (r = Ok () ∨ r = Exit 1)
    ∧ db w' = db w
    ∧ (∀ p, p ≠ outFileOf title lang opts b → fs w' !! p = fs w !! p)
    ∧ trace w `prefix_of` trace w'.
Proof.
  unfold saveBatch.
  destruct (negb (FileVerify E) || bool_decide (fs w !! outFileOf title lang opts b = None)).
  2:{ exists (Ok ()), w. split; [done |]. split; [by left |]. by repeat split. }
  destruct (addImages_any E (EpisodeBatch.imgLinks b) (getComicFile (Opts.format opts))
              (log (EvGetComicFile (Opts.format opts)) w)) as (evs & r & -> & Hr).
  rewrite log_logs, logs_logs.
  destruct Hr as [[c' ->] | [[e ->] | ->]]; lazy beta iota zeta.
  - match goal with
    | |- context [save E c' ?p ?w0] =>
        destruct (save_result E c' p w0) as [[_ [d ->]] | [_ [e ->]]]
    end; cbn [recover].
    + eexists _, _. split; [done |]. split; [by left |]. split; [done |].
      split; [intros p Hp; simpl; by rewrite lookup_insert_ne |].
      simpl; rewrite <- ?app_assoc; by eexists.
    + eexists _, _. split; [done |]. split; [by left |]. split; [done |].
      split; [done |]. simpl; rewrite <- ?app_assoc; by eexists.
  - cbn [recover]. eexists _, _. split; [done |]. split; [by left |]. split; [done |].
    split; [done |]. simpl; rewrite <- ?app_assoc; by eexists.
  - cbn [recover]. eexists _, _. split; [done |]. split; [by right |]. split; [done |].
    split; [done |]. simpl; rewrite <- ?app_assoc; by eexists.
Qed.

Lemma runBatches_frame (E : Env) (title lang : string) (opts : Opts.t) (total : Z)
    (batches : list EpisodeBatch.t) :
  ∀ w, ∃ r w',
    runBatches E title lang opts batches total w = (r, w')
    ∧ (r = Ok () ∨ r = Exit 1)
    ∧ db w' = db w
    ∧ (∀ p, (∀ b, b ∈ batches → p ≠ outFileOf title lang opts b) →
            fs w' !! p = fs w !! p).
Proof.
  induction batches as [|b batches IH]; intros w; cbn [runBatches].
  - exists (Ok ()), w. repeat split; [by left | done..].
  - destruct (saveBatch_effect E title lang opts b total w)
      as (r & w1 & -> & [-> | ->] & Hdb & Hfs & _).
    + destruct (IH w1) as (r' & w' & -> & Hr' & Hdb' & Hfs').
      exists r', w'. split; [done |]. split; [done |]. split; [congruence |].
      intros p Hp. rewrite Hfs' by (intros b' Hb'; apply Hp; set_solver).
      apply Hfs. apply Hp. set_solver.
    + exists (Exit 1), w1. split; [done |]. split; [by right |]. split; [done |].
      intros p Hp. apply Hfs. apply Hp. set_solver.
Qed.

(** C10, as the claim states it, fails at the episode numbered
    [last_chapter].  The only batch of the run holds episode 5 and fails
    (its image does not decode; the panic is recovered, no file is
    written); the record gets [last_chapter = 5]; the resumed run starts at
    [minEp = 5], so episode 5 is in its range. *)
Lemma failed_last_episode_counterexample :
  ∃ w' row,
    GetWebtoon (Demo.env false) 3 (Demo.opts Demo.solo 0 maxInt 1) Demo.w0 = Some (Ok (), w')
    ∧ fs w' = ∅
    ∧ db w' !! ("solo", "en") = Some row
    ∧ last_chapter row = 5
    ∧ inRange (Opts.minEp (resumeOpts (Demo.env false) (Demo.opts "" 0 maxInt 1) row))
              (Opts.maxEp (resumeOpts (Demo.env false) (Demo.opts "" 0 maxInt 1) row))
              5 = true.
Proof.
  eexists. eexists. split; [by vm_compute |].
  split; [by vm_compute |].
  split; [by vm_compute |].
  split; by vm_compute.
Qed.

(** C10 (amended).  When the batches have been planned and no image
    fetch ends the process, [GetWebtoon] returns normally whatever batches
    have failed and been recovered, and the progress record of the series
    then holds the [maxEp] of the last batch as [last_chapter]; no other
    record is touched.  The range of a run resumed from that record starts
    at [last_chapter], inclusive: an episode numbered below it is out of the
    range, whether or not its batch had failed, and the episode numbered
    [last_chapter] is in the range again. *)
Theorem progress_recorded_despite_failures (E : Env) (fuel : nat) (opts : Opts.t) (w : world)
    (titre lang : string) (episodeBatches : list EpisodeBatch.t) (lastBatch : EpisodeBatch.t) :
  getWebtoonTitle E opts = Ok (titre, lang) →
  getEpisodeBatches E fuel (Opts.url opts) (Opts.minEp opts) (Opts.maxEp opts)
                    (Opts.epsPerFile opts) = Some (Ok episodeBatches) →
  last episodeBatches = Some lastBatch →
  (∀ c w1, GetWebtoon E fuel opts w ≠ Some (Exit c, w1)) →
  confOverride E = false →
  ∃ w' row,
    GetWebtoon E fuel opts w = Some (Ok (), w')
    ∧ db w' = <[(titre, lang) := row]> (db w)
    ∧ db w' !! (titre, lang) = Some row
    ∧ last_chapter row = EpisodeBatch.maxEp lastBatch
    ∧ ∀ (cli : Opts.t) (n : Z),
        inRange (Opts.minEp (resumeOpts E cli row)) (Opts.maxEp (resumeOpts E cli row)) n = true
        ↔ EpisodeBatch.maxEp lastBatch ≤ n ≤ Opts.maxEp cli.
Proof.
  intros Htitle Hplan Hlast Hrun Hconf.
  unfold GetWebtoon in *. rewrite Htitle, Hplan in *. cbn [orPanic] in *.
  assert (Hn : (0 < length episodeBatches)%nat).
  { destruct episodeBatches; [done | simpl; lia]. }
  rewrite last_lookup in Hlast.
  replace (len episodeBatches - 1) with (Z.of_nat (pred (length episodeBatches))) in *
    by (unfold len; lia).
  rewrite (index_lookup _ _ _ Hlast) in *.
  destruct (lookup_lt_is_Some_2 episodeBatches 0 Hn) as [firstBatch Hfirst].
  pose proof (index_lookup _ 0 _ Hfirst) as Hidx0.
  change (Z.of_nat 0) with 0 in Hidx0. rewrite Hidx0 in *.
  cbv zeta in *.
  set (total := wrap _) in *.
  destruct (runBatches_frame E titre lang opts total episodeBatches w)
    as (r & w1 & Hr & [-> | ->] & Hdb & _); rewrite Hr in *.
  - eexists. eexists. split; [done |].
    split; [simpl; by rewrite Hdb |].
    split; [simpl; by rewrite lookup_insert_eq |].
    split; [done |].
    intros cli n. unfold resumeOpts. rewrite Hconf. simpl. unfold inRange.
    rewrite andb_true_iff, !Z.leb_le. done.
  - by destruct (Hrun 1 w1).
Qed.

(** The image of episode 2 cannot be fetched, but its file exists and the
    batch is skipped: the run returns and records chapter 3. *)
Lemma progress_recorded_despite_failures_witness :
  let w := writeFile "webtoon/tower/en/Ep. 2.pdf" (PdfDoc []) Demo.w0 in
  ∃ w' row,
    GetWebtoon (Demo.env true) 3 (Demo.opts Demo.tower 1 3 1) w = Some (Ok (), w')
    ∧ db w' = <[("tower", "en") := row]> (db w)
    ∧ db w' !! ("tower", "en") = Some row
    ∧ last_chapter row = 3
    ∧ ∀ (cli : Opts.t) (n : Z),
        inRange (Opts.minEp (resumeOpts (Demo.env true) cli row))
                (Opts.maxEp (resumeOpts (Demo.env true) cli row)) n = true
        ↔ 3 ≤ n ≤ Opts.maxEp cli.
Proof.
  intros w.
  apply (progress_recorded_despite_failures (Demo.env true) 3
           (Demo.opts Demo.tower 1 3 1) w "tower" "en"
           [ EpisodeBatch.mk ["https://img.example/1a.jpg"; "https://img.example/1b.jpg"]
                             "Ep. 1" 1 1;
             EpisodeBatch.mk ["https://img.example/2a.jpg"] "Ep. 2" 2 2;
             EpisodeBatch.mk ["https://img.example/3a.jpg"; "https://img.example/3b.gif"]
                             "Ep. 3" 3 3 ]
           (EpisodeBatch.mk ["https://img.example/3a.jpg"; "https://img.example/3b.gif"]
                            "Ep. 3" 3 3)).
  - by vm_compute.
  - by vm_compute.
  - done.
  - intros c w1. by vm_compute.
  - done.
Defined.

(** ** More on the helpers and on the earlier revision *)

Lemma replaceFrom_lacks (old new s : string) (c0 : ascii) (old' : string) :
  old = String c0 old' → lacks c0 s = true → replaceFrom O old new s = s.
Proof.
  intros -> Hs. induction s as [|c s IH]; [done |].
  simpl in Hs. apply andb_true_iff in Hs as [Hc Hs].
  cbn [replaceFrom stripPrefix].
  rewrite Ascii.eqb_sym. apply negb_true_iff in Hc. rewrite Hc.
  by rewrite (IH Hs).
Qed.

Lemma replaceFrom_skip (old new a s : string) :
  replaceFrom (String.length a) old new (a +:+ s) = replaceFrom O old new s.
Proof.
  induction a as [|c a IH]; [done |].
  rewrite app_cons_s. simpl. apply IH.
Qed.

(** X23.  A path rule with one placeholder: [ReplaceAll] puts the filename
    in its place. *)
Lemma ReplaceAll_template (pre post filename : string) :
  lacks "{" pre = true → lacks "{" post = true →
  ReplaceAll (pre +:+ "{=filename}" +:+ post) "{=filename}" filename
  = pre +:+ filename +:+ post.
Proof.
  intros Hpre Hpost. unfold ReplaceAll. induction pre as [|c pre IH].
  - rewrite !app_nil_l_s.
    change ("{=filename}" +:+ post) with (String "{" ("=filename}" +:+ post)).
    cbn [replaceFrom]. 
    change (String "{" ("=filename}" +:+ post)) with ("{=filename}" +:+ post).
    rewrite stripPrefix_app.
    change (String.length "{=filename}" - 1)%nat with (String.length "=filename}").
    rewrite replaceFrom_skip.
    by rewrite (replaceFrom_lacks _ _ post "{" "=filename}").
  - simpl in Hpre. apply andb_true_iff in Hpre as [Hc Hpre].
    rewrite (app_cons_s c pre ("{=filename}" +:+ post)),
            (app_cons_s c pre (filename +:+ post)).
    cbn [replaceFrom stripPrefix].
    rewrite Ascii.eqb_sym. apply negb_true_iff in Hc. rewrite Hc.
    by rewrite (IH Hpre).
Qed.

(** X25.  In the earlier revision the set holds URL strings, so there the
    finalized catalog holds each URL at most once. *)
Lemma Legacy_catalog_urls_unique (E : Env) (fuel : nat) (url : string) (l : list string) :
  Legacy.range_ok E → Legacy.getAllEpisodeLinks E fuel url = Some (Ok l) → NoDup l.
Proof.
  intros Hrange Hl. unfold Legacy.getAllEpisodeLinks in Hl.
  destruct (Legacy.crawlPages E fuel url 1 ∅) as [[s|?|?|?]|]; try done.
  injection Hl as <-.
  unfold Legacy.range_ok in Hrange.
  rewrite merge_sort_Permutation, Hrange. apply NoDup_elements.
Qed.

Example Legacy_catalog_twin :
  Legacy.getAllEpisodeLinks (Demo.env false) 3 Demo.twin = Some (Ok [Demo.twinEp1]).
Proof. by vm_compute. Qed.

(** ** Runs on the small site *)

Lemma episodeNo_spec_witness :
  episodeNo ("https://www.webtoons.com/en/a/b/ep-12/viewer?title_no=95&" +:+ "episode_no="
               +:+ "12" +:+ "&x=1") = 12
  ∧ episodeNo "https://www.webtoons.com/en/a/b/list?title_no=95" = 0.
Proof.
  destruct episodeNo_spec as [Hnum Hnone]. split.
  - rewrite Hnum; [done | | done | done | done].
    intros Hm%has_match_found. by vm_compute in Hm.
  - apply Hnone. intros Hm%has_match_found. by vm_compute in Hm.
Defined.

Example episodeNo_leading_zeros : episodeNo "viewer?episode_no=007&page=2" = 7.
Proof. reflexivity. Qed.

Example episodeNo_first_occurrence :
  episodeNo "viewer?episode_no=3&next=episode_no=4" = 3.
Proof. reflexivity. Qed.

Example getEpisodeBatches_end_to_end :
  getEpisodeBatches (Demo.env false) 3 Demo.tower 1 3 2
  = Some (Ok [ EpisodeBatch.mk
                 [ "https://img.example/1a.jpg"; "https://img.example/1b.jpg";
                   "https://img.example/2a.jpg" ] "Ep. 1_Ep. 2" 1 2;
               EpisodeBatch.mk
                 [ "https://img.example/3a.jpg"; "https://img.example/3b.gif" ] "Ep. 3" 3 3 ]).
Proof. by vm_compute. Qed.

Example pageURL_rewrites :
  pageURL (Demo.tower +:+ "&page=1") 2 = Demo.tower +:+ "&page=2".
Proof. by vm_compute. Qed.

Example getAllEpisodeLinks_stops_on_error :
  pageAt (Demo.env false) Demo.solo 1 = Err "error fetching page"
  ∧ getAllEpisodeLinks (Demo.env false) 2 Demo.solo
    = Some (Ok [EpisodeInfo.mk "Ep. 5" Demo.soloEp5]).
Proof. split; by vm_compute. Qed.

(** * Further properties of the code *)

(** ** Episode numbers and the range filter *)

Lemma takeDigits_nonempty_digits (r : string) (c : ascii) (d : string) :
  takeDigits r = String c d → all_digits (String c d) = true.
Proof. intros <-. apply takeDigits_all. Qed.

Lemma FindStringSubmatch_digits (s ds : string) :
  FindStringSubmatch s = Some ds → ds ≠ "" ∧ all_digits ds = true.
Proof.
  assert (Hat : ∀ s, matchEpisodeNoAt s = Some ds → ds ≠ "" ∧ all_digits ds = true).
  { intros s0. unfold matchEpisodeNoAt.
    destruct (stripPrefix "episode_no=" s0) as [r|]; [|done].
    destruct (takeDigits r) as [|c d] eqn:Hd; [done |].
    intros [= <-]. split; [done | by eapply takeDigits_nonempty_digits]. }
  induction s as [|c s IH]; cbn [FindStringSubmatch].
  - destruct (matchEpisodeNoAt "") eqn:Hm; [|done]. intros [= ->]. by eapply Hat.
  - destruct (matchEpisodeNoAt (String c s)) eqn:Hm.
    + intros [= ->]. by eapply Hat.
    + apply IH.
Qed.

Lemma episodeNo_range (episodeLink : string) :
  0 ≤ episodeNo episodeLink ≤ maxInt.
Proof.
  unfold episodeNo.
  destruct (FindStringSubmatch episodeLink) as [ds|] eqn:Hm; [|by vm_compute].
  apply FindStringSubmatch_digits in Hm as [Hne Hds].
  rewrite Atoi_digits by done.
  pose proof (decimal_nonneg ds 0 ltac:(done) Hds).
  case_decide; [lia | by vm_compute].
Qed.

(** X1.  Whatever the link, [episodeNo] yields a number from 0 to [MaxInt]:
    never a negative one, also where the link has no number or one too
    large. *)
Theorem episodeNo_bounds (episodeLink : string) :
  0 ≤ episodeNo episodeLink ≤ maxInt.
Proof. apply episodeNo_range. Qed.

(** X2.  With the default flags ([-min-ep 0], [-max-ep MaxInt]) the range
    filter keeps the whole catalog, in its order. *)
Theorem desiredEpisodes_default (allEpisodeLinks : list EpisodeInfo.t) :
  desiredEpisodes allEpisodeLinks 0 maxInt = allEpisodeLinks.
Proof.
  unfold desiredEpisodes. induction allEpisodeLinks as [|ep l IH]; [done |].
  cbn [List.filter]. pose proof (episodeNo_range (EpisodeInfo.url ep)) as [H0 H1].
  assert (inRange 0 maxInt (episodeNo (EpisodeInfo.url ep)) = true) as ->.
  { unfold inRange. apply andb_true_iff. split; by apply Z.leb_le. }
  by rewrite IH.
Qed.

(** ** The order of the batches *)

Lemma StronglySorted_List_filter {A} (R : relation A) (f : A → bool) (l : list A) :
  StronglySorted R l → StronglySorted R (List.filter f l).
Proof.
  induction 1 as [|x l Hs IH Hall]; simpl; [constructor |].
  destruct (f x); [|done]. constructor; [done |].
  rewrite Forall_forall in Hall |- *. intros y Hy.
  apply Hall. apply list_elem_of_In in Hy. apply filter_In in Hy as [Hy _].
  by apply list_elem_of_In.
Qed.

Lemma List_filter_elem {A} (f : A → bool) (l : list A) (x : A) :
  x ∈ List.filter f l → f x = true ∧ x ∈ l.
Proof.
  intros Hx. apply list_elem_of_In, filter_In in Hx as [Hin Hf].
  split; [done | by apply list_elem_of_In].
Qed.

Lemma StronglySorted_concat_elem {A} (R : relation A) (cs : list (list A)) (c : list A) :
  StronglySorted R (concat cs) → c ∈ cs → StronglySorted R c.
Proof.
  induction cs as [|c0 cs IH]; intros Hs Hc; [by apply elem_of_nil in Hc |].
  simpl in Hs. apply StronglySorted_app in Hs as (_ & H0 & Hrest).
  apply elem_of_cons in Hc as [-> | Hc]; [done | by apply IH].
Qed.

Lemma StronglySorted_concat_cross {A} (R : relation A) (cs : list (list A))
    (i j : nat) (ci cj : list A) (x y : A) :
  StronglySorted R (concat cs) → (i < j)%nat →
  cs !! i = Some ci → cs !! j = Some cj → x ∈ ci → y ∈ cj → R x y.
Proof.
  revert i j. induction cs as [|c0 cs IH]; intros i j Hs Hij Hi Hj Hx Hy; [done |].
  simpl in Hs. apply StronglySorted_app in Hs as (Hcross & _ & Hrest).
  destruct j as [|j]; [lia |]. simpl in Hj.
  destruct i as [|i]; simpl in Hi.
  - injection Hi as ->. apply Hcross; [done |].
    apply list_elem_of_In, in_concat. exists cj.
    split; apply list_elem_of_In; [by eapply list_elem_of_lookup_2 | done].
  - apply (IH i j); [done | lia | done..].
Qed.

Lemma head_last_sorted (c : list EpisodeInfo.t) (first lst : EpisodeInfo.t) :
  StronglySorted episodeLe c → head c = Some first → last c = Some lst →
  episodeLe first lst.
Proof.
  intros Hs Hh Hl. rewrite head_lookup in Hh. rewrite last_lookup in Hl.
  destruct (decide (pred (length c) = 0%nat)) as [Hz|Hnz].
  - rewrite Hz in Hl. assert (first = lst) as -> by congruence.
    unfold episodeLe. lia.
  - eapply (StronglySorted_lookup_lt _ c 0 (pred (length c))); [done | lia | done..].
Qed.

(** X3.  On a listing URL the batches come out in ascending order: every
    batch has [minEp <= maxEp], both inside the requested range, and a batch
    ends no later than the next one starts. *)
Theorem getEpisodeBatches_ordered (E : Env) (fuel : nat) (url : string)
    (allEpisodeLinks : list EpisodeInfo.t) (minEp maxEp epsPerBatch : Z) :
  Contains url "/viewer" = false →
  getAllEpisodeLinks E fuel url = Some (Ok allEpisodeLinks) →
  let desired := desiredEpisodes allEpisodeLinks minEp maxEp in
  desired ≠ [] →
  1 ≤ epsPerBatch ≤ maxInt →
  2 * len desired ≤ maxInt →
  (∀ ep, ep ∈ desired → ∃ imgs, getImgLinksForEpisode E (EpisodeInfo.url ep) = Ok imgs) →
  (length desired ≤ fuel)%nat →
  ∃ batches,
    getEpisodeBatches E fuel url minEp maxEp epsPerBatch = Some (Ok batches)
    ∧ (∀ b, b ∈ batches →
            minEp ≤ EpisodeBatch.minEp b
            ∧ EpisodeBatch.minEp b ≤ EpisodeBatch.maxEp b
            ∧ EpisodeBatch.maxEp b ≤ maxEp)
    ∧ (∀ i j bi bj, (i < j)%nat → batches !! i = Some bi → batches !! j = Some bj →
                    EpisodeBatch.maxEp bi ≤ EpisodeBatch.minEp bj).
Proof.
  intros Hlisting Hcatalog desired Hne He HL Hres Hfuel.
  destruct (planBatches_chunks E allEpisodeLinks minEp maxEp epsPerBatch fuel
              Hne He HL Hres Hfuel) as (batches & chunks & amx & Hplan & _ & Hcat & Hfor & _).
  exists batches. split.
  { unfold getEpisodeBatches. by rewrite Hlisting, Hcatalog. }
  assert (Hsorted : StronglySorted episodeLe (concat chunks)).
  { rewrite Hcat. unfold desired, desiredEpisodes. apply StronglySorted_List_filter.
    unfold getAllEpisodeLinks in Hcatalog.
    destruct (crawlPages E fuel url 1 ∅) as [[out|?|?|?]|]; try done.
    injection Hcatalog as <-.
    apply (StronglySorted_merge_sort _). }
  assert (Hrange : ∀ c x, c ∈ chunks → x ∈ c →
            minEp ≤ episodeNo (EpisodeInfo.url x) ≤ maxEp).
  { intros c x Hc Hx.
    assert (x ∈ concat chunks) as Hd.
    { apply list_elem_of_In, in_concat. exists c.
      split; by apply list_elem_of_In. }
    rewrite Hcat in Hd. unfold desired, desiredEpisodes in Hd.
    apply List_filter_elem in Hd as [Hin _]. unfold inRange in Hin.
    apply andb_true_iff in Hin as [?%Z.leb_le ?%Z.leb_le]. lia. }
  split.
  - intros b Hb. apply list_elem_of_lookup in Hb as [i Hi].
    destruct (Forall2_lookup_r _ _ _ _ _ Hfor Hi) as (c & Hc & Hbf).
    destruct Hbf as ((first & Hh & ->) & (lst & Hl & ->) & _).
    assert (c ∈ chunks) as Hcin by (by eapply list_elem_of_lookup_2).
    pose proof (Hrange c first Hcin (head_Some_elem_of _ _ Hh)).
    pose proof (Hrange c lst Hcin (last_Some_elem_of _ _ Hl)).
    pose proof (head_last_sorted c first lst
                  (StronglySorted_concat_elem _ _ _ Hsorted Hcin) Hh Hl) as Hle.
    unfold episodeLe in Hle. lia.
  - intros i j bi bj Hij Hi Hj.
    destruct (Forall2_lookup_r _ _ _ _ _ Hfor Hi) as (ci & Hci & Hbi).
    destruct (Forall2_lookup_r _ _ _ _ _ Hfor Hj) as (cj & Hcj & Hbj).
    destruct Hbi as (_ & (lst & Hl & ->) & _).
    destruct Hbj as ((first & Hh & ->) & _).
    apply (StronglySorted_concat_cross episodeLe chunks i j ci cj lst first);
      [done | done | done | done | by eapply last_Some_elem_of | by eapply head_Some_elem_of].
Qed.

Lemma getEpisodeBatches_ordered_witness :
  ∃ batches,
    getEpisodeBatches (Demo.env false) 3 Demo.tower 1 3 2 = Some (Ok batches)
    ∧ (∀ b, b ∈ batches →
            1 ≤ EpisodeBatch.minEp b
            ∧ EpisodeBatch.minEp b ≤ EpisodeBatch.maxEp b
            ∧ EpisodeBatch.maxEp b ≤ 3)
    ∧ (∀ i j bi bj, (i < j)%nat → batches !! i = Some bi → batches !! j = Some bj →
                    EpisodeBatch.maxEp bi ≤ EpisodeBatch.minEp bj).
Proof.
  apply (getEpisodeBatches_ordered (Demo.env false) 3 Demo.tower
           [ EpisodeInfo.mk "Ep. 1" (Demo.towerEp "1");
             EpisodeInfo.mk "Ep. 2" (Demo.towerEp "2");
             EpisodeInfo.mk "Ep. 3" (Demo.towerEp "3") ] 1 3 2).
  - by vm_compute.
  - by vm_compute.
  - by vm_compute.
  - by vm_compute.
  - by vm_compute.
  - intros ep Hep. vm_compute in Hep.
    repeat (apply elem_of_cons in Hep as [-> | Hep]);
      [eexists; vm_compute; reflexivity .. | by apply elem_of_nil in Hep].
  - vm_compute. lia.
Defined.

(** ** Edges of the batch planner *)

Lemma crawl_fuel_pos (E : Env) (fuel : nat) (url : string) (l : list EpisodeInfo.t) :
  getAllEpisodeLinks E fuel url = Some (Ok l) → (1 ≤ fuel)%nat.
Proof. destruct fuel; [done | lia]. Qed.

(** X4.  A batch size of zero or less (which [parseOpts] refuses, but a
    stored row can hold) does not make the batching loop spin: with a
    non-empty selection the first iteration panics on its slice. *)
Theorem nonpositive_epsPerBatch_panics (E : Env) (fuel : nat) (url : string)
    (allEpisodeLinks : list EpisodeInfo.t) (minEp maxEp epsPerBatch : Z) :
  Contains url "/viewer" = false →
  getAllEpisodeLinks E fuel url = Some (Ok allEpisodeLinks) →
  desiredEpisodes allEpisodeLinks minEp maxEp ≠ [] →
  minInt ≤ epsPerBatch ≤ 0 →
  getEpisodeBatches E fuel url minEp maxEp epsPerBatch
  = Some (Panic "slice bounds out of range").
Proof.
  intros Hlisting Hcatalog Hne He.
  pose proof (crawl_fuel_pos _ _ _ _ Hcatalog) as Hfuel.
  unfold getEpisodeBatches. rewrite Hlisting, Hcatalog. unfold planBatches.
  set (desired := desiredEpisodes allEpisodeLinks minEp maxEp) in *.
  assert (Hlen : (0 < length desired)%nat) by (destruct desired; [done | simpl; lia]).
  rewrite decide_False by (rewrite length_fmap; lia).
  destruct (lookup_lt_is_Some_2 desired 0) as [first Hfirst]; [lia |].
  destruct (lookup_lt_is_Some_2 desired (length desired - 1)) as [lst Hlst]; [lia |].
  rewrite (index_lookup _ 0 (EpisodeInfo.url first)) by (by rewrite list_lookup_fmap, Hfirst).
  replace (len (EpisodeInfo.url <$> desired) - 1) with (Z.of_nat (length desired - 1))
    by (unfold len; rewrite length_fmap; lia).
  rewrite (index_lookup _ _ (EpisodeInfo.url lst)) by (by rewrite list_lookup_fmap, Hlst).
  destruct fuel as [|fuel]; [lia |]. cbn [batchLoop].
  assert (Hl : len (EpisodeInfo.url <$> desired) = Z.of_nat (length desired))
    by (unfold len; by rewrite length_fmap).
  rewrite Hl.
  destruct (Z.ltb_spec 0 (Z.of_nat (length desired))) as [_|?]; [|lia]. cbn [negb].
  rewrite wrap_small by (unfold maxInt, intSize; lia).
  destruct (Z.gtb_spec (0 + epsPerBatch) (Z.of_nat (length desired))) as [?|_]; [lia |].
  unfold makeBatch, slice.
  destruct (decide (epsPerBatch = 0)) as [->|Hneg].
  - assert (Ht : len (EpisodeInfo.title <$> desired) = Z.of_nat (length desired))
      by (unfold len; by rewrite length_fmap).
    rewrite Hl, Ht.
    destruct (Z.leb_spec (0 + 0) (Z.of_nat (length desired))) as [_|?]; [|lia].
    simpl. done.
  - destruct (Z.leb_spec 0 (0 + epsPerBatch)) as [?|_]; [lia |]. simpl. done.
Qed.

Lemma nonpositive_epsPerBatch_panics_witness :
  getEpisodeBatches (Demo.env false) 3 Demo.tower 1 3 0
  = Some (Panic "slice bounds out of range").
Proof.
  apply (nonpositive_epsPerBatch_panics (Demo.env false) 3 Demo.tower
           [ EpisodeInfo.mk "Ep. 1" (Demo.towerEp "1");
             EpisodeInfo.mk "Ep. 2" (Demo.towerEp "2");
             EpisodeInfo.mk "Ep. 3" (Demo.towerEp "3") ] 1 3 0).
  - by vm_compute.
  - by vm_compute.
  - by vm_compute.
  - by vm_compute.
Defined.

(** X5.  [parseOpts] lets through exactly the option sets with at least one
    argument, [0 <= min-ep <= max-ep] and [1 <= eps-per-file], unchanged;
    every other one ends the process with status 1. *)
Theorem parseOpts_accepts (nargs : nat) (f : Flags) :
  (∀ opts, parseOpts nargs f = Ok opts ↔
           ((2 ≤ nargs)%nat
            ∧ 0 ≤ flag_minEp f ≤ flag_maxEp f
            ∧ 1 ≤ flag_epsPerFile f
            ∧ opts = Opts.mk (flag_u f) (flag_minEp f) (flag_maxEp f)
                             (flag_epsPerFile f) (flag_format f)))
  ∧ ((∃ opts, parseOpts nargs f = Ok opts) ∨ parseOpts nargs f = Exit 1).
Proof.
  unfold parseOpts.
  destruct (Nat.ltb_spec nargs 2);
    [split; [intros opts; split; [done | lia] | by right] |].
  destruct (Z.gtb_spec (flag_minEp f) (flag_maxEp f));
    [split; [intros opts; split; [done | lia] | by right] |].
  destruct (Z.ltb_spec (flag_epsPerFile f) 1);
    [split; [intros opts; split; [done | lia] | by right] |].
  destruct (Z.ltb_spec (flag_minEp f) 0);
    [split; [intros opts; split; [done | lia] | by right] |].
  split; [|left; by eexists].
  intros opts. split.
  - intros [= <-]. repeat split; lia.
  - by intros (_ & _ & _ & ->).
Qed.

(** ** A page that cannot be resolved ends the run *)

Lemma getOzPageImgLinks_outcome (E : Env) (doc : string) :
  (∃ links, getOzPageImgLinks E doc = Ok links) ∨ getOzPageImgLinks E doc = Exit 1.
Proof.
  unfold getOzPageImgLinks.
  destruct (findDocumentURL E doc); [|by right].
  destruct (soupGet E s); [|by right].
  destruct (jsonUnmarshal E s0); [|by right].
  destruct (findPathRule E doc); [|by right].
  left. by eexists.
Qed.

Lemma getImgLinksForEpisode_exit_code (E : Env) (url : string) (c : Z) :
  getImgLinksForEpisode E url = Exit c → c = 1.
Proof.
  unfold getImgLinksForEpisode.
  destruct (soupGet E url) as [resp|]; [| congruence].
  destruct (viewerImgs E resp) as [imgs|]; [| done].
  case_decide; [| done].
  destruct (getOzPageImgLinks_outcome E resp) as [[links ->] | ->]; congruence.
Qed.

Lemma getImgLinksForEpisodes_exit_code (E : Env) (links : list string) (amx c : Z) :
  getImgLinksForEpisodes E links amx = Exit c → c = 1.
Proof.
  induction links as [|l links IH]; simpl; [done |].
  destruct (getImgLinksForEpisode E l) as [imgs|?|?|?] eqn:Hl; simpl; try done.
  - destruct (getImgLinksForEpisodes E links amx); simpl; done.
  - intros [= <-]. by eapply getImgLinksForEpisode_exit_code.
Qed.

(** The pages are resolved in order: the first one that does not resolve
    ends the loop, the way it failed. *)
Lemma getImgLinksForEpisodes_fails (E : Env) (pre post : list string) (l : string) (amx : Z) :
  (∀ x, x ∈ pre → ∃ imgs, getImgLinksForEpisode E x = Ok imgs) →
  (∀ c, getImgLinksForEpisode E l = Exit c →
        getImgLinksForEpisodes E (pre ++ l :: post) amx = Exit c)
  ∧ (∀ e, getImgLinksForEpisode E l = Panic e →
          getImgLinksForEpisodes E (pre ++ l :: post) amx = Panic e).
Proof.
  intros Hpre. induction pre as [|x pre IH]; simpl.
  - split; intros ? ->; done.
  - destruct (Hpre x) as [imgs ->]; [set_solver |]. simpl.
    destruct IH as [IH1 IH2]; [intros; apply Hpre; set_solver |].
    split; intros ? H; [rewrite (IH1 _ H) | rewrite (IH2 _ H)]; done.
Qed.

(** One iteration of the batching loop builds the batch of its chunk when
    the pages of the chunk resolve, and fails the way their resolution
    fails. *)
Lemma makeBatch_links (E : Env) (desired : list EpisodeInfo.t) (amx : Z) (s n : nat) :
  (1 ≤ n)%nat → (s + n ≤ length desired)%nat →
  let chunk := EpisodeInfo.url <$> take n (drop s desired) in
  let batch := makeBatch E (EpisodeInfo.url <$> desired) (EpisodeInfo.title <$> desired) amx
                         (Z.of_nat s) (Z.of_nat (s + n)) in
  (∀ imgs, getImgLinksForEpisodes E chunk amx = Ok imgs → ∃ b, batch = Ok b)
  ∧ (∀ c, getImgLinksForEpisodes E chunk amx = Exit c → batch = Exit c)
  ∧ (∀ e, getImgLinksForEpisodes E chunk amx = Panic e → batch = Panic e).
Proof.
  intros Hn Hlen. cbv zeta. set (eps := take n (drop s desired)).
  assert (Hclen : length eps = n) by (unfold eps; rewrite length_take, length_drop; lia).
  destruct (lookup_lt_is_Some_2 desired s) as [first Hfirst]; [lia |].
  destruct (lookup_lt_is_Some_2 desired (s + n - 1)) as [lst Hlst]; [lia |].
  unfold makeBatch.
  rewrite !slice_take_drop by (rewrite length_fmap; lia).
  rewrite <- !fmap_drop, <- !fmap_take. fold eps. cbn [obind].
  split; [| split]; intros ? ->; cbn [obind]; [| done | done].
  rewrite createTitle_concat
    by (intros Hnil%fmap_nil_inv; rewrite Hnil in Hclen; simpl in Hclen; lia).
  cbn [obind].
  rewrite (index_lookup _ s (EpisodeInfo.url first)) by (by rewrite list_lookup_fmap, Hfirst).
  cbn [obind].
  replace (Z.of_nat (s + n) - 1) with (Z.of_nat (s + n - 1)) by lia.
  rewrite (index_lookup _ (s + n - 1) (EpisodeInfo.url lst))
    by (by rewrite list_lookup_fmap, Hlst).
  cbn [obind]. by eexists.
Qed.

Lemma batchLoop_first_failure (E : Env) (pre post : list EpisodeInfo.t) (ep : EpisodeInfo.t)
    (amx e : Z) :
  let desired := pre ++ ep :: post in
  1 ≤ e ≤ maxInt → 2 * len desired ≤ maxInt →
  (∀ x, x ∈ pre → ∃ imgs, getImgLinksForEpisode E (EpisodeInfo.url x) = Ok imgs) →
  ∀ (fuel s : nat) (acc : list EpisodeBatch.t),
    (s = 0 ∨ Z.to_nat e ≤ s)%nat →
    (s ≤ length pre)%nat →
    (length desired - s ≤ fuel)%nat →
    (∀ c, getImgLinksForEpisode E (EpisodeInfo.url ep) = Exit c →
          batchLoop E fuel (EpisodeInfo.url <$> desired) (EpisodeInfo.title <$> desired)
                    amx e (Z.of_nat s) acc = Some (Exit c))
    ∧ (∀ m, getImgLinksForEpisode E (EpisodeInfo.url ep) = Panic m →
            batchLoop E fuel (EpisodeInfo.url <$> desired) (EpisodeInfo.title <$> desired)
                      amx e (Z.of_nat s) acc = Some (Panic m)).
Proof.
  intros desired He HL Hpre. unfold len in HL.
  assert (Hdlen : length desired = (length pre + S (length post))%nat)
    by (unfold desired; rewrite length_app; simpl; lia).
  assert (Hlinks : len (EpisodeInfo.url <$> desired) = Z.of_nat (length desired))
    by (unfold len; by rewrite length_fmap).
  induction fuel as [|fuel IH]; intros s acc Hmul Hs Hfuel; [lia |].
  assert (Hwrap : wrap (Z.of_nat s + e) = Z.of_nat s + e).
  { apply wrap_small. unfold minInt, intSize. lia. }
  cbn [batchLoop]. rewrite Hlinks, Hwrap.
  destruct (Z.ltb_spec (Z.of_nat s) (Z.of_nat (length desired))) as [_|?]; [|lia].
  cbn [negb].
  set (n := (Z.to_nat e `min` (length desired - s))%nat).
  assert (Hend : (if Z.of_nat s + e >? Z.of_nat (length desired)
                  then Z.of_nat (length desired) else Z.of_nat s + e)
                 = Z.of_nat (s + n)).
  { destruct (Z.gtb_spec (Z.of_nat s + e) (Z.of_nat (length desired))); lia. }
  rewrite Hend.
  destruct (makeBatch_links E desired amx s n ltac:(lia) ltac:(lia)) as (Hok & Hexit & Hpanic).
  destruct (decide (s + n ≤ length pre)%nat) as [Hin | Hout].
  - assert (Hn : n = Z.to_nat e) by lia.
    destruct (getImgLinksForEpisodes_ok E (EpisodeInfo.url <$> take n (drop s desired)) amx)
      as [imgs Himgs].
    { intros l (x & -> & Hx)%list_elem_of_fmap. apply Hpre.
      unfold desired in Hx. rewrite drop_app_le in Hx by lia.
      rewrite take_app_le in Hx by (rewrite length_drop; lia).
      by apply subseteq_take, subseteq_drop in Hx. }
    destruct (Hok imgs Himgs) as [b ->].
    replace (Z.of_nat s + e) with (Z.of_nat (s + Z.to_nat e)) by lia.
    apply IH; lia.
  - assert (Hchunk : EpisodeInfo.url <$> take n (drop s desired)
                     = (EpisodeInfo.url <$> drop s pre)
                         ++ EpisodeInfo.url ep
                         :: (EpisodeInfo.url <$> take (n - (length pre - s) - 1) post)).
    { unfold desired. rewrite drop_app_le by lia.
      rewrite take_app, length_drop.
      rewrite take_ge by (rewrite length_drop; lia).
      destruct (n - (length pre - s))%nat as [|m] eqn:Hm; [lia |].
      rewrite fmap_app. simpl. by rewrite Nat.sub_0_r. }
    destruct (getImgLinksForEpisodes_fails E (EpisodeInfo.url <$> drop s pre)
                (EpisodeInfo.url <$> take (n - (length pre - s) - 1) post)
                (EpisodeInfo.url ep) amx) as [Hc Hm].
    { intros l (x & -> & Hx)%list_elem_of_fmap. apply Hpre.
      by apply subseteq_drop in Hx. }
    rewrite <- Hchunk in Hc, Hm.
    split; intros ? H; [rewrite (Hexit _ (Hc _ H)) | rewrite (Hpanic _ (Hm _ H))]; done.
Qed.

(** X6.  On a listing URL the pages of the selected episodes are resolved
    in catalog order before any batch is dispatched.  The first of them
    that does not resolve ends [getEpisodeBatches], and [GetWebtoon] with
    it, the way it failed: the process ends where the page cannot be
    fetched or the manifest fallback fails, the call panics where the page
    holds no [div.viewer_lst].  Nothing has been written or recorded
    then. *)
Theorem unresolved_episode_ends_run (E : Env) (fuel : nat) (opts : Opts.t) (w : world)
    (allEpisodeLinks pre post : list EpisodeInfo.t) (ep : EpisodeInfo.t)
    (titre lang : string) :
  Contains (Opts.url opts) "/viewer" = false →
  getAllEpisodeLinks E fuel (Opts.url opts) = Some (Ok allEpisodeLinks) →
  desiredEpisodes allEpisodeLinks (Opts.minEp opts) (Opts.maxEp opts) = pre ++ ep :: post →
  (∀ x, x ∈ pre → ∃ imgs, getImgLinksForEpisode E (EpisodeInfo.url x) = Ok imgs) →
  1 ≤ Opts.epsPerFile opts ≤ maxInt →
  2 * len (pre ++ ep :: post) ≤ maxInt →
  (length (pre ++ ep :: post) ≤ fuel)%nat →
  getWebtoonTitle E opts = Ok (titre, lang) →
  (∀ c, getImgLinksForEpisode E (EpisodeInfo.url ep) = Exit c →
        getEpisodeBatches E fuel (Opts.url opts) (Opts.minEp opts) (Opts.maxEp opts)
                          (Opts.epsPerFile opts) = Some (Exit c)
        ∧ GetWebtoon E fuel opts w = Some (Exit c, w))
  ∧ (∀ m, getImgLinksForEpisode E (EpisodeInfo.url ep) = Panic m →
          getEpisodeBatches E fuel (Opts.url opts) (Opts.minEp opts) (Opts.maxEp opts)
                            (Opts.epsPerFile opts) = Some (Panic m)
          ∧ GetWebtoon E fuel opts w = Some (Panic m, w)).
Proof.
  intros Hlisting Hcatalog Hdesired Hpre He HL Hfuel Htitle.
  set (desired := pre ++ ep :: post) in *.
  assert (Hplan : getEpisodeBatches E fuel (Opts.url opts) (Opts.minEp opts) (Opts.maxEp opts)
                    (Opts.epsPerFile opts)
                  = batchLoop E fuel (EpisodeInfo.url <$> desired) (EpisodeInfo.title <$> desired)
                      (if Opts.maxEp opts <? episodeNo (EpisodeInfo.url (default ep (last desired)))
                       then Opts.maxEp opts
                       else episodeNo (EpisodeInfo.url (default ep (last desired))))
                      (Opts.epsPerFile opts) 0 []).
  { unfold getEpisodeBatches. rewrite Hlisting, Hcatalog. unfold planBatches.
    cbv zeta. rewrite Hdesired.
    assert (Hlen : (0 < length desired)%nat)
      by (unfold desired; rewrite length_app; simpl; lia).
    rewrite decide_False by (rewrite length_fmap; lia).
    destruct (lookup_lt_is_Some_2 desired 0) as [first Hfirst]; [lia |].
    destruct (lookup_lt_is_Some_2 desired (length desired - 1)) as [lst Hlst]; [lia |].
    rewrite (index_lookup _ 0 (EpisodeInfo.url first)) by (by rewrite list_lookup_fmap, Hfirst).
    replace (len (EpisodeInfo.url <$> desired) - 1) with (Z.of_nat (length desired - 1))
      by (unfold len; rewrite length_fmap; lia).
    rewrite (index_lookup _ _ (EpisodeInfo.url lst)) by (by rewrite list_lookup_fmap, Hlst).
    rewrite last_lookup.
    replace (pred (length desired)) with (length desired - 1)%nat by lia.
    by rewrite Hlst. }
  subst desired.
  destruct (batchLoop_first_failure E pre post ep
              (if Opts.maxEp opts
                  <? episodeNo (EpisodeInfo.url (default ep (last (pre ++ ep :: post))))
               then Opts.maxEp opts
               else episodeNo (EpisodeInfo.url (default ep (last (pre ++ ep :: post)))))
              (Opts.epsPerFile opts) He HL Hpre fuel 0 [])
    as [Hexit Hpanic]; [by left | lia | lia |].
  split; intros ? Hfail.
  - rewrite Hplan. split; [by apply Hexit |].
    unfold GetWebtoon. rewrite Htitle. cbn [orPanic]. rewrite Hplan.
    change (Z.of_nat 0) with 0 in Hexit. by rewrite (Hexit _ Hfail).
  - rewrite Hplan. split; [by apply Hpanic |].
    unfold GetWebtoon. rewrite Htitle. cbn [orPanic]. rewrite Hplan.
    change (Z.of_nat 0) with 0 in Hpanic. by rewrite (Hpanic _ Hfail).
Qed.

Lemma unresolved_episode_ends_run_witness :
  let ep := EpisodeInfo.mk "Ep. 2" (Demo.towerEp "2") in
  let opts := Demo.opts Demo.tower 1 3 1 in
  (∀ c, getImgLinksForEpisode brokenPageEnv (EpisodeInfo.url ep) = Exit c →
        getEpisodeBatches brokenPageEnv 3 Demo.tower 1 3 1 = Some (Exit c)
        ∧ GetWebtoon brokenPageEnv 3 opts Demo.w0 = Some (Exit c, Demo.w0))
  ∧ (∀ m, getImgLinksForEpisode brokenPageEnv (EpisodeInfo.url ep) = Panic m →
          getEpisodeBatches brokenPageEnv 3 Demo.tower 1 3 1 = Some (Panic m)
          ∧ GetWebtoon brokenPageEnv 3 opts Demo.w0 = Some (Panic m, Demo.w0)).
Proof.
  intros ep opts.
  apply (unresolved_episode_ends_run brokenPageEnv 3 opts Demo.w0
           [ EpisodeInfo.mk "Ep. 1" (Demo.towerEp "1");
             EpisodeInfo.mk "Ep. 2" (Demo.towerEp "2");
             EpisodeInfo.mk "Ep. 3" (Demo.towerEp "3") ]
           [ EpisodeInfo.mk "Ep. 1" (Demo.towerEp "1") ]
           [ EpisodeInfo.mk "Ep. 3" (Demo.towerEp "3") ] ep "tower" "en").
  - by vm_compute.
  - by vm_compute.
  - by vm_compute.
  - intros x ->%list_elem_of_singleton. eexists. by vm_compute.
  - by vm_compute.
  - by vm_compute.
  - simpl. lia.
  - by vm_compute.
Defined.

(** The two ways for a page not to resolve, on the small site: the viewer
    page of episode 2 is down, or it loads without its image list. *)
Example unresolved_page_exits :
  GetWebtoon brokenPageEnv 3 (Demo.opts Demo.tower 1 3 1) Demo.w0 = Some (Exit 1, Demo.w0).
Proof. by vm_compute. Qed.

Example unresolved_page_panics :
  GetWebtoon
    (withSoupGet (λ u, if decide (u = Demo.towerEp "2") then Some "tower-1"
                       else soupGet (Demo.env false) u) (Demo.env false))
    3 (Demo.opts Demo.tower 1 3 1) Demo.w0
  = Some (Panic nilDeref, Demo.w0).
Proof. by vm_compute. Qed.

(** ** What one batch does to the world *)

Lemma cbzEntries_app (n : Z) (a b : list bytes) :
  cbzEntries n (a ++ b) = cbzEntries n a ++ cbzEntries (n + len a) b.
Proof.
  revert n. induction a as [|x a IH]; intros n; simpl.
  - by rewrite Z.add_0_r.
  - rewrite IH. do 3 f_equal. unfold len. simpl length. lia.
Qed.

Lemma withImages_nil (c : comicFile) : withImages c [] = c.
Proof.
  destruct c as [[p]|[z n]]; simpl; rewrite ?app_nil_r; [done |].
  by rewrite Z.add_0_r.
Qed.

Lemma withImages_app (c : comicFile) (a b : list bytes) :
  withImages (withImages c a) b = withImages c (a ++ b).
Proof.
  destruct c as [[p]|[z n]]; simpl.
  - by rewrite app_assoc.
  - rewrite cbzEntries_app, app_assoc. do 2 f_equal.
    unfold len. rewrite length_app. lia.
Qed.

Lemma addImage_one (E : Env) (c : comicFile) (img : bytes) :
  imageDecodable E img = true → 0 ≤ numOf c → numOf c + 1 ≤ maxInt →
  addImage E c img = Ok (withImages c [img]).
Proof.
  intros Hd H0 H1. destruct c as [[p]|[z n]]; simpl in *.
  - by rewrite Hd.
  - rewrite wrap_small by (unfold minInt, intSize; lia). done.
Qed.

Lemma numOf_withImages (c : comicFile) (imgs : list bytes) :
  numOf (withImages c imgs) = match c with AsPDF _ => 0 | AsCBZ _ => numOf c + len imgs end.
Proof. by destruct c. Qed.

Lemma stillLinks_cons (l : string) (links : list string) :
  stillLinks (l :: links)
  = if Contains l ".gif" then stillLinks links else l :: stillLinks links.
Proof. unfold stillLinks. simpl. by destruct (Contains l ".gif"). Qed.

(** A run of links that all load is worked through in order: each still
    image is fetched, then added, and the loop goes on with the rest. *)
Lemma addImages_app_good (E : Env) (pre rest : list string) :
  goodLinks E pre →
  ∀ (c : comicFile) (w : world),
    0 ≤ numOf c → numOf c + len pre ≤ maxInt →
    addImages E (pre ++ rest) c w
    = addImages E rest (withImages c (fetched E pre)) (logs (loadEvents E pre) w).
Proof.
  unfold fetched, loadEvents.
  induction pre as [|l pre IH]; intros Hg c w H0 H1.
  - simpl. by rewrite withImages_nil, logs_nil.
  - assert (Hgp : goodLinks E pre) by (intros l' Hl'; apply Hg; set_solver).
    assert (Hlen : len (l :: pre) = len pre + 1) by (unfold len; simpl length; lia).
    rewrite Hlen in H1.
    assert (Hpos : 0 ≤ len pre) by (unfold len; lia).
    rewrite stillLinks_cons. cbn [app addImages].
    destruct (Contains l ".gif") eqn:Hgif.
    + apply IH; [done | done | lia].
    + destruct (Hg l) as [Hc | (img & Himg & Hdec)]; [set_solver | congruence |].
      unfold fetchImage. rewrite Himg.
      rewrite (addImage_one E c img Hdec) by lia.
      rewrite IH; [| done | |].
      * cbn [fmap list_fmap omap list_omap mjoin list_join]. rewrite Himg.
        rewrite withImages_app, !log_logs, !logs_logs. done.
      * rewrite numOf_withImages. destruct c; [done |]. unfold len. simpl length. lia.
      * rewrite numOf_withImages. destruct c; [simpl in *; lia |].
        unfold len in *. simpl length. lia.
Qed.

Lemma fileOf_getComicFile (format : string) (imgs : list bytes) :
  fileOf (withImages (getComicFile format) imgs) = batchFile format imgs.
Proof. unfold getComicFile, batchFile. by case_decide. Qed.

Lemma save_creatable (E : Env) (c : comicFile) (outFile : string) (w : world) :
  creatable E outFile = true →
  save E c outFile w = (Ok (), writeFile outFile (fileOf c) w).
Proof. intros Hc. destruct c as [c|c]; simpl; by rewrite Hc. Qed.

Lemma numOf_getComicFile (format : string) : numOf (getComicFile format) = 0.
Proof. unfold getComicFile. by case_decide. Qed.

Lemma saveBatch_runs (E : Env) (outFile : string) (w : world) :
  FileVerify E = false ∨ fs w !! outFile = None →
  negb (FileVerify E) || bool_decide (fs w !! outFile = None) = true.
Proof.
  intros [-> | ->]; [done |]. rewrite bool_decide_eq_true_2 by done. apply orb_true_r.
Qed.

Lemma saveBatch_pages (E : Env) (title lang : string) (opts : Opts.t)
    (b : EpisodeBatch.t) (total : Z) (w : world) :
  goodBatch E b →
  creatable E (outFileOf title lang opts b) = true →
  FileVerify E = false ∨ fs w !! outFileOf title lang opts b = None →
  len (EpisodeBatch.imgLinks b) ≤ maxInt →
  saveBatch E title lang opts b total w
  = (Ok (),
     writeFile (outFileOf title lang opts b)
       (batchFile (Opts.format opts) (fetched E (EpisodeBatch.imgLinks b)))
       (logs (EvGetComicFile (Opts.format opts)
                :: loadEvents E (EpisodeBatch.imgLinks b)
                ++ [EvSave (outFileOf title lang opts b)]) w)).
Proof.
  intros Hg Hc Hrun Hlen. unfold saveBatch. rewrite (saveBatch_runs _ _ _ Hrun).
  pose proof (addImages_app_good E (EpisodeBatch.imgLinks b) [] Hg
                (getComicFile (Opts.format opts))
                (log (EvGetComicFile (Opts.format opts)) w)) as Hadd.
  rewrite app_nil_r in Hadd. rewrite Hadd by (rewrite numOf_getComicFile; lia).
  cbn [addImages]. rewrite (save_creatable _ _ _ _ Hc). cbn [recover].
  rewrite fileOf_getComicFile, !log_logs, !logs_logs. done.
Qed.

(** X7.  A batch whose images all load, when it is not skipped, is saved
    with its still images as pages in the order of the links, gifs left out:
    a PDF of these pages, or for the format [cbz] an archive whose entries
    are numbered from 0 in the same order. Each image is fetched once, then
    added, and [save] is the last call. *)
Theorem saveBatch_writes_pages_in_order (E : Env) (title lang : string) (opts : Opts.t)
    (b : EpisodeBatch.t) (total : Z) (w : world) :
  goodBatch E b →
  creatable E (outFileOf title lang opts b) = true →
  FileVerify E = false ∨ fs w !! outFileOf title lang opts b = None →
  len (EpisodeBatch.imgLinks b) ≤ maxInt →
  saveBatch E title lang opts b total w
  = (Ok (),
     writeFile (outFileOf title lang opts b)
       (batchFile (Opts.format opts) (fetched E (EpisodeBatch.imgLinks b)))
       (logs (EvGetComicFile (Opts.format opts)
                :: loadEvents E (EpisodeBatch.imgLinks b)
                ++ [EvSave (outFileOf title lang opts b)]) w)).
Proof. apply saveBatch_pages. Qed.

Lemma saveBatch_writes_pages_in_order_witness :
  let links := [ "https://img.example/3a.jpg"; "https://img.example/3b.gif";
                 "https://img.example/1a.jpg" ] in
  saveBatch (Demo.env false) "tower" "en" (Demo.opts Demo.tower 1 3 1)
            (EpisodeBatch.mk links "Ep. 3" 3 3) 1 Demo.w0
  = (Ok (),
     writeFile "webtoon/tower/en/Ep. 3.pdf" (PdfDoc [Demo.jpeg; Demo.jpeg])
       (logs [ EvGetComicFile "pdf";
               EvFetchImage "https://img.example/3a.jpg"; EvAddImage Demo.jpeg;
               EvFetchImage "https://img.example/1a.jpg"; EvAddImage Demo.jpeg;
               EvSave "webtoon/tower/en/Ep. 3.pdf" ] Demo.w0)).
Proof.
  intros links.
  apply (saveBatch_writes_pages_in_order (Demo.env false) "tower" "en"
           (Demo.opts Demo.tower 1 3 1) (EpisodeBatch.mk links "Ep. 3" 3 3) 1 Demo.w0).
  - intros l Hl. simpl in Hl.
    repeat (apply elem_of_cons in Hl as [-> | Hl]);
      [right; eexists; split; by vm_compute | left; by vm_compute
       | right; eexists; split; by vm_compute | by apply elem_of_nil in Hl].
  - reflexivity.
  - right. by vm_compute.
  - by vm_compute.
Defined.

(** X8.  The first image that does not decode ends a PDF batch there: the
    panic is recovered and the call returns normally, the links after it are
    not fetched, [save] is not called and the file system is as before. *)
Theorem saveBatch_stops_at_undecodable (E : Env) (title lang : string) (opts : Opts.t)
    (b : EpisodeBatch.t) (total : Z) (w : world)
    (pre post : list string) (l : string) (img : bytes) :
  EpisodeBatch.imgLinks b = pre ++ l :: post →
  goodLinks E pre →
  Contains l ".gif" = false →
  httpGet E l = Some img →
  imageDecodable E img = false →
  Opts.format opts ≠ "cbz" →
  FileVerify E = false ∨ fs w !! outFileOf title lang opts b = None →
  len pre ≤ maxInt →
  saveBatch E title lang opts b total w
  = (Ok (),
     logs (EvGetComicFile (Opts.format opts)
             :: loadEvents E pre ++ [EvFetchImage l; EvAddImage img]) w).
Proof.
  intros Hlinks Hg Hgif Himg Hdec Hfmt Hrun Hlen.
  unfold saveBatch. rewrite (saveBatch_runs _ _ _ Hrun), Hlinks.
  rewrite (addImages_app_good E pre (l :: post) Hg)
    by (rewrite numOf_getComicFile; lia).
  cbn [addImages]. rewrite Hgif. unfold fetchImage. rewrite Himg.
  unfold getComicFile. rewrite decide_False by done.
  cbn [withImages addImage comicFile_ComicFile PDFComicFile_ComicFile].
  rewrite Hdec. cbn [obind recover].
  rewrite !log_logs, !logs_logs. done.
Qed.

Lemma saveBatch_stops_at_undecodable_witness :
  saveBatch (Demo.env false) "solo" "en" (Demo.opts Demo.solo 5 5 1)
            (EpisodeBatch.mk [ "https://img.example/1a.jpg"; "https://img.example/5a.jpg";
                               "https://img.example/1b.jpg" ] "Ep. 5" 5 5) 1 Demo.w0
  = (Ok (),
     logs [ EvGetComicFile "pdf";
            EvFetchImage "https://img.example/1a.jpg"; EvAddImage Demo.jpeg;
            EvFetchImage "https://img.example/5a.jpg"; EvAddImage Demo.junk ] Demo.w0).
Proof.
  apply (saveBatch_stops_at_undecodable (Demo.env false) "solo" "en"
           (Demo.opts Demo.solo 5 5 1) _ 1 Demo.w0
           ["https://img.example/1a.jpg"] ["https://img.example/1b.jpg"]
           "https://img.example/5a.jpg" Demo.junk).
  - reflexivity.
  - intros l Hl. apply list_elem_of_singleton in Hl as ->.
    right. eexists. split; by vm_compute.
  - by vm_compute.
  - by vm_compute.
  - by vm_compute.
  - by vm_compute.
  - right. by vm_compute.
  - by vm_compute.
Defined.



(** ** What a batch, a series and the database mode never do *)

(** X10.  Whatever happens, [saveBatch] returns normally or ends the process
    with status 1 (it never lets a panic or an error out); it leaves the
    progress store alone, changes no file but its own output file, and only
    adds to the trace of calls. *)
Theorem saveBatch_frame (E : Env) (title lang : string) (opts : Opts.t)
    (b : EpisodeBatch.t) (total : Z) (w : world) :
  ∃ r w',
    saveBatch E title lang opts b total w = (r, w')
    ∧ (r = Ok () ∨ r = Exit 1)
    ∧ db w' = db w
    ∧ (∀ p, p ≠ outFileOf title lang opts b → fs w' !! p = fs w !! p)
    ∧ trace w `prefix_of` trace w'.
Proof. apply saveBatch_effect. Qed.

Lemma slice_no_exit {A} (l : list A) (lo hi c : Z) : slice l lo hi ≠ Exit c.
Proof. unfold slice. by destruct (_ && _). Qed.

Lemma index_no_exit {A} (l : list A) (i c : Z) : index l i ≠ Exit c.
Proof. unfold index. destruct (_ && _); [|done]. by destruct (l !! Z.to_nat i). Qed.

Lemma createTitle_no_exit (titles : list string) (c : Z) : createTitle titles ≠ Exit c.
Proof. unfold createTitle. by destruct (_ <? 0). Qed.

Lemma viewerAnchors_no_exit (episodeURLs : list (string * option string)) (c : Z) :
  viewerAnchors episodeURLs ≠ Exit c.
Proof.
  induction episodeURLs as [|[href span] rest IH]; simpl; [done |].
  destruct (Contains href "/viewer"); [| done].
  destruct span; [| done].
  by destruct (viewerAnchors rest).
Qed.

Lemma crawlPages_no_exit (E : Env) (fuel : nat) :
  ∀ (url : string) (page : Z) (episodeSet : gset EpisodeInfo.t) (c : Z),
    crawlPages E fuel url page episodeSet ≠ Some (Exit c).
Proof.
  induction fuel as [|fuel IH]; intros url page S c; cbn [crawlPages]; [done |].
  unfold getEpisodeLinksForPage.
  destruct (soupGet E (pageURL url page)) as [resp|]; [| done].
  destruct (detailAnchors E resp) as [anchors|]; [| done].
  destruct (viewerAnchors anchors) as [eps|?|?|?] eqn:Ha; try done.
  - destruct (scanPage eps S) as [[] S']; [done | apply IH].
  - by destruct (viewerAnchors_no_exit _ _ Ha).
Qed.

Lemma getAllEpisodeLinks_no_exit (E : Env) (fuel : nat) (url : string) (c : Z) :
  getAllEpisodeLinks E fuel url ≠ Some (Exit c).
Proof.
  unfold getAllEpisodeLinks.
  destruct (crawlPages E fuel url 1 ∅) as [[out|?|?|?]|] eqn:Hc; try done.
  by destruct (crawlPages_no_exit _ _ _ _ _ _ Hc).
Qed.

Lemma makeBatch_exit_code (E : Env) (l t : list string) (amx s n c : Z) :
  makeBatch E l t amx s n = Exit c → c = 1.
Proof.
  unfold makeBatch.
  destruct (slice l s n) as [chunk|?|?|?] eqn:H1; cbn [obind]; try done;
    [|by destruct (slice_no_exit _ _ _ _ H1)].
  destruct (getImgLinksForEpisodes E chunk amx) as [imgs|?|?|?] eqn:H2; cbn [obind]; try done.
  2:{ intros [= <-]. by eapply getImgLinksForEpisodes_exit_code. }
  destruct (slice t s n) as [titles|?|?|?] eqn:H3; cbn [obind]; try done;
    [|by destruct (slice_no_exit _ _ _ _ H3)].
  destruct (createTitle titles) as [title|?|?|?] eqn:H4; cbn [obind]; try done;
    [|by destruct (createTitle_no_exit _ _ H4)].
  destruct (index l s) as [first|?|?|?] eqn:H5; cbn [obind]; try done;
    [|by destruct (index_no_exit _ _ _ H5)].
  destruct (index l (n - 1)) as [lst|?|?|?] eqn:H6; cbn [obind]; try done.
  by destruct (index_no_exit _ _ _ H6).
Qed.

Lemma batchLoop_exit_code (E : Env) (fuel : nat) (l t : list string)
    (amx e s c : Z) (acc : list EpisodeBatch.t) :
  batchLoop E fuel l t amx e s acc = Some (Exit c) → c = 1.
Proof.
  revert s acc. induction fuel as [|fuel IH]; intros s acc; cbn [batchLoop].
  - by destruct (negb _).
  - destruct (negb _); [done |].
    match goal with
    | |- context [makeBatch E l t amx s ?n] =>
        destruct (makeBatch E l t amx s n) eqn:Hm
    end; try done.
    + apply IH.
    + intros [= <-]. by eapply makeBatch_exit_code.
Qed.

Lemma getEpisodeBatches_exit_code (E : Env) (fuel : nat) (url : string)
    (minEp maxEp e c : Z) :
  getEpisodeBatches E fuel url minEp maxEp e = Some (Exit c) → c = 1.
Proof.
  unfold getEpisodeBatches. destruct (Contains url "/viewer").
  - destruct (getImgLinksForEpisode E url) as [imgs|?|?|?] eqn:Hl; cbn [obind]; try done.
    intros [= <-]. by eapply getImgLinksForEpisode_exit_code.
  - destruct (getAllEpisodeLinks E fuel url) as [[all|?|?|?]|] eqn:Hcrawl; try done;
      [| by destruct (getAllEpisodeLinks_no_exit _ _ _ _ Hcrawl)].
    unfold planBatches.
    case_decide; [done |].
    set (links := EpisodeInfo.url <$> desiredEpisodes all minEp maxEp).
    destruct (index links 0) as [first|?|?|?] eqn:H1; try done;
      [|by destruct (index_no_exit _ _ _ H1)].
    destruct (index links (len links - 1)) as [lst|?|?|?] eqn:H2; try done;
      [|by destruct (index_no_exit _ _ _ H2)].
    apply batchLoop_exit_code.
Qed.

Lemma getWebtoonTitle_no_exit (E : Env) (opts : Opts.t) (c : Z) :
  getWebtoonTitle E opts ≠ Exit c.
Proof.
  unfold getWebtoonTitle. destruct (negb _); [done |].
  match goal with
  | |- context [index ?l 0] => destruct (index l 0) eqn:H0; cbn [obind]; try done;
                               [|by destruct (index_no_exit _ _ _ H0)]
  end.
  match goal with
  | |- context [index ?l 2] => destruct (index l 2) eqn:H2; cbn [obind]; try done
  end.
  by destruct (index_no_exit _ _ _ H2).
Qed.

Lemma GetWebtoon_effect (E : Env) (fuel : nat) (opts : Opts.t)
    (w w' : world) (r : outcome ()) :
  GetWebtoon E fuel opts w = Some (r, w') →
  (r = Ok ()
   ∧ ∃ titre lang row,
       getWebtoonTitle E opts = Ok (titre, lang)
       ∧ db w' = <[(titre, lang) := row]> (db w)
       ∧ row_url row = Opts.url opts
       ∧ row_epsPerFile row = Opts.epsPerFile opts
       ∧ row_format row = Opts.format opts)
  ∨ (((∃ e, r = Panic e) ∨ r = Exit 1) ∧ db w' = db w).
Proof.
  unfold GetWebtoon.
  destruct (getWebtoonTitle E opts) as [[titre lang]|e|e|n] eqn:Htitle; cbn [orPanic].
  2,3: intros [= <- <-]; right; split; [left; by eexists | done].
  2: by destruct (getWebtoonTitle_no_exit _ _ _ Htitle).
  destruct (getEpisodeBatches E fuel (Opts.url opts) (Opts.minEp opts) (Opts.maxEp opts)
              (Opts.epsPerFile opts)) as [[batches|e|e|n]|] eqn:Hplan; cbn [orPanic]; [| | | |done].
  2,3: intros [= <- <-]; right; split; [left; by eexists | done].
  2:{ apply getEpisodeBatches_exit_code in Hplan as ->.
      intros [= <- <-]. right. split; [by right | done]. }
  destruct (index batches (len batches - 1)) as [lastBatch|?|?|?];
    try (intros [= <- <-]; right; split; [left; by eexists | done]).
  destruct (index batches 0) as [firstBatch|?|?|?];
    try (intros [= <- <-]; right; split; [left; by eexists | done]).
  match goal with
  | |- context [runBatches E titre lang opts batches ?t w] =>
      destruct (runBatches_frame E titre lang opts t batches w)
        as (r1 & w1 & -> & [-> | ->] & Hdb & _)
  end.
  - intros [= <- <-]. left. split; [done |].
    eexists titre, lang, _. split; [done |]. simpl. rewrite Hdb. done.
  - intros [= <- <-]. right. split; [by right | done].
Qed.

(** X11.  A run of [GetWebtoon] that comes to an end returns normally,
    panics or ends the process with status 1. It writes the progress row of
    its own series, and only that row, when it returns normally; when it
    panics or exits, the progress store is as before. *)
Theorem GetWebtoon_records_only_on_return (E : Env) (fuel : nat) (opts : Opts.t)
    (w w' : world) (r : outcome ()) :
  GetWebtoon E fuel opts w = Some (r, w') →
  (r = Ok ()
   ∧ ∃ titre lang row,
       getWebtoonTitle E opts = Ok (titre, lang)
       ∧ db w' = <[(titre, lang) := row]> (db w)
       ∧ row_url row = Opts.url opts
       ∧ row_epsPerFile row = Opts.epsPerFile opts
       ∧ row_format row = Opts.format opts)
  ∨ (((∃ e, r = Panic e) ∨ r = Exit 1) ∧ db w' = db w).
Proof. apply GetWebtoon_effect. Qed.

Lemma GetWebtoon_records_only_on_return_witness :
  ∃ (r : outcome ()) (w' : world),
    GetWebtoon (Demo.env true) 3 (Demo.opts Demo.tower 1 3 1) Demo.w0 = Some (r, w')
    ∧ ((r = Ok ()
        ∧ ∃ titre lang row,
            getWebtoonTitle (Demo.env true) (Demo.opts Demo.tower 1 3 1) = Ok (titre, lang)
            ∧ db w' = <[(titre, lang) := row]> (db Demo.w0)
            ∧ row_url row = Opts.url (Demo.opts Demo.tower 1 3 1)
            ∧ row_epsPerFile row = Opts.epsPerFile (Demo.opts Demo.tower 1 3 1)
            ∧ row_format row = Opts.format (Demo.opts Demo.tower 1 3 1))
       ∨ (((∃ e, r = Panic e) ∨ r = Exit 1) ∧ db w' = db Demo.w0)).
Proof.
  eexists _, _. split; [vm_compute; reflexivity |].
  apply (GetWebtoon_records_only_on_return (Demo.env true) 3 (Demo.opts Demo.tower 1 3 1)
           Demo.w0).
  vm_compute. reflexivity.
Defined.

Lemma GetWebtoonBatch_outcome (E : Env) (fuel : nat) (opts : Opts.t)
    (w w' : world) (r : outcome ()) :
  GetWebtoonBatch E fuel opts w = Some (r, w') → r = Ok () ∨ r = Exit 1.
Proof.
  unfold GetWebtoonBatch.
  destruct (GetWebtoon E fuel opts w) as [[r0 w0]|] eqn:Hrun; [|done].
  destruct (GetWebtoon_effect _ _ _ _ _ _ Hrun)
    as [[-> _] | [[[e ->] | ->] _]]; simpl; intros [= <- <-]; auto.
Qed.

(** X12.  In database mode no panic of a series job (a bad URL, an empty
    range, a comic file error) gets out of the run: a run that comes to an
    end ends the process with status 0, or with status 1 where a job exited. *)
Theorem GetWebtoons_ends_process (E : Env) (fuel : nat) (opts : Opts.t) (rows : list Row)
    (w w' : world) (r : outcome ()) :
  GetWebtoons E fuel opts rows w = Some (r, w') →
  r = Exit 0 ∨ r = Exit 1.
Proof.
  unfold GetWebtoons.
  assert (Hrun : ∀ l w r w', runWebtoons E fuel l w = Some (r, w') → r = Ok () ∨ r = Exit 1).
  { clear. intros l. induction l as [|o l IH]; intros w r w'; cbn [runWebtoons].
    - intros [= <- <-]. by left.
    - destruct (GetWebtoonBatch E fuel o w) as [[r0 w0]|] eqn:Hb; [|done].
      destruct (GetWebtoonBatch_outcome _ _ _ _ _ _ Hb) as [-> | ->].
      + apply IH.
      + intros [= <- <-]. by right. }
  destruct (runWebtoons E fuel (resumeOpts E opts <$> rows) w) as [[r0 w0]|] eqn:H; [|done].
  destruct (Hrun _ _ _ _ H) as [-> | ->]; intros [= <- <-]; auto.
Qed.

Lemma GetWebtoons_ends_process_witness :
  ∃ (r : outcome ()) (w' : world),
    GetWebtoons (Demo.env false) 3 (Demo.opts "" 0 maxInt 1)
      [ {| row_url := Demo.solo; last_chapter := 9; row_epsPerFile := 1; row_format := "pdf" |};
        {| row_url := Demo.tower; last_chapter := 3; row_epsPerFile := 1; row_format := "pdf" |} ]
      Demo.w0 = Some (r, w')
    ∧ (r = Exit 0 ∨ r = Exit 1).
Proof.
  eexists _, _. split; [vm_compute; reflexivity |].
  eapply (GetWebtoons_ends_process (Demo.env false) 3 (Demo.opts "" 0 maxInt 1)
           [ {| row_url := Demo.solo; last_chapter := 9; row_epsPerFile := 1;
                row_format := "pdf" |};
             {| row_url := Demo.tower; last_chapter := 3; row_epsPerFile := 1;
                row_format := "pdf" |} ] Demo.w0).
  vm_compute. reflexivity.
Defined.

(** ** Series title and language from the URL *)

Lemma replaceFrom_absent (old new s : string) :
  Contains s old = false → replaceFrom O old new s = s.
Proof.
  induction s as [|c s IH]; [done |].
  cbn [Contains replaceFrom].
  destruct (stripPrefix old (String c s)); [done |].
  intros H. by rewrite IH.
Qed.

Lemma splitFrom_slash (cur a r : string) :
  lacks "/" a = true →
  splitFrom O "/" cur (a +:+ "/" +:+ r) = (cur +:+ a) :: splitFrom O "/" "" r.
Proof.
  revert cur. induction a as [|c a IH]; intros cur Ha.
  - rewrite app_nil_l_s, app_nil_r_s. done.
  - simpl in Ha. apply andb_true_iff in Ha as [Hc Ha]. apply negb_true_iff in Hc.
    rewrite app_cons_s. cbn [splitFrom stripPrefix].
    rewrite Ascii.eqb_sym, Hc. rewrite IH by done.
    by rewrite app_assoc_s.
Qed.

(** Runs [replaceFrom] over the literal head of its argument. *)
Ltac run_replace :=
  repeat (rewrite ?app_cons_s, ?app_nil_l_s;
          cbn -[String.append Ascii.eqb replaceFrom];
          first
            [ progress (cbn [replaceFrom stripPrefix String.length Nat.sub])
            | match goal with
              | |- context [Ascii.eqb ?a ?c] =>
                  let v := eval vm_compute in (Ascii.eqb a c) in
                  change (Ascii.eqb a c) with v
              end ]).

Lemma strip_site_https (path : string) :
  Contains path "http://" = false → Contains path "https://" = false →
  Contains path "www." = false → Contains path "webtoons.com/" = false →
  ReplaceAll
    (ReplaceAll
       (ReplaceAll (ReplaceAll ("https://www.webtoons.com/" +:+ path) "http://" "")
                   "https://" "")
       "www." "")
    "webtoons.com/" ""
  = path.
Proof.
  intros H1 H2 H3 H4. unfold ReplaceAll.
  assert (S1 : replaceFrom 0 "http://" "" ("https://www.webtoons.com/" +:+ path)
               = "https://www.webtoons.com/" +:+ path).
  { run_replace. rewrite (replaceFrom_absent _ _ _ H1). reflexivity. }
  rewrite S1.
  assert (S2 : replaceFrom 0 "https://" "" ("https://www.webtoons.com/" +:+ path)
               = "www.webtoons.com/" +:+ path).
  { run_replace. rewrite (replaceFrom_absent _ _ _ H2). reflexivity. }
  rewrite S2.
  assert (S3 : replaceFrom 0 "www." "" ("www.webtoons.com/" +:+ path)
               = "webtoons.com/" +:+ path).
  { run_replace. rewrite (replaceFrom_absent _ _ _ H3). reflexivity. }
  rewrite S3.
  run_replace. by rewrite (replaceFrom_absent _ _ _ H4).
Qed.

Lemma strip_site_http (path : string) :
  Contains path "http://" = false → Contains path "https://" = false →
  Contains path "www." = false → Contains path "webtoons.com/" = false →
  ReplaceAll
    (ReplaceAll
       (ReplaceAll (ReplaceAll ("http://www.webtoons.com/" +:+ path) "http://" "")
                   "https://" "")
       "www." "")
    "webtoons.com/" ""
  = path.
Proof.
  intros H1 H2 H3 H4. unfold ReplaceAll.
  assert (S1 : replaceFrom 0 "http://" "" ("http://www.webtoons.com/" +:+ path)
               = "www.webtoons.com/" +:+ path).
  { run_replace. rewrite (replaceFrom_absent _ _ _ H1). reflexivity. }
  rewrite S1.
  assert (S2 : replaceFrom 0 "https://" "" ("www.webtoons.com/" +:+ path)
               = "www.webtoons.com/" +:+ path).
  { run_replace. rewrite (replaceFrom_absent _ _ _ H2). reflexivity. }
  rewrite S2.
  assert (S3 : replaceFrom 0 "www." "" ("www.webtoons.com/" +:+ path)
               = "webtoons.com/" +:+ path).
  { run_replace. rewrite (replaceFrom_absent _ _ _ H3). reflexivity. }
  rewrite S3.
  run_replace. by rewrite (replaceFrom_absent _ _ _ H4).
Qed.

Lemma strip_site (scheme path : string) :
  scheme = "https://" ∨ scheme = "http://" → plainPath path →
  ReplaceAll
    (ReplaceAll
       (ReplaceAll (ReplaceAll (scheme +:+ "www.webtoons.com/" +:+ path) "http://" "")
                   "https://" "")
       "www." "")
    "webtoons.com/" ""
  = path.
Proof.
  intros [-> | ->] (H1 & H2 & H3 & H4).
  - by apply strip_site_https.
  - by apply strip_site_http.
Qed.

Lemma Split_segments3 (a b c r : string) :
  lacks "/" a = true → lacks "/" b = true → lacks "/" c = true →
  Split (a +:+ "/" +:+ b +:+ "/" +:+ c +:+ "/" +:+ r) "/"
  = a :: b :: c :: Split r "/".
Proof.
  intros Ha Hb Hc. unfold Split.
  rewrite (splitFrom_slash "" a) by done.
  rewrite (splitFrom_slash "" b) by done.
  by rewrite (splitFrom_slash "" c) by done.
Qed.

(** X13.  On a URL of the site's usual form,
    [scheme://www.webtoons.com/<lang>/<genre>/<title>/<rest>], the function
    returns the third path segment as the title and the first as the
    language (the genre is dropped). *)
Theorem getWebtoonTitle_segments (E : Env) (opts : Opts.t)
    (scheme lang genre title rest : string) :
  let path := lang +:+ "/" +:+ genre +:+ "/" +:+ title +:+ "/" +:+ rest in
  ParseRequestURI E (Opts.url opts) = true →
  Opts.url opts = scheme +:+ "www.webtoons.com/" +:+ path →
  scheme = "https://" ∨ scheme = "http://" →
  plainPath path →
  lacks "/" lang = true → lacks "/" genre = true → lacks "/" title = true →
  getWebtoonTitle E opts = Ok (title, lang).
Proof.
  intros path HP Hurl Hs Hp Hl Hg Ht.
  unfold getWebtoonTitle. rewrite HP, Hurl. cbn [negb].
  rewrite (strip_site scheme path Hs Hp).
  unfold path. rewrite Split_segments3 by done.
  rewrite (index_lookup _ 0 lang) by done.
  rewrite (index_lookup _ 2 title) by done.
  reflexivity.
Qed.

Lemma getWebtoonTitle_segments_witness :
  getWebtoonTitle (Demo.env false) (Demo.opts Demo.tower 0 maxInt 1)
  = Ok ("tower", "en").
Proof.
  apply (getWebtoonTitle_segments (Demo.env false) _ "https://" "en" "fantasy" "tower"
           "list?title_no=95");
    try (vm_compute; reflexivity).
  - by left.
  - repeat split; vm_compute; reflexivity.
Defined.

(** X14.  The earlier revision names a file after the fourth path segment of
    the episode URL. *)
Theorem Legacy_getepisodeTitle_segment (scheme lang genre title slug rest : string) :
  let path := lang +:+ "/" +:+ genre +:+ "/" +:+ title +:+ "/" +:+ slug +:+ "/" +:+ rest in
  scheme = "https://" ∨ scheme = "http://" →
  plainPath path →
  lacks "/" lang = true → lacks "/" genre = true → lacks "/" title = true →
  lacks "/" slug = true →
  Legacy.getepisodeTitle (scheme +:+ "www.webtoons.com/" +:+ path) = Ok slug.
Proof.
  intros path Hs Hp Hl Hg Ht Hsl.
  unfold Legacy.getepisodeTitle.
  rewrite (strip_site scheme path Hs Hp).
  unfold path. rewrite Split_segments3 by done.
  unfold Split. rewrite (splitFrom_slash "" slug) by done.
  by rewrite (index_lookup _ 3 slug).
Qed.

Lemma Legacy_getepisodeTitle_segment_witness :
  Legacy.getepisodeTitle (Demo.towerEp "2") = Ok "ep-2".
Proof.
  apply (Legacy_getepisodeTitle_segment "https://" "en" "fantasy" "tower" "ep-2"
           "viewer?title_no=95&episode_no=2");
    try (vm_compute; reflexivity).
  - by left.
  - repeat split; vm_compute; reflexivity.
Defined.


(** ** What the catalog holds, and when the crawl does not end *)

Lemma getEpisodeLinksForPage_viewer (E : Env) (url : string) (episodes : list EpisodeInfo.t) :
  getEpisodeLinksForPage E url = Ok episodes →
  ∀ e, e ∈ episodes → Contains (EpisodeInfo.url e) "/viewer" = true.
Proof.
  unfold getEpisodeLinksForPage. destruct (soupGet E url) as [resp|]; [|done].
  destruct (detailAnchors E resp) as [anchors|]; [|done].
  revert episodes. induction anchors as [|[href span] rest IH]; intros episodes; simpl.
  - intros [= <-] e He. by apply elem_of_nil in He.
  - destruct (Contains href "/viewer") eqn:Hv; [| apply IH].
    destruct span as [text|]; [| done].
    destruct (viewerAnchors rest) as [more|?|?|?]; simpl; try done.
    intros [= <-] e [-> | He]%elem_of_cons; [done | by eapply IH].
Qed.

Lemma crawlPages_listed (E : Env) (fuel : nat) :
  ∀ (url : string) (page : Z) (episodeSet out : gset EpisodeInfo.t),
    crawlPages E fuel url page episodeSet = Some (Ok out) →
    ∀ e, e ∈ out →
         e ∈ episodeSet
         ∨ ∃ k pg, (k < fuel)%nat
                   ∧ getEpisodeLinksForPage E (requestAt url page k).1 = Ok pg
                   ∧ e ∈ pg.
Proof.
  induction fuel as [|fuel IH]; intros url page S out Hc e He; [done |].
  cbn [crawlPages] in Hc.
  destruct (getEpisodeLinksForPage E (pageURL url page)) as [eps| | |] eqn:Hpg;
    [| injection Hc as <-; by left | done | done].
  pose proof (scanPage_between eps S) as [_ Hsub].
  destruct (scanPage eps S) as [found S'] eqn:Hscan. simpl in Hsub.
  assert (Hhere : e ∈ S' → e ∈ S ∨ ∃ k pg, (k < Datatypes.S fuel)%nat
                    ∧ getEpisodeLinksForPage E (requestAt url page k).1 = Ok pg ∧ e ∈ pg).
  { intros He'. apply Hsub in He'. apply elem_of_union in He' as [He' | He']; [|by left].
    right. exists 0%nat, eps. split; [lia |]. split; [done |].
    by apply elem_of_list_to_set in He'. }
  destruct found.
  - injection Hc as <-. by apply Hhere.
  - destruct (IH _ _ _ _ Hc e He) as [He' | (k & pg & Hk & Hp & Hin)].
    + by apply Hhere.
    + right. exists (Datatypes.S k), pg. split; [lia |]. by split.
Qed.

(** X15.  Whatever the site answers, a crawl that returns gives a catalog
    without repeated entries, in ascending order of [episodeNo], each entry
    of which was listed on one of the pages requested and has ["/viewer"] in
    its URL. *)
Theorem catalog_entries_listed (E : Env) (fuel : nat) (url : string)
    (l : list EpisodeInfo.t) :
  range_ok E →
  getAllEpisodeLinks E fuel url = Some (Ok l) →
  NoDup l ∧ Sorted episodeLe l
  ∧ ∀ e, e ∈ l →
         Contains (EpisodeInfo.url e) "/viewer" = true
         ∧ ∃ k pg, (k < fuel)%nat ∧ pageAt E url k = Ok pg ∧ e ∈ pg.
Proof.
  intros [Hrange _] Hl. unfold getAllEpisodeLinks in Hl.
  destruct (crawlPages E fuel url 1 ∅) as [[out|?|?|?]|] eqn:Hc; try done.
  injection Hl as <-.
  destruct (sortByEpisodeNo_spec (rangeEpisodeSet E out)) as [Hperm Hsorted].
  split; [| split; [done |]].
  - rewrite Hperm, Hrange. apply NoDup_elements.
  - intros e He. rewrite Hperm, Hrange in He. apply elem_of_elements in He.
    destruct (crawlPages_listed E fuel url 1 ∅ out Hc e He) as [He' | (k & pg & Hk & Hp & Hin)];
      [set_solver |].
    split; [by eapply getEpisodeLinksForPage_viewer | by exists k, pg].
Qed.

Lemma catalog_entries_listed_witness :
  ∃ l, getAllEpisodeLinks (Demo.env false) 5 Demo.tower = Some (Ok l)
       ∧ NoDup l ∧ Sorted episodeLe l
       ∧ ∀ e, e ∈ l →
              Contains (EpisodeInfo.url e) "/viewer" = true
              ∧ ∃ k pg, (k < 5)%nat ∧ pageAt (Demo.env false) Demo.tower k = Ok pg ∧ e ∈ pg.
Proof.
  eexists. split; [vm_compute; reflexivity |].
  apply (catalog_entries_listed (Demo.env false) 5 Demo.tower);
    [apply Demo_range_ok | vm_compute; reflexivity].
Defined.

Lemma crawlPages_unending (E : Env) (fuel : nat) :
  ∀ (pg : nat → list EpisodeInfo.t) (url : string) (page : Z) (seen : list EpisodeInfo.t),
    (∀ k, getEpisodeLinksForPage E (requestAt url page k).1 = Ok (pg k)) →
    (∀ k, NoDup (seen ++ concat (pg <$> seq 0 k))) →
    crawlPages E fuel url page (list_to_set seen) = None.
Proof.
  induction fuel as [|fuel IH]; intros pg url page seen Hok Hnd; [done |].
  cbn [crawlPages].
  pose proof (Hok 0%nat) as H0. cbn [requestAt fst] in H0. rewrite H0.
  pose proof (Hnd 1%nat) as Hnd1. cbn [seq fmap list_fmap concat] in Hnd1.
  rewrite app_nil_r in Hnd1.
  apply NoDup_app in Hnd1 as (Hseen & Hdisj & Hpg).
  rewrite scanPage_fresh; [| done | intros x Hx Hin; apply (Hdisj x); set_solver].
  replace (list_to_set (pg 0%nat) ∪ list_to_set seen)
    with (list_to_set (C:=gset EpisodeInfo.t) (seen ++ pg 0%nat)) by set_solver.
  apply (IH (λ k, pg (S k))).
  - intros k. apply (Hok (S k)).
  - intros k. specialize (Hnd (S k)).
    cbn [seq fmap list_fmap concat] in Hnd.
    rewrite <- fmap_S_seq, <- list_fmap_compose in Hnd.
    by rewrite <- app_assoc.
Qed.

(** X16.  When every page the crawl asks for loads and is parsed into its
    entries (it holds the listing, and every viewer anchor of the listing
    has its caption), and no entry is ever met twice, the crawl does not
    end: no amount of fuel gives a catalog.  A site that answers every page
    with an empty listing is one. *)
Theorem crawl_without_stop_signal (E : Env) (url : string)
    (pg : nat → list EpisodeInfo.t) :
  (∀ k, pageAt E url k = Ok (pg k)) →
  (∀ k, NoDup (concat (pg <$> seq 0 k))) →
  ∀ fuel, getAllEpisodeLinks E fuel url = None.
Proof.
  intros Hok Hnd fuel. unfold getAllEpisodeLinks.
  change (∅ : gset EpisodeInfo.t) with (list_to_set (C:=gset EpisodeInfo.t) []).
  by rewrite (crawlPages_unending E fuel pg url 1 []).
Qed.

Lemma crawl_without_stop_signal_witness :
  getAllEpisodeLinks (withSoupGet (λ _, Some "blank") (Demo.env false)) 1000 Demo.tower
  = None.
Proof.
  apply (crawl_without_stop_signal _ Demo.tower (λ _, [])).
  - intros k. reflexivity.
  - intros k. induction k as [|k IH]; [constructor |].
    rewrite seq_S, fmap_app, concat_app. simpl. by rewrite app_nil_r.
Defined.

(** ** A listing page that cannot be parsed *)

Lemma viewerAnchors_panics (episodeURLs : list (string * option string)) (href : string) :
  (href, None) ∈ episodeURLs → Contains href "/viewer" = true →
  viewerAnchors episodeURLs = Panic nilDeref.
Proof.
  intros Hin Hv. induction episodeURLs as [|[h span] rest IH]; [by apply elem_of_nil in Hin |].
  apply elem_of_cons in Hin as [[= <- <-] | Hin]; simpl.
  - by rewrite Hv.
  - destruct (Contains h "/viewer"); [| by apply IH].
    destruct span; [| done]. by rewrite (IH Hin).
Qed.

Lemma crawlPages_panics (E : Env) (pgs : list (list EpisodeInfo.t)) :
  ∀ (url : string) (page : Z) (seen : list EpisodeInfo.t) (fuel : nat) (m : string),
    (∀ k pg, pgs !! k = Some pg →
             getEpisodeLinksForPage E (requestAt url page k).1 = Ok pg) →
    getEpisodeLinksForPage E (requestAt url page (List.length pgs)).1 = Panic m →
    NoDup (seen ++ concat pgs) →
    (List.length pgs < fuel)%nat →
    crawlPages E fuel url page (list_to_set seen) = Some (Panic m).
Proof.
  induction pgs as [|pg pgs IH]; intros url page seen fuel m Hok Hpanic Hnd Hfuel.
  - destruct fuel as [|fuel]; [simpl in Hfuel; lia |].
    cbn [List.length requestAt fst] in Hpanic. cbn [crawlPages]. by rewrite Hpanic.
  - destruct fuel as [|fuel]; [simpl in Hfuel; lia |].
    pose proof (Hok 0%nat pg eq_refl) as H0. cbn [requestAt fst] in H0.
    cbn [crawlPages]. rewrite H0.
    simpl concat in Hnd.
    rewrite scanPage_fresh.
    + replace (list_to_set pg ∪ list_to_set seen) with (list_to_set (C:=gset _) (seen ++ pg))
        by set_solver.
      apply IH.
      * intros k pg' Hk. apply (Hok (S k) pg' Hk).
      * done.
      * by rewrite <- app_assoc.
      * simpl in Hfuel. lia.
    + apply NoDup_app in Hnd as (_ & _ & Hnd). by apply NoDup_app in Hnd as (? & _).
    + apply NoDup_app in Hnd as (_ & Hdisj & _).
      intros x Hx Hin. apply (Hdisj x); set_solver.
Qed.

(** X27.  A listing page that loads but cannot be parsed makes the crawl
    panic: the page holds no [div.detail_lst], or one of its anchors to a
    viewer page has no caption span, and [soup] is then asked to search
    under a node that does not exist.  After pages that were collected in
    full, such a page ends [getAllEpisodeLinks] with a nil-pointer panic,
    and [getEpisodeBatches] and [GetWebtoon] with it; nothing is fetched,
    written or recorded. *)
Theorem crawl_panics_on_unparsable_page (E : Env) (fuel : nat) (opts : Opts.t) (w : world)
    (pgs : list (list EpisodeInfo.t)) (resp titre lang : string) :
  let url := Opts.url opts in
  (∀ k pg, pgs !! k = Some pg → pageAt E url k = Ok pg) →
  NoDup (concat pgs) →
  soupGet E (requestAt url 1 (List.length pgs)).1 = Some resp →
  (detailAnchors E resp = None
   ∨ ∃ episodeURLs href, detailAnchors E resp = Some episodeURLs
                         ∧ (href, None) ∈ episodeURLs
                         ∧ Contains href "/viewer" = true) →
  (List.length pgs < fuel)%nat →
  Contains url "/viewer" = false →
  getWebtoonTitle E opts = Ok (titre, lang) →
  pageAt E url (List.length pgs) = Panic nilDeref
  ∧ getAllEpisodeLinks E fuel url = Some (Panic nilDeref)
  ∧ getEpisodeBatches E fuel url (Opts.minEp opts) (Opts.maxEp opts) (Opts.epsPerFile opts)
    = Some (Panic nilDeref)
  ∧ GetWebtoon E fuel opts w = Some (Panic nilDeref, w).
Proof.
  intros url Hok Hnd Hload Hbad Hfuel Hlisting Htitle.
  assert (Hpage : pageAt E url (List.length pgs) = Panic nilDeref).
  { unfold pageAt, getEpisodeLinksForPage. rewrite Hload.
    destruct Hbad as [-> | (anchors & href & -> & Hin & Hv)]; [done |].
    by eapply viewerAnchors_panics. }
  assert (Hcrawl : getAllEpisodeLinks E fuel url = Some (Panic nilDeref)).
  { unfold getAllEpisodeLinks.
    change (∅ : gset EpisodeInfo.t) with (list_to_set (C:=gset EpisodeInfo.t) []).
    by rewrite (crawlPages_panics E pgs url 1 [] fuel nilDeref). }
  assert (Hplan : getEpisodeBatches E fuel url (Opts.minEp opts) (Opts.maxEp opts)
                    (Opts.epsPerFile opts) = Some (Panic nilDeref)).
  { unfold getEpisodeBatches. by rewrite Hlisting, Hcrawl. }
  repeat split; try done.
  unfold GetWebtoon. rewrite Htitle. cbn [orPanic]. fold url. by rewrite Hplan.
Qed.

Lemma crawl_panics_on_unparsable_page_witness :
  let E := withSoupGet (λ u, if decide (u = Demo.tower +:+ "&page=2") then Some "view-1"
                             else soupGet (Demo.env false) u) (Demo.env false) in
  let opts := Demo.opts Demo.tower 1 3 1 in
  pageAt E Demo.tower 1 = Panic nilDeref
  ∧ getAllEpisodeLinks E 3 Demo.tower = Some (Panic nilDeref)
  ∧ getEpisodeBatches E 3 Demo.tower 1 3 1 = Some (Panic nilDeref)
  ∧ GetWebtoon E 3 opts Demo.w0 = Some (Panic nilDeref, Demo.w0).
Proof.
  intros E opts.
  apply (crawl_panics_on_unparsable_page E 3 opts Demo.w0
           [ [ EpisodeInfo.mk "Ep. 3" (Demo.towerEp "3");
               EpisodeInfo.mk "Ep. 2" (Demo.towerEp "2") ] ] "view-1" "tower" "en").
  - intros [|k] pg; simpl; intros [= <-]; by vm_compute.
  - apply (bool_decide_unpack _). by vm_compute.
  - by vm_compute.
  - left. by vm_compute.
  - simpl. lia.
  - by vm_compute.
  - by vm_compute.
Defined.

(** ** The page requests of the crawl *)

Lemma pretty_N_go_digits (x : N) :
  ∀ s, all_digits s = true → all_digits (pretty_N_go x s) = true.
Proof.
  induction (N.lt_wf_0 x) as [x _ IH]; intros s Hs.
  assert (x = 0 ∨ 0 < x)%N as [-> | Hx] by lia; [done |].
  rewrite pretty_N_go_step by done.
  apply IH; [by apply N.div_lt |].
  cbn [all_digits]. rewrite Hs, andb_true_r.
  assert (x `mod` 10 < 10)%N as Hlt by (apply N.mod_lt; lia).
  unfold pretty_N_char. by repeat case_match.
Qed.

Lemma pretty_N_go_nonempty (x : N) : ∀ s, s ≠ "" → pretty_N_go x s ≠ "".
Proof.
  induction (N.lt_wf_0 x) as [x _ IH]; intros s Hs.
  assert (x = 0 ∨ 0 < x)%N as [-> | Hx] by lia; [done |].
  rewrite pretty_N_go_step by done.
  apply IH; [by apply N.div_lt | done].
Qed.

Lemma pretty_Z_digits (n : Z) : 0 ≤ n → pretty n ≠ "" ∧ all_digits (pretty n) = true.
Proof.
  intros Hn. destruct n as [|p|p]; [done | | lia].
  change (pretty (Z.pos p)) with (pretty_N_go (N.pos p) "").
  split.
  - rewrite pretty_N_go_step by lia. by apply pretty_N_go_nonempty.
  - by apply pretty_N_go_digits.
Qed.

Lemma takeDigits_digits (ds : string) : all_digits ds = true → takeDigits ds = ds.
Proof.
  induction ds as [|c ds IH]; [done |].
  simpl. intros [Hc Hds]%andb_true_iff. by rewrite Hc, IH.
Qed.

Lemma stripPageFrom_skip (s : string) :
  ∀ n, (String.length s ≤ n)%nat → stripPageFrom n s = "".
Proof.
  induction s as [|c s IH]; intros n Hn; [done |].
  simpl in Hn. destruct n as [|n]; [lia |].
  cbn [stripPageFrom]. apply IH. lia.
Qed.

Lemma stripPrefix_page_overlap (s t : string) :
  s ≠ "" → stripPrefix "&page=" s = None →
  stripPrefix "&page=" (s +:+ "&page=" +:+ t) = None.
Proof.
  intros Hne H.
  do 6 (destruct s as [|? s];
        [ try done; vm_compute in H |- *; repeat case_match; congruence
        | rewrite app_cons_s ]).
  revert H. cbn [stripPrefix].
  repeat (match goal with
          | |- context [Ascii.eqb ?a ?c] => destruct (Ascii.eqb a c); [|done]
          end).
  done.
Qed.

Lemma stripPageFrom_pageless (url : string) :
  Contains url "&page=" = false → stripPageFrom O url = url.
Proof.
  induction url as [|c url IH]; [done |].
  cbn [Contains stripPageFrom].
  destruct (stripPrefix "&page=" (String c url)); [done |].
  intros H. by rewrite IH.
Qed.

Lemma stripPageFrom_appended (url ds : string) :
  Contains url "&page=" = false → ds ≠ "" → all_digits ds = true →
  stripPageFrom O (url +:+ "&page=" +:+ ds) = url.
Proof.
  intros Hurl Hne Hds. induction url as [|c url IH].
  - rewrite app_nil_l_s.
    change ("&page=" +:+ ds) with (String "&" ("page=" +:+ ds)).
    cbn [stripPageFrom].
    change (String "&" ("page=" +:+ ds)) with ("&page=" +:+ ds).
    rewrite stripPrefix_app, (takeDigits_digits ds Hds).
    destruct ds as [|d ds]; [done |].
    apply stripPageFrom_skip. rewrite length_app_s. simpl. lia.
  - cbn [Contains] in Hurl.
    destruct (stripPrefix "&page=" (String c url)) eqn:Hs; [done |].
    pose proof (stripPrefix_page_overlap (String c url) ds ltac:(done) Hs) as Ho.
    rewrite app_cons_s in Ho |- *. cbn [stripPageFrom]. rewrite Ho.
    by rewrite IH.
Qed.

Lemma pageURL_again (url u : string) (page : Z) :
  Contains url "&page=" = false → 0 ≤ page → stripPageFrom O u = url →
  pageURL u page = url +:+ "&page=" +:+ pretty page
  ∧ stripPageFrom O (pageURL u page) = url.
Proof.
  intros Hurl Hp Hu. unfold pageURL. rewrite Hu.
  destruct (pretty_Z_digits page Hp) as [Hne Hds].
  split; [done |]. by apply stripPageFrom_appended.
Qed.

(** X17.  On a listing URL that carries no [&page=] parameter, request
    number [k] of the crawl (counting from 0) is for [url&page=k+1]: the
    parameter of the request before is taken off before the next one is put
    on, so the URL does not grow. *)
Theorem crawl_requests_page_k (url : string) (k : nat) :
  Contains url "&page=" = false →
  Z.of_nat k < maxInt →
  requestAt url 1 k = (url +:+ "&page=" +:+ pretty (Z.of_nat k + 1), Z.of_nat k + 1).
Proof.
  intros Hurl Hk.
  assert (G : ∀ k u p, stripPageFrom O u = url → 0 ≤ p → p + Z.of_nat k ≤ maxInt →
                       requestAt u p k
                       = (url +:+ "&page=" +:+ pretty (p + Z.of_nat k), p + Z.of_nat k)).
  { clear k Hk. induction k as [|k IH]; intros u p Hu Hp Hle.
    - cbn [requestAt]. rewrite Z.add_0_r.
      by destruct (pageURL_again url u p Hurl Hp Hu) as [-> _].
    - cbn [requestAt].
      destruct (pageURL_again url u p Hurl Hp Hu) as [_ Hu'].
      rewrite wrap_small by (unfold minInt, intSize; lia).
      rewrite (IH _ _ Hu') by lia.
      by replace (p + Z.of_nat (S k)) with (p + 1 + Z.of_nat k) by lia. }
  rewrite (G k url 1); [| by apply stripPageFrom_pageless | lia | lia].
  by replace (1 + Z.of_nat k) with (Z.of_nat k + 1) by lia.
Qed.

Lemma crawl_requests_page_k_witness :
  requestAt Demo.tower 1 2
  = ("https://www.webtoons.com/en/fantasy/tower/list?title_no=95&page=3", 3).
Proof.
  apply (crawl_requests_page_k Demo.tower 2); vm_compute; reflexivity.
Defined.

(** ** A run on the URL of one episode *)



(** ** The two revisions of [saveBatch] *)







(** ** From one run to the next *)

(** X20.  What a run records is what a later database run starts from. After
    [GetWebtoon] has returned, the query of [GetWebtoons], with no [-u] or
    with the same URL, returns a row of this series, and without
    [-confOverride] the job made from it has the URL, the episodes per file
    and the format of the first run, and starts at the recorded chapter
    (which it therefore downloads again). *)
Theorem recorded_row_is_resumed (E : Env) (fuel : nat) (opts opts' : Opts.t)
    (w w' : world) (rows : list Row) :
  GetWebtoon E fuel opts w = Some (Ok (), w') →
  Opts.url opts' = "" ∨ Opts.url opts' = Opts.url opts →
  confOverride E = false →
  queryRows opts' w' rows →
  ∃ row, row ∈ rows
         ∧ resumeOpts E opts' row
           = Opts.mk (Opts.url opts) (last_chapter row) (Opts.maxEp opts')
                     (Opts.epsPerFile opts) (Opts.format opts).
Proof.
  intros Hrun Hurl Hconf Hq.
  destruct (GetWebtoon_effect _ _ _ _ _ _ Hrun)
    as [(_ & titre & lang & row & _ & Hdb & Hu & He & Hf) | [[[e [=]] | [=]] _]].
  exists row. split.
  - unfold queryRows in Hq. rewrite Hq.
    apply list_elem_of_In, filter_In. split.
    + apply list_elem_of_In, list_elem_of_fmap. exists ((titre, lang), row). split; [done |].
      apply elem_of_map_to_list. rewrite Hdb. apply lookup_insert_eq.
    + unfold selected. apply orb_true_iff.
      destruct Hurl as [-> | ->]; [left | right]; by apply bool_decide_eq_true_2.
  - unfold resumeOpts. by rewrite Hconf, Hu, He, Hf.
Qed.

Lemma recorded_row_is_resumed_witness :
  ∃ row, row ∈ [ {| row_url := Demo.tower; last_chapter := 3; row_epsPerFile := 1;
                    row_format := "pdf" |} ]
         ∧ resumeOpts (Demo.env false) (Demo.opts "" 0 maxInt 2) row
           = Opts.mk Demo.tower (last_chapter row) maxInt 1 "pdf".
Proof.
  destruct (GetWebtoon (Demo.env false) 3 (Demo.opts Demo.tower 1 3 1) Demo.w0)
    as [[r w']|] eqn:Hrun; [| by vm_compute in Hrun].
  assert (Hr : r = Ok ()) by (vm_compute in Hrun; congruence). subst r.
  apply (recorded_row_is_resumed (Demo.env false) 3 (Demo.opts Demo.tower 1 3 1)
           (Demo.opts "" 0 maxInt 2) Demo.w0 w').
  - exact Hrun.
  - by left.
  - reflexivity.
  - assert (w' = snd (default (Ok (), Demo.w0)
                        (GetWebtoon (Demo.env false) 3 (Demo.opts Demo.tower 1 3 1) Demo.w0)))
      as -> by (by rewrite Hrun).
    unfold queryRows. vm_compute. reflexivity.
Defined.

(** ** The entry names of an archive *)

Lemma pretty_N_go_leading (x : N) :
  (0 < x)%N → ∀ s, ∃ c r, pretty_N_go x s = String c r ∧ c ≠ "0"%char.
Proof.
  induction (N.lt_wf_0 x) as [x _ IH]; intros Hx s.
  rewrite pretty_N_go_step by done.
  destruct (N.eq_0_gt_0_cases (x `div` 10)) as [Hz | Hp].
  - rewrite Hz, pretty_N_go_0. eexists _, _. split; [done |].
    assert (x < 10)%N by (by apply N.div_small_iff).
    rewrite N.mod_small by done.
    assert (x = 1 ∨ x = 2 ∨ x = 3 ∨ x = 4 ∨ x = 5 ∨ x = 6 ∨ x = 7 ∨ x = 8 ∨ x = 9)%N
      by lia.
    naive_solver.
  - apply IH; [by apply N.div_lt | done].
Qed.

Lemma pretty_Z_leading (n : Z) (r : string) : 0 ≤ n → pretty n = String "0" r → n = 0.
Proof.
  intros Hn H. destruct n as [|p|p]; [done | | lia].
  change (pretty (Z.pos p)) with (pretty_N_go (N.pos p) "") in H.
  destruct (pretty_N_go_leading (N.pos p) ltac:(lia) "") as (c & r' & Hc & Hne).
  congruence.
Qed.

Lemma zeros_S (k : nat) :
  String.concat "" (replicate (S k) "0") = String "0" (String.concat "" (replicate k "0")).
Proof. by destruct k. Qed.

Lemma zeros_app_length (k : nat) (d : string) :
  String.length (String.concat "" (replicate k "0") +:+ d) = (k + String.length d)%nat.
Proof.
  induction k as [|k IH]; [done |].
  rewrite zeros_S, app_cons_s. simpl. by rewrite IH.
Qed.

Lemma zeros_app_inj (j k : nat) (a b : string) :
  (j ≤ k)%nat →
  String.concat "" (replicate j "0") +:+ a = String.concat "" (replicate k "0") +:+ b →
  a = String.concat "" (replicate (k - j) "0") +:+ b.
Proof.
  revert k. induction j as [|j IH]; intros k Hjk H.
  - by rewrite Nat.sub_0_r.
  - destruct k as [|k]; [lia |].
    rewrite !zeros_S, !app_cons_s in H. injection H as H.
    apply IH in H; [done | lia].
Qed.

Lemma pad10_inj (a b : Z) : 0 ≤ a → 0 ≤ b → pad10 a = pad10 b → a = b.
Proof.
  assert (G : ∀ a b, 0 ≤ a → 0 ≤ b →
                     (String.length (pretty b) ≤ String.length (pretty a))%nat →
                     pad10 a = pad10 b → a = b).
  { clear. intros a b Ha Hb Hlen H. unfold pad10 in H. cbv zeta in H.
    pose proof (f_equal String.length H) as HL. rewrite !zeros_app_length in HL.
    apply zeros_app_inj in H; [| lia].
    destruct (10 - String.length (pretty b) - (10 - String.length (pretty a)))%nat
      as [|k] eqn:Hk.
    - by apply (inj pretty).
    - rewrite zeros_S, app_cons_s in H.
      pose proof (pretty_Z_leading a _ Ha H) as ->.
      pose proof (f_equal String.length H) as HL'. rewrite <- app_cons_s, <- zeros_S in HL'.
      rewrite zeros_app_length in HL'. change (String.length (pretty 0)) with 1%nat in *.
      destruct (pretty_Z_digits b Hb) as [Hne _].
      destruct (pretty b); [done | simpl in *; lia]. }
  intros Ha Hb H.
  destruct (decide (String.length (pretty b) ≤ String.length (pretty a))%nat).
  - by apply G.
  - symmetry. apply G; [done | done | lia | done].
Qed.

Lemma cbzEntries_names (imgs : list bytes) :
  ∀ n name, 0 ≤ n → name ∈ (cbzEntries n imgs).*1 →
            ∃ k, n ≤ k ∧ name = pad10 k +:+ ".jpg".
Proof.
  induction imgs as [|img imgs IH]; intros n name Hn Hin; simpl in Hin.
  - by apply elem_of_nil in Hin.
  - apply elem_of_cons in Hin as [-> | Hin]; [exists n; split; [lia | done] |].
    destruct (IH (n + 1) name ltac:(lia) Hin) as (k & Hk & ->).
    exists k. split; [lia | done].
Qed.

Lemma app_inv_tail_s (a b t : string) : a +:+ t = b +:+ t → a = b.
Proof.
  revert b. induction a as [|x a IH]; intros b H.
  - destruct b as [|y b]; [done |].
    pose proof (f_equal String.length H) as HL.
    rewrite app_nil_l_s, length_app_s in HL. simpl in HL. lia.
  - destruct b as [|y b].
    + pose proof (f_equal String.length H) as HL.
      rewrite app_nil_l_s, length_app_s in HL. simpl in HL. lia.
    + rewrite !app_cons_s in H. injection H as -> H. by rewrite (IH b H).
Qed.

Lemma cbzEntries_NoDup (imgs : list bytes) :
  ∀ n, 0 ≤ n → NoDup (cbzEntries n imgs).*1.
Proof.
  induction imgs as [|img imgs IH]; intros n Hn; simpl; [constructor |].
  apply NoDup_cons. split; [| apply IH; lia].
  intros Hin. apply cbzEntries_names in Hin as (k & Hk & Heq); [| lia].
  apply app_inv_tail_s, pad10_inj in Heq; lia.
Qed.

Lemma cbzEntries_images (imgs : list bytes) : ∀ n, (cbzEntries n imgs).*2 = imgs.
Proof. induction imgs as [|img imgs IH]; intros n; simpl; [done | by rewrite IH]. Qed.

(** An archive takes any image that can be fetched: [cbz] has no decoding
    step. *)
Lemma addImages_app_cbz (E : Env) (pre rest : list string) :
  fetchableLinks E pre →
  ∀ (z : list (string * bytes)) (n : Z) (w : world),
    0 ≤ n → n + len pre ≤ maxInt →
    addImages E (pre ++ rest) (AsCBZ {| zipWriter := z; numFiles := n |}) w
    = addImages E rest
        (withImages (AsCBZ {| zipWriter := z; numFiles := n |}) (fetched E pre))
        (logs (loadEvents E pre) w).
Proof.
  unfold fetched, loadEvents.
  induction pre as [|l pre IH]; intros Hg z n w H0 H1.
  - simpl. rewrite app_nil_r, Z.add_0_r, logs_nil. done.
  - assert (Hgp : fetchableLinks E pre) by (intros l' Hl'; apply Hg; set_solver).
    assert (Hlen : len (l :: pre) = len pre + 1) by (unfold len; simpl length; lia).
    rewrite Hlen in H1.
    assert (Hpos : 0 ≤ len pre) by (unfold len; lia).
    rewrite stillLinks_cons. cbn [app addImages].
    destruct (Contains l ".gif") eqn:Hgif.
    + apply IH; [done | done | lia].
    + destruct (Hg l) as [Hc | [img Himg]]; [set_solver | congruence |].
      unfold fetchImage. rewrite Himg.
      cbn [addImage comicFile_ComicFile CBZComicFile_ComicFile obind zipWriter numFiles].
      rewrite wrap_small by (unfold minInt, intSize; lia).
      rewrite IH; [| done | lia | lia].
      cbn [fmap list_fmap omap list_omap mjoin list_join]. rewrite Himg.
      cbn [withImages zipWriter numFiles cbzEntries].
      rewrite !log_logs, !logs_logs.
      rewrite <- !app_assoc. cbn [app].
      do 3 f_equal. unfold len. simpl length. lia.
Qed.

(** X21.  A [cbz] batch whose images can all be fetched (an archive takes
    any bytes: nothing is decoded) is saved as an archive that holds the
    still images in the order of the links, no two of them under the same
    entry name. *)
Theorem cbz_entry_names_distinct (E : Env) (title lang : string) (opts : Opts.t)
    (b : EpisodeBatch.t) (total : Z) (w : world) :
  Opts.format opts = "cbz" →
  fetchableLinks E (EpisodeBatch.imgLinks b) →
  creatable E (outFileOf title lang opts b) = true →
  FileVerify E = false ∨ fs w !! outFileOf title lang opts b = None →
  len (EpisodeBatch.imgLinks b) ≤ maxInt →
  ∃ entries w',
    saveBatch E title lang opts b total w = (Ok (), w')
    ∧ fs w' !! outFileOf title lang opts b = Some (CbzArchive entries)
    ∧ entries.*2 = fetched E (EpisodeBatch.imgLinks b)
    ∧ NoDup entries.*1.
Proof.
  intros Hfmt Hg Hc Hrun Hlen.
  unfold saveBatch. rewrite (saveBatch_runs _ _ _ Hrun).
  unfold getComicFile. rewrite decide_True by done. unfold newCBZComicFile.
  pose proof (addImages_app_cbz E (EpisodeBatch.imgLinks b) [] Hg [] 0
                (log (EvGetComicFile (Opts.format opts)) w)) as Hadd.
  rewrite app_nil_r in Hadd. rewrite Hadd by lia.
  cbn [addImages withImages zipWriter numFiles app].
  rewrite (save_creatable _ _ _ _ Hc). cbn [recover fileOf zipWriter].
  eexists _, _. split; [done |]. split; [apply lookup_insert_eq |].
  split; [apply cbzEntries_images | by apply cbzEntries_NoDup].
Qed.

Lemma cbz_entry_names_distinct_witness :
  let opts := Opts.mk Demo.solo 5 5 1 "cbz" in
  let b := EpisodeBatch.mk [ "https://img.example/5a.jpg"; "https://img.example/3b.gif";
                             "https://img.example/1a.jpg" ] "Ep. 5" 5 5 in
  ∃ entries w',
    saveBatch (Demo.env false) "solo" "en" opts b 1 Demo.w0 = (Ok (), w')
    ∧ fs w' !! outFileOf "solo" "en" opts b = Some (CbzArchive entries)
    ∧ entries.*2 = fetched (Demo.env false) (EpisodeBatch.imgLinks b)
    ∧ NoDup entries.*1.
Proof.
  intros opts b.
  apply (cbz_entry_names_distinct (Demo.env false) "solo" "en" opts b 1 Demo.w0).
  - reflexivity.
  - intros l Hl. simpl in Hl.
    repeat (apply elem_of_cons in Hl as [-> | Hl]);
      [right; vm_compute; by eexists | left; by vm_compute
       | right; vm_compute; by eexists | by apply elem_of_nil in Hl].
  - reflexivity.
  - right. by vm_compute.
  - by vm_compute.
Defined.

(** ** More runs on the small site *)


Lemma ReplaceAll_template_witness :
  ReplaceAll ("https://cdn.example/m/" +:+ "{=filename}" +:+ "?type=q70") "{=filename}" "p1.jpg"
  = "https://cdn.example/m/" +:+ "p1.jpg" +:+ "?type=q70".
Proof.
  apply (ReplaceAll_template "https://cdn.example/m/" "?type=q70" "p1.jpg"); reflexivity.
Defined.

Lemma Legacy_empty_range_panics_witness :
  Legacy.planBatches (Demo.env false) 3
    [Demo.towerEp "1"; Demo.towerEp "2"; Demo.towerEp "3"] 7 9 1
  = Some (Panic "index out of range").
Proof.
  apply (Legacy_empty_range_panics (Demo.env false) 3
           [Demo.towerEp "1"; Demo.towerEp "2"; Demo.towerEp "3"] 7 9 1).
  intros l Hl.
  repeat (apply elem_of_cons in Hl as [-> | Hl]);
    [by vm_compute .. | by apply elem_of_nil in Hl].
Defined.

Lemma Legacy_catalog_urls_unique_witness : NoDup [Demo.twinEp1].
Proof.
  apply (Legacy_catalog_urls_unique (Demo.env false) 3 Demo.twin).
  - intros s. simpl. apply reverse_Permutation.
  - by vm_compute.
Defined.

(** ** A URL with too few path segments *)

Lemma splitFrom_last (cur a : string) :
  lacks "/" a = true → splitFrom O "/" cur a = [cur +:+ a].
Proof.
  revert cur. induction a as [|c a IH]; intros cur Ha.
  - by rewrite app_nil_r_s.
  - simpl in Ha. apply andb_true_iff in Ha as [Hc Ha]. apply negb_true_iff in Hc.
    cbn [splitFrom stripPrefix]. rewrite Ascii.eqb_sym, Hc. rewrite IH by done.
    by rewrite app_assoc_s.
Qed.

(** X26.  A URL of the site with fewer than three path segments (the site
    root, a language page, a genre page) passes the URI check and then makes
    [getWebtoonTitle] panic on its index into the split path; [GetWebtoon]
    ends with this panic before anything is fetched, written or recorded. *)
Theorem short_url_panics (E : Env) (fuel : nat) (opts : Opts.t) (w : world)
    (scheme path a b : string) :
  ParseRequestURI E (Opts.url opts) = true →
  Opts.url opts = scheme +:+ "www.webtoons.com/" +:+ path →
  scheme = "https://" ∨ scheme = "http://" →
  plainPath path →
  lacks "/" a = true → lacks "/" b = true →
  path = a ∨ path = a +:+ "/" +:+ b →
  getWebtoonTitle E opts = Panic "index out of range"
  ∧ GetWebtoon E fuel opts w = Some (Panic "index out of range", w).
Proof.
  intros HP Hurl Hs Hp Ha Hb Hpath.
  assert (Ht : getWebtoonTitle E opts = Panic "index out of range").
  { unfold getWebtoonTitle. rewrite HP, Hurl. cbn [negb].
    rewrite (strip_site scheme path Hs Hp).
    destruct Hpath as [-> | ->]; unfold Split.
    - by rewrite (splitFrom_last "" a Ha).
    - rewrite (splitFrom_slash "" a b Ha), (splitFrom_last "" b Hb). done. }
  split; [done |]. unfold GetWebtoon. by rewrite Ht.
Qed.

Lemma short_url_panics_witness :
  getWebtoonTitle (Demo.env false) (Demo.opts "https://www.webtoons.com/en/fantasy" 0 9 1)
  = Panic "index out of range"
  ∧ GetWebtoon (Demo.env false) 3 (Demo.opts "https://www.webtoons.com/en/fantasy" 0 9 1)
      Demo.w0
    = Some (Panic "index out of range", Demo.w0).
Proof.
  apply (short_url_panics (Demo.env false) 3 _ Demo.w0 "https://" "en/fantasy" "en" "fantasy");
    try (vm_compute; reflexivity).
  - by left.
  - repeat split; vm_compute; reflexivity.
  - by right.
Defined.
